(** * YouTube Notes & Quiz Generator: the quiz-question lifecycle engine

    A shallow embedding of [src/utils/llm.py], [src/utils/quiz.py] and
    [src/utils/storage.py], and the properties of the natural-language
    specification checked against it; then the video ids and transcripts
    of [src/utils/transcript.py], the escaping of
    [src/utils/pdf_generator.py] and the quiz pages of [src/app.py], with
    further properties of the code.

    Conventions of the embedding.
    - Python [int] is [Z]; [str] is [string], a sequence of 8-bit
      characters; a [list] is a [list].
    - A value produced by [json.loads] is a [json] tree; a [dict] is an
      association list in insertion order.  Numbers are integers: a
      document with a floating-point number is outside the model.
    - The dicts the quiz engine passes around with a fixed set of keys
      (notes, question, graded answer, verdict, topic statistics) are
      records.
    - The notes handed to the question bank are a record of the four
      fields the prompt reads, each of the type the prompt asks for.  On
      other decoded notes the f-string of
      [_generate_questions_by_difficulty] raises before the [try] of the
      tier (a missing field, a topic that is no object, a key concept that
      is no string) or prints values that are no strings; such notes are
      outside the embedding.
    - A Python exception is a value of [exn]; code that may raise returns
      a [result].
    - The text-generation service ([litellm.completion]) is an oracle that
      is asked with the request and the number of calls made so far; a
      call returns, or raises an exception of class [Exception], of which
      the text and whether it is a [json.JSONDecodeError] are kept;
      [time.sleep] is logged in the [world]; [print] is not modelled.
    - [json.loads], [json.dump], [json.load] and the clock are parameters
      of the functions that use them; module [Json] gives a reference
      codec to run them.
    - The file system is the set of the directories that exist and the
      text of each file, by path.  A path is the text handed to [open]:
      two texts that lead to one file ([a//b], [a/./b], a link) are
      different paths here, and permissions are not modelled.
    - The random module draws from a [tape] of raw numbers.
    - White space is ASCII white space; on text with other white space
      (U+0085, U+00A0 and beyond) Python's [strip] and [split] do more
      than the ones here.
    - The transcript service ([YouTubeTranscriptApi.fetch]) is a parameter
      of [get_transcript]; the two regular expressions of
      [extract_video_id] are matchers written out by hand.
    - A page of the application is a function of the session state and of
      the values its widgets return in one run of the script; what a page
      draws is not modelled.
    - The aggregator is written over the interface [Arith] of the
      arithmetic it uses on percentages; its properties hold in every
      arithmetic whose comparisons obey [ArithLaws], as binary64 numbers
      do when none is NaN.  The rationals, [exact], are the instance used
      to run it. *)

From Stdlib Require Import ZArith QArith String Ascii List Bool Lia Permutation Sorted.
From Stdlib Require Import DecimalString DecimalPos DecimalZ.
From stdpp Require Import base list strings gmap.

Set Warnings "-register-all".
Local Open Scope string_scope.
Local Open Scope list_scope.
Local Open Scope Z_scope.

(** ** Python values and exceptions *)

Module Py.

Inductive json : Type :=
| JNull
| JBool (b : bool)
| JInt (n : Z)
| JStr (s : string)
| JList (xs : list json)
| JDict (kvs : list (string * json)).

(** Python values that [json.dump] writes: what [json.loads] produces,
    and tuples.  A dict has strings for keys. *)
Inductive value : Type :=
| VNone
| VBool (b : bool)
| VInt (n : Z)
| VStr (s : string)
| VList (xs : list value)
| VTuple (xs : list value)
| VDict (kvs : list (string * value)).

(** A decoded value as a Python value. *)
Fixpoint value_of (v : json) : value :=
  match v with
  | JNull => VNone
  | JBool b => VBool b
  | JInt n => VInt n
  | JStr s => VStr s
  | JList xs => VList (map value_of xs)
  | JDict kvs => VDict (map (fun kv => (fst kv, value_of (snd kv))) kvs)
  end.

(** [JSONDecodeError] is the one [json.loads] and [json.load] raise;
    [ServiceError] and [ServiceDecodeError] are the exceptions of the
    text-generation service with their [str(e)], the second when the
    class of the exception is [json.JSONDecodeError]. *)
Inductive exn : Type :=
| KeyError (key : string)
| TypeError
| IndexError
| ValueError (msg : string)
| JSONDecodeError
| UnicodeDecodeError
| ServiceError (error_str : string)
| ServiceDecodeError (error_str : string)
| FileNotFoundError
| IsADirectoryError
| NotADirectoryError
| Exception (msg : string).

(** [isinstance(e, json.JSONDecodeError)] *)
Definition is_decode_error (e : exn) : bool :=
  match e with
  | JSONDecodeError | ServiceDecodeError _ => true
  | _ => false
  end.

Inductive result (A : Type) : Type :=
| Ok (a : A)
| Raise (e : exn).
Arguments Ok {A} a.
Arguments Raise {A} e.

#[export] Instance result_ret : MRet result := fun A a => Ok a.
#[export] Instance result_bind : MBind result := fun A B f r =>
  match r with
  | Ok a => f a
  | Raise e => Raise e
  end.

(** [sub in s] on strings. *)
Fixpoint str_in (sub s : string) : bool :=
  String.prefix sub s ||
  match s with
  | EmptyString => false
  | String _ s' => str_in sub s'
  end.

Definition lower_ascii (c : ascii) : ascii :=
  let n := nat_of_ascii c in
  if (65 <=? n)%nat && (n <=? 90)%nat then ascii_of_nat (n + 32) else c.

(** [s.lower()] *)
Fixpoint lower (s : string) : string :=
  match s with
  | EmptyString => EmptyString
  | String c s' => String (lower_ascii c) (lower s')
  end.

Definition upper_ascii (c : ascii) : ascii :=
  let n := nat_of_ascii c in
  if (97 <=? n)%nat && (n <=? 122)%nat then ascii_of_nat (n - 32) else c.

(** [s.upper()] *)
Fixpoint upper (s : string) : string :=
  match s with
  | EmptyString => EmptyString
  | String c s' => String (upper_ascii c) (upper s')
  end.

(** [range(n)] *)
Definition range (n : Z) : list Z := map Z.of_nat (seq 0 (Z.to_nat n)).

(** [d[key]] on a decoded value. *)
Fixpoint assoc {A} (key : string) (kvs : list (string * A)) : option A :=
  match kvs with
  | [] => None
  | (k, v) :: rest => if String.eqb k key then Some v else assoc key rest
  end.

(** [key in v] for a string [key]: key membership on a dict, element
    membership on a list, substring test on a string, TypeError on the
    rest. *)
Definition contains (key : string) (v : json) : result bool :=
  match v with
  | JDict kvs => Ok (bool_decide (is_Some (assoc key kvs)))
  | JList xs =>
      Ok (existsb (fun x => match x with JStr s => String.eqb s key | _ => false end) xs)
  | JStr s => Ok (str_in key s)
  | JNull | JBool _ | JInt _ => Raise TypeError
  end.

(** [all(key in v for key in keys)]: stops at the first [False]. *)
Fixpoint all_in (keys : list string) (v : json) : result bool :=
  match keys with
  | [] => Ok true
  | key :: rest =>
      b ← contains key v;
      if b : bool then all_in rest v else Ok false
  end.

(** The items [list.extend(v)] appends: the elements of a list, the
    characters of a string, the keys of a dict; TypeError on the rest. *)
Fixpoint chars (s : string) : list json :=
  match s with
  | EmptyString => []
  | String c s' => JStr (String c EmptyString) :: chars s'
  end.

Definition iter (v : json) : result (list json) :=
  match v with
  | JList xs => Ok xs
  | JStr s => Ok (chars s)
  | JDict kvs => Ok (map (fun kv => JStr (fst kv)) kvs)
  | JNull | JBool _ | JInt _ => Raise TypeError
  end.

(** [xs[i]] with Python's negative indices. *)
Definition index {A} (xs : list A) (i : Z) : result A :=
  let n := Z.of_nat (length xs) in
  let i := if i <? 0 then i + n else i in
  if (0 <=? i) && (i <? n) then
    match xs !! Z.to_nat i with
    | Some x => Ok x
    | None => Raise IndexError
    end
  else Raise IndexError.

(** [sep.join(parts)] *)
Fixpoint join (sep : string) (parts : list string) : string :=
  match parts with
  | [] => ""
  | [p] => p
  | p :: rest => p +:+ sep +:+ join sep rest
  end.

(** [str(n)] for an int. *)
Definition str (n : Z) : string := DecimalString.NilEmpty.string_of_int (Z.to_int n).

Definition nl : string := String (ascii_of_nat 10) "".
Definition dq : string := String (ascii_of_nat 34) "".

Fixpoint string_of_rev (cs : list ascii) (acc : string) : string :=
  match cs with
  | [] => acc
  | c :: cs' => string_of_rev cs' (String c acc)
  end.

(** [s.split(sep)] for a non-empty separator: [skip] counts the characters
    of a separator still to be passed over, [cur] is the piece being read,
    latest character first. *)
Fixpoint split_aux (sep s : string) (skip : nat) (cur : list ascii) : list string :=
  match s with
  | EmptyString => [string_of_rev cur ""]
  | String c s' =>
      match skip with
      | S k => split_aux sep s' k cur
      | O =>
          if String.prefix sep s
          then string_of_rev cur "" :: split_aux sep s' (String.length sep - 1) []
          else split_aux sep s' 0 (c :: cur)
      end
  end.

Definition split (sep s : string) : list string := split_aux sep s 0 [].

(** ASCII white space, as [str.isspace] has it. *)
Definition is_space (c : ascii) : bool :=
  let n := nat_of_ascii c in
  ((9 <=? n)%nat && (n <=? 13)%nat) || ((28 <=? n)%nat && (n <=? 32)%nat).

Fixpoint lstrip (s : string) : string :=
  match s with
  | EmptyString => EmptyString
  | String c s' => if is_space c then lstrip s' else s
  end.

Fixpoint rstrip (s : string) : string :=
  match s with
  | EmptyString => EmptyString
  | String c s' =>
      match rstrip s' with
      | EmptyString => if is_space c then EmptyString else String c EmptyString
      | r => String c r
      end
  end.

(** [s.strip()] *)
Definition strip (s : string) : string := rstrip (lstrip s).

(** The text of an error entry: a fixed string, or an f-string ending in
    [str(e)] for the exception caught. *)
Inductive message : Type :=
| Text (s : string)
| Fmt (prefix : string) (e : exn).

End Py.
Import Py.

(** ** The generation client (the retry loop shared by llm.py and quiz.py) *)

Module Client.

Record response := {
  content : string;
  prompt_tokens : Z;
  completion_tokens : Z;
  total_tokens : Z
}.

Record request := {
  model : string;
  messages : string;
  temperature : Q;
  max_tokens : Z
}.

(** What one call of [completion] does: it returns, or it raises an
    exception whose [str(e)] is [error_str]: one of class
    [json.JSONDecodeError] ([RaisesDecodeError]) or of another class
    ([Raises]). *)
Inductive outcome : Type :=
| Returns (r : response)
| Raises (error_str : string)
| RaisesDecodeError (error_str : string).

(** The service: the outcome of the [n]-th call, given the request. *)
Definition service : Type := request -> nat -> outcome.

Record world := {
  calls : nat;        (* calls of [completion] made so far *)
  slept : list Z      (* arguments of [time.sleep], oldest first *)
}.

Definition w0 : world := {| calls := 0; slept := [] |}.

Definition tick (w : world) : world :=
  {| calls := S (calls w); slept := slept w |}.

Definition sleep (secs : Z) (w : world) : world :=
  {| calls := calls w; slept := slept w ++ [secs] |}.

Definition MODEL_CHAIN : list string :=
  ["gemini/gemini-2.5-flash-lite"; "gemini/gemini-2.0-flash"].

(** The first branch of the handler: overloaded or rate limited. *)
Definition is_transient (error_str : string) : bool :=
  str_in "503" error_str || str_in "overloaded" (lower error_str) || str_in "429" error_str.

(** The second branch: model not found. *)
Definition is_unavailable (error_str : string) : bool :=
  str_in "404" error_str || str_in "not found" (lower error_str).

Definition is_other (error_str : string) : bool :=
  negb (is_transient error_str) && negb (is_unavailable error_str).

(** How the inner [for attempt in range(max_retries)] loop is left. *)
Inductive attempts_exit : Type :=
| Returned (r : response)     (* [return response] *)
| Reraised (e : exn)          (* [raise] *)
| NextModel.                  (* [break], or the range is used up *)

Section Loop.
Variable completion : service.
Variables (msgs : string) (temp : Q) (max_toks : Z).
Variable max_retries : Z.

Fixpoint attempts (mdl : string) (todo : list Z) (w : world)
  : attempts_exit * world :=
  match todo with
  | [] => (NextModel, w)
  | attempt :: rest =>
      let req := {| model := mdl; messages := msgs;
                    temperature := temp; max_tokens := max_toks |} in
      match completion req (calls w) with
      | Returns r => (Returned r, tick w)
      | Raises error_str =>
          let w := tick w in
          if is_transient error_str then
            if attempt <? max_retries - 1 then
              let wait_time := 2 ^ attempt * 2 in
              attempts mdl rest (sleep wait_time w)
            else (NextModel, w)
          else if is_unavailable error_str then (NextModel, w)
          else
            if attempt =? max_retries - 1 then (Reraised (ServiceError error_str), w)
            else attempts mdl rest (sleep 2 w)
      | RaisesDecodeError error_str =>
          (* the same handler: it looks at [str(e)] only *)
          let w := tick w in
          if is_transient error_str then
            if attempt <? max_retries - 1 then
              let wait_time := 2 ^ attempt * 2 in
              attempts mdl rest (sleep wait_time w)
            else (NextModel, w)
          else if is_unavailable error_str then (NextModel, w)
          else
            if attempt =? max_retries - 1 then (Reraised (ServiceDecodeError error_str), w)
            else attempts mdl rest (sleep 2 w)
      end
  end.

Fixpoint models (chain : list string) (w : world) : result response * world :=
  match chain with
  | [] =>
      (Raise (Exception "All models failed. Please check your API keys or try again later."), w)
  | mdl :: rest =>
      match attempts mdl (range max_retries) w with
      | (Returned r, w') => (Ok r, w')
      | (Reraised e, w') => (Raise e, w')
      | (NextModel, w') => models rest w'
      end
  end.

Definition call_llm_with_retry (w : world) : result response * world :=
  models MODEL_CHAIN w.
End Loop.

(** The clean-up of a response: the text inside a fenced block, if any. *)
Definition unfence (content : string) : result string :=
  if str_in "```json" content then
    part ← index (split "```json" content) 1;
    part ← index (split "```" part) 0;
    Ok (strip part)
  else if str_in "```" content then
    part ← index (split "```" content) 1;
    part ← index (split "```" part) 0;
    Ok (strip part)
  else Ok content.

End Client.

(** ** The random module, driven by a tape of raw draws

    [shuffle] is the Fisher-Yates loop of [random.shuffle]; [sample] is the
    selection loop [random.sample] runs on a copy of the population (the
    one CPython takes unless the population is much larger than the
    sample). *)

Module Random.

Definition tape : Type := list nat.

(** [randbelow(n)] for [n > 0]: the next draw, reduced below [n]. *)
Definition randbelow (n : nat) (t : tape) : nat * tape :=
  match t with
  | [] => (0%nat, [])
  | r :: t' => ((r mod n)%nat, t')
  end.

(** [x[i], x[j] = x[j], x[i]] *)
Definition swap {A} (x : list A) (i j : nat) : list A :=
  match x !! i, x !! j with
  | Some a, Some b => <[j := a]> (<[i := b]> x)
  | _, _ => x
  end.

Fixpoint shuffle_loop {A} (todo : list nat) (x : list A) (t : tape) : list A * tape :=
  match todo with
  | [] => (x, t)
  | i :: rest =>
      let '(j, t') := randbelow (S i) t in
      shuffle_loop rest (swap x i j) t'
  end.

(** [random.shuffle(x)]: [for i in reversed(range(1, len(x)))], draw
    [j = randbelow(i + 1)] and swap. *)
Definition shuffle {A} (x : list A) (t : tape) : list A * tape :=
  shuffle_loop (rev (seq 1 (length x - 1))) x t.

(** The selection loop of [random.sample] on a copy [pool] of the
    population of length [n]: the items not yet selected are
    [pool[0 : n-i]]. *)
Fixpoint sample_loop {A} (n : nat) (todo : list nat) (pool : list A) (t : tape)
  : list A * tape :=
  match todo with
  | [] => ([], t)
  | i :: rest =>
      let '(j, t') := randbelow (n - i) t in
      match pool !! j, pool !! (n - i - 1)%nat with
      | Some x, Some y =>
          let '(selected, t'') := sample_loop n rest (<[j := y]> pool) t' in
          (x :: selected, t'')
      | _, _ => ([], t')
      end
  end.

(** [random.sample(population, k)] *)
Definition sample {A} (population : list A) (k : Z) (t : tape)
  : result (list A) * tape :=
  let n := length population in
  if (0 <=? k) && (k <=? Z.of_nat n) then
    let '(selected, t') := sample_loop n (seq 0 (Z.to_nat k)) population t in
    (Ok selected, t')
  else (Raise (ValueError "Sample larger than population or is negative"), t).

End Random.

(** ** quiz.py: question bank, sampler, grader, aggregator *)

Module Quiz.
Import Client Random.

Record Topic := {
  name : string;
  description : string;
  keywords : list string
}.

(** The notes the prompt is built from: [notes_data['summary']] and
    [notes_data['detailed_notes']] strings, [notes_data['key_concepts']] a
    list of strings, [notes_data['topics']] a list of objects with the
    strings [name] and [description]. *)
Record Notes := {
  summary : string;
  key_concepts : list string;
  topics : list Topic;
  detailed_notes : string
}.

Inductive tier : Type := easy | medium | hard.

Definition tier_name (d : tier) : string :=
  match d with
  | easy => "easy"
  | medium => "medium"
  | hard => "hard"
  end.

Definition difficulty_instructions (d : tier) : string :=
  match d with
  | easy => "Focus on basic definitions, facts, and direct recall from the lecture."
  | medium => "Focus on understanding concepts and their relationships."
  | hard => "Focus on application, analysis, and critical thinking."
  end.

(** The f-string of [_generate_questions_by_difficulty], line by line. *)
Definition question_prompt (notes_data : Notes) (difficulty : tier) (count : Z) : string :=
  let topics_text :=
    join nl (map (fun topic => "- " +:+ name topic +:+ ": " +:+ description topic)
                 (topics notes_data)) in
  join nl [
    "You are an expert quiz creator. Generate " +:+ str count +:+
      " multiple-choice questions based on these lecture notes.";
    "";
    "LECTURE SUMMARY:";
    summary notes_data;
    "";
    "KEY CONCEPTS:";
    join ", " (key_concepts notes_data);
    "";
    "TOPICS COVERED:";
    topics_text;
    "";
    "DETAILED CONTENT:";
    String.substring 0 2000 (detailed_notes notes_data) +:+ "  ";
    "";
    "DIFFICULTY LEVEL: " +:+ upper (tier_name difficulty);
    difficulty_instructions difficulty;
    "";
    "Generate " +:+ str count +:+ " questions following this EXACT JSON format:";
    "[";
    "    {";
    "        " +:+ dq +:+ "question" +:+ dq +:+ ": " +:+ dq +:+ "What is...?" +:+ dq +:+ ",";
    "        " +:+ dq +:+ "options" +:+ dq +:+ ": [" +:+ dq +:+ "Option A" +:+ dq +:+ ", "
      +:+ dq +:+ "Option B" +:+ dq +:+ ", " +:+ dq +:+ "Option C" +:+ dq +:+ ", "
      +:+ dq +:+ "Option D" +:+ dq +:+ "],";
    "        " +:+ dq +:+ "correct_answer" +:+ dq +:+ ": 0,";
    "        " +:+ dq +:+ "explanation" +:+ dq +:+ ": " +:+ dq
      +:+ "The answer is A because..." +:+ dq +:+ ",";
    "        " +:+ dq +:+ "topic" +:+ dq +:+ ": " +:+ dq +:+ "Topic name from the notes" +:+ dq +:+ ",";
    "        " +:+ dq +:+ "difficulty" +:+ dq +:+ ": " +:+ dq +:+ tier_name difficulty +:+ dq;
    "    }";
    "]";
    "";
    "Requirements:";
    "1. Each question must have exactly 4 options";
    "2. correct_answer is the index (0-3) of the correct option";
    "3. Explanation should be clear and educational";
    "4. Topic must match one from the notes";
    "5. Questions should cover different topics";
    "6. Return ONLY valid JSON array, no other text";
    "";
    "IMPORTANT: Return ONLY the JSON array, nothing else."
  ].

Record questions_result := {
  success : bool;
  questions : option (list json);
  total_generated : option Z;
  error : option message
}.

Section Generation.
Variable completion : service.
(** [json.loads]: [None] stands for JSONDecodeError. *)
Variable json_loads : string -> option json.

(** The body of the [try] of [_generate_questions_by_difficulty]. *)
Definition tier_try (prompt : string) (w : world) : result json * world :=
  match call_llm_with_retry completion prompt (7 # 10) 3000 3 w with
  | (Raise e, w') => (Raise e, w')
  | (Ok response, w') =>
      (content ← unfence (content response);
       match json_loads content with
       | None => Raise JSONDecodeError
       | Some questions =>
           Ok (match questions with
               | JDict _ => JList [questions]
               | _ => questions
               end)
       end, w')
  end.

Definition _generate_questions_by_difficulty
    (notes_data : Notes) (difficulty : tier) (count : Z) (w : world) : json * world :=
  let prompt := question_prompt notes_data difficulty count in
  match tier_try prompt w with
  | (Ok questions, w') => (questions, w')
  | (Raise _, w') => (JList [], w')
  end.

Definition default_mix (num_questions : Z) : list (tier * Z) :=
  [ (easy, num_questions / 3);
    (medium, num_questions / 3);
    (hard, num_questions - 2 * (num_questions / 3)) ].

(** The [for difficulty, count in difficulty_mix.items()] loop. *)
Fixpoint tiers (notes_data : Notes) (difficulty_mix : list (tier * Z))
    (all_questions : list json) (w : world) : result (list json) * world :=
  match difficulty_mix with
  | [] => (Ok all_questions, w)
  | (difficulty, count) :: rest =>
      if count >? 0 then
        let '(questions, w') :=
          _generate_questions_by_difficulty notes_data difficulty count w in
        match iter questions with
        | Ok items => tiers notes_data rest (all_questions ++ items) w'
        | Raise e => (Raise e, w')
        end
      else tiers notes_data rest all_questions w
  end.

Definition generate_questions (notes_data : Notes) (num_questions : Z)
    (difficulty_mix : option (list (tier * Z))) (w : world) (t : tape)
  : questions_result * world * tape :=
  let difficulty_mix :=
    match difficulty_mix with
    | None => default_mix num_questions
    | Some mix => mix
    end in
  match tiers notes_data difficulty_mix [] w with
  | (Ok all_questions, w') =>
      let '(all_questions, t') := shuffle all_questions t in
      ({| success := true;
          questions := Some all_questions;
          total_generated := Some (Z.of_nat (length all_questions));
          error := None |}, w', t')
  | (Raise e, w') =>
      ({| success := false;
          questions := None;
          total_generated := None;
          error := Some (Fmt "Error generating questions: " e) |}, w', t)
  end.
End Generation.

(** *** Sampler *)

Record Question := {
  question : string;
  options : list string;
  correct_answer : Z;
  explanation : string;
  topic : string;
  difficulty : tier
}.

(** [x in xs] on strings. *)
Definition mem (x : string) (xs : list string) : bool := existsb (String.eqb x) xs.

Definition select_quiz_questions (all_questions : list Question) (count : Z)
    (topic_filter : option (list string)) (t : tape) : result (list Question) * tape :=
  let available :=
    match topic_filter with
    | Some ((_ :: _) as wanted) =>
        let filtered := List.filter (fun q => mem (topic q) wanted) all_questions in
        match filtered with
        | _ :: _ => filtered
        | [] => all_questions
        end
    | Some [] | None => all_questions
    end in
  sample available (Z.min count (Z.of_nat (length available))) t.

(** *** Grader *)

Record verdict := {
  correct : bool;
  verdict_correct_answer : Z;
  correct_option : string;
  user_option : option string;
  verdict_explanation : string
}.

Definition check_answer (q : Question) (user_answer : Z) : result verdict :=
  let is_correct := user_answer =? correct_answer q in
  correct_opt ← index (options q) (correct_answer q);
  user_opt ←
    (if (0 <=? user_answer) && (user_answer <? Z.of_nat (length (options q)))
     then x ← index (options q) user_answer; Ok (Some x)
     else Ok None);
  Ok {| correct := is_correct;
        verdict_correct_answer := correct_answer q;
        correct_option := correct_opt;
        user_option := user_opt;
        verdict_explanation := explanation q |}.

(** *** Aggregator *)

Record graded_answer := {
  answered : Question;       (* result['question'] *)
  user_answer : Z;
  is_correct : bool
}.

Record counts := {
  n_correct : Z;
  n_total : Z
}.

Inductive status_label : Type := Strong | NeedsReview | Weak.

(** [d[key] = f(d[key])] on a dict that has [key]; the position is kept. *)
Fixpoint update {A} (key : string) (f : A -> A) (d : list (string * A)) : list (string * A) :=
  match d with
  | [] => []
  | (k, v) :: rest =>
      if String.eqb k key then (k, f v) :: rest else (k, v) :: update key f rest
  end.

(** One round of the first loop of [calculate_topic_performance]. *)
Definition tally (topic_stats : list (string * counts)) (r : graded_answer)
  : list (string * counts) :=
  let tp := topic (answered r) in
  let topic_stats :=
    match assoc tp topic_stats with
    | None => topic_stats ++ [(tp, {| n_correct := 0; n_total := 0 |})]
    | Some _ => topic_stats
    end in
  let topic_stats :=
    update tp (fun s => {| n_correct := n_correct s; n_total := n_total s + 1 |}) topic_stats in
  if is_correct r then
    update tp (fun s => {| n_correct := n_correct s + 1; n_total := n_total s |}) topic_stats
  else topic_stats.

(** Python's arithmetic on percentages, as far as the aggregator uses it:
    the numbers (binary64 in Python), an int taken as a number, the true
    division [a / b] of two ints, the product [x * k] with an int, and the
    comparisons [x < y] and [x >= y]. *)
Class Arith : Type := {
  num : Type;
  of_int : Z -> num;
  true_div : Z -> Z -> num;
  times : num -> Z -> num;
  num_lt : num -> num -> bool;
  num_ge : num -> num -> bool
}.

(** What the comparisons obey on numbers that are not NaN: [<] is a strict
    weak order, [>=] is its complement, and 60 is below 80. *)
Class ArithLaws (F : Arith) : Prop := {
  lt_asym : forall a b : num, num_lt a b = true -> num_lt b a = false;
  lt_negtrans : forall a b c : num,
    num_lt a b = false -> num_lt b c = false -> num_lt a c = false;
  ge_not_lt : forall a b : num, num_ge a b = negb (num_lt a b);
  sixty_lt_eighty : num_lt (of_int 60) (of_int 80) = true
}.

(** Exact rational arithmetic. *)
Definition exact : Arith :=
  {| num := Q;
     of_int := inject_Z;
     true_div := fun a b => (inject_Z a / inject_Z b)%Q;
     times := fun x k => (x * inject_Z k)%Q;
     num_lt := fun a b => negb (Qle_bool b a);
     num_ge := fun a b => Qle_bool b a |}.

Section Aggregator.
Context {F : Arith}.

Record topic_stat := {
  stat_correct : Z;
  stat_total : Z;
  percentage : num;
  status : status_label
}.

(** The second loop: percentage and status of one entry. *)
Definition finish (stats : counts) : topic_stat :=
  let pct :=
    if n_total stats >? 0
    then times (true_div (n_correct stats) (n_total stats)) 100
    else of_int 0 in
  {| stat_correct := n_correct stats;
     stat_total := n_total stats;
     percentage := pct;
     status := if num_ge pct (of_int 80) then Strong
               else if num_ge pct (of_int 60) then NeedsReview
               else Weak |}.

Definition calculate_topic_performance (quiz_results : list graded_answer)
  : list (string * topic_stat) :=
  let topic_stats := fold_left tally quiz_results [] in
  map (fun kv => (fst kv, finish (snd kv))) topic_stats.

Record weak_topic := {
  weak_name : string;
  score : string;
  weak_percentage : num;
  weak_status : status_label
}.

(** [list.sort(key=...)] compares keys with [<] only and is stable:
    insertion from the right, each item passing the items whose key is
    smaller than its own. *)
Fixpoint insert_by {A} (key : A -> num) (x : A) (l : list A) : list A :=
  match l with
  | [] => [x]
  | y :: l' => if num_lt (key y) (key x) then y :: insert_by key x l' else x :: l
  end.

Definition sort_by {A} (key : A -> num) (l : list A) : list A :=
  foldr (insert_by key) [] l.

Definition weak_entry (kv : string * topic_stat) : weak_topic :=
  {| weak_name := fst kv;
     score := str (stat_correct (snd kv)) +:+ "/" +:+ str (stat_total (snd kv));
     weak_percentage := percentage (snd kv);
     weak_status := status (snd kv) |}.

(** [stats['percentage'] < threshold] *)
Definition below (threshold : num) (kv : string * topic_stat) : bool :=
  num_lt (percentage (snd kv)) threshold.

Definition get_weak_topics (topic_performance : list (string * topic_stat))
    (threshold : num) : list weak_topic :=
  let weak_topics := map weak_entry (List.filter (below threshold) topic_performance) in
  sort_by weak_percentage weak_topics.
End Aggregator.

End Quiz.

(** ** llm.py: the notes synthesizer *)

Module Llm.
Import Client.

(** The f-string of [generate_notes], line by line. *)
Definition notes_prompt (transcript : string) : string :=
  join nl [
    "You are an expert educational content creator. Analyze this lecture transcript and create comprehensive, structured notes.";
    "";
    "TRANSCRIPT:";
    transcript;
    "";
    "Please provide your response in the following JSON format (ensure valid JSON):";
    "{";
    "    " +:+ dq +:+ "summary" +:+ dq +:+ ": " +:+ dq
      +:+ "A 3-4 sentence overview of the entire lecture" +:+ dq +:+ ",";
    "    " +:+ dq +:+ "key_concepts" +:+ dq +:+ ": [" +:+ dq +:+ "concept 1" +:+ dq +:+ ", "
      +:+ dq +:+ "concept 2" +:+ dq +:+ ", " +:+ dq +:+ "concept 3" +:+ dq +:+ ", ...],";
    "    " +:+ dq +:+ "topics" +:+ dq +:+ ": [";
    "        {";
    "            " +:+ dq +:+ "name" +:+ dq +:+ ": " +:+ dq +:+ "Topic Name" +:+ dq +:+ ",";
    "            " +:+ dq +:+ "description" +:+ dq +:+ ": " +:+ dq
      +:+ "Brief description of this topic" +:+ dq +:+ ",";
    "            " +:+ dq +:+ "keywords" +:+ dq +:+ ": [" +:+ dq +:+ "keyword1" +:+ dq +:+ ", "
      +:+ dq +:+ "keyword2" +:+ dq +:+ "]";
    "        }";
    "    ],";
    "    " +:+ dq +:+ "detailed_notes" +:+ dq +:+ ": " +:+ dq
      +:+ "Comprehensive notes in markdown format with sections, subsections, and bullet points"
      +:+ dq;
    "}";
    "";
    "Requirements:";
    "1. Summary: Capture the main purpose and key takeaways";
    "2. Key Concepts: List 5-10 most important concepts/terms";
    "3. Topics: Identify 5-8 major topics covered (these will be used for quiz categorization)";
    "4. Detailed Notes: Well-organized markdown with:";
    "   - Clear section headers (##)";
    "   - Subsections (###)";
    "   - Bullet points for key information";
    "   - Important formulas, definitions, or code snippets if applicable";
    "";
    "IMPORTANT: Return ONLY valid JSON, no additional text before or after."
  ].

Record token_usage := {
  input : Z;
  output : Z;
  total : Z
}.

(** The dict [generate_notes] returns; an absent key is [None]. *)
Record notes_result := {
  success : bool;
  notes : option json;
  usage : option token_usage;
  error : option message;
  raw_response : option string
}.

Definition required_keys : list string :=
  ["summary"; "key_concepts"; "topics"; "detailed_notes"].

(** The handler [except json.JSONDecodeError as e]; [content] is the
    local variable of that name, if it is bound when [e] is raised. *)
Definition unparsed (e : exn) (content : option string) : notes_result :=
  {| success := false; notes := None; usage := None;
     error := Some (Fmt "Failed to parse LLM response as JSON: " e);
     raw_response := Some (default "No response" content) |}.

(** The handler [except Exception as e]. *)
Definition failed (e : exn) : notes_result :=
  {| success := false; notes := None; usage := None;
     error := Some (Fmt "Error generating notes: " e);
     raw_response := None |}.

(** The two handlers of the [try], in their order. *)
Definition handlers (e : exn) (content : option string) : notes_result :=
  if is_decode_error e then unparsed e content else failed e.

Section Synthesizer.
Variable completion : service.
Variable json_loads : string -> option json.

Definition generate_notes (transcript : string) (w : world) : notes_result * world :=
  if Z.of_nat (String.length transcript) <? 100 then
    ({| success := false; notes := None; usage := None;
        error := Some (Text "Transcript is too short to generate meaningful notes.");
        raw_response := None |}, w)
  else
    let prompt := notes_prompt transcript in
    match call_llm_with_retry completion prompt (3 # 10) 4000 3 w with
    | (Raise e, w') => (handlers e None, w')
    | (Ok response, w') =>
        let content := content response in
        match unfence content with
        | Raise e => (handlers e (Some content), w')
        | Ok content =>
            match json_loads content with
            | None => (handlers JSONDecodeError (Some content), w')
            | Some notes_data =>
                match all_in required_keys notes_data with
                | Raise e => (handlers e (Some content), w')
                | Ok false =>
                    (handlers (ValueError "LLM response missing required fields")
                       (Some content), w')
                | Ok true =>
                    ({| success := true;
                        notes := Some notes_data;
                        usage := Some {| input := prompt_tokens response;
                                         output := completion_tokens response;
                                         total := total_tokens response |};
                        error := None;
                        raw_response := None |}, w')
                end
            end
        end
    end.
End Synthesizer.

End Llm.

(** ** storage.py: the session cache *)

Module Storage.

(** os.path.join on POSIX paths *)
Definition path_join (a b : string) : string :=
  if String.prefix "/" b then b
  else if String.eqb a "" then b
  else if String.eqb (String.substring (String.length a - 1) 1 a) "/" then a +:+ b
  else a +:+ "/" +:+ b.

(** [p[:p.rfind('/') + 1]]: [p] up to its last slash. *)
Fixpoint head (p : string) : string :=
  match p with
  | EmptyString => EmptyString
  | String c p' => if str_in "/" p then String c (head p') else EmptyString
  end.

(** [s.rstrip('/')] *)
Fixpoint rstrip_slash (s : string) : string :=
  match s with
  | EmptyString => EmptyString
  | String c s' =>
      match rstrip_slash s' with
      | EmptyString => if Ascii.eqb c "/" then EmptyString else String c EmptyString
      | r => String c r
      end
  end.

(** os.path.dirname on POSIX paths: the head without its trailing
    slashes, unless it is made of slashes only. *)
Definition dirname (p : string) : string :=
  match rstrip_slash (head p) with
  | EmptyString => head p
  | stripped => stripped
  end.

Record SessionStorage := {
  storage_dir : string
}.

(** The file system: the directories that exist (the root among them,
    where paths are absolute), and the text of each file.  [__init__] has
    made the storage directory ([os.makedirs(storage_dir, exist_ok=True)])
    before any of the methods runs; the methods make no directory. *)
Record filesystem := {
  dirs : gset string;
  files : gmap string string
}.

(** [os.path.exists(path)] *)
Definition path_exists (path : string) (fs : filesystem) : bool :=
  bool_decide (is_Some (files fs !! path)) || bool_decide (path ∈ dirs fs).

(** [open(path, 'w')] followed by the write of [text]: the directory of
    the file must exist (the empty [dirname] is the working directory),
    and the path must not be a directory. *)
Definition write_text (path text : string) (fs : filesystem) : result unit * filesystem :=
  let parent := dirname path in
  if bool_decide (path ∈ dirs fs) then (Raise IsADirectoryError, fs)
  else if String.eqb parent "" || bool_decide (parent ∈ dirs fs) then
    (Ok tt, {| dirs := dirs fs; files := <[path := text]> (files fs) |})
  else if bool_decide (is_Some (files fs !! parent)) then (Raise NotADirectoryError, fs)
  else (Raise FileNotFoundError, fs).

Section Cache.
(** [json.dump(.., f, indent=2, ensure_ascii=False)]: the text written. *)
Variable json_dump : value -> string.
(** [json.load(f)] on a file opened with [encoding='utf-8'], given the
    text of the file: the value, or [JSONDecodeError], or
    [UnicodeDecodeError] for a text that is no UTF-8. *)
Variable json_load : string -> result json.
(** [datetime.now().isoformat()] at the time of the call. *)
Variable now : string.

Definition session_path (self : SessionStorage) (video_id : string) : string :=
  path_join (storage_dir self) (video_id +:+ ".json").

(** The dict [save_session] writes. *)
Definition session_data (video_id : string) (transcript notes questions : value) : value :=
  VDict [ ("video_id", VStr video_id);
          ("timestamp", VStr now);
          ("transcript", transcript);
          ("notes", notes);
          ("questions", questions) ].

Definition save_session (self : SessionStorage) (video_id : string)
    (transcript notes questions : value) (fs : filesystem) : result string * filesystem :=
  let session_data := session_data video_id transcript notes questions in
  let filepath := session_path self video_id in
  match write_text filepath (json_dump session_data) fs with
  | (Ok _, fs') => (Ok filepath, fs')
  | (Raise e, fs') => (Raise e, fs')
  end.

(** [None] is returned as [JNull]. *)
Definition load_session (self : SessionStorage) (video_id : string) (fs : filesystem)
  : result json :=
  let filepath := session_path self video_id in
  if path_exists filepath fs then
    match files fs !! filepath with
    | Some text => json_load text
    | None => Raise IsADirectoryError
    end
  else Ok JNull.

Definition session_exists (self : SessionStorage) (video_id : string) (fs : filesystem)
  : bool :=
  path_exists (session_path self video_id) fs.
End Cache.

End Storage.

(** ** A reference JSON codec

    [loads] and [dumps] follow [json.loads] and
    [json.dumps(.., indent=2, ensure_ascii=False)] on documents without
    floating-point numbers, [dump] and [load] follow [json.dump] and
    [json.load].  The functions of llm.py, quiz.py and storage.py take
    the codec as a parameter; this one runs them on concrete texts. *)

Module Json.

Definition code (c : ascii) : nat := nat_of_ascii c.

Definition is_ws (c : ascii) : bool :=
  let n := code c in
  (n =? 32)%nat || (n =? 9)%nat || (n =? 10)%nat || (n =? 13)%nat.

Fixpoint skip_ws (s : string) : string :=
  match s with
  | EmptyString => EmptyString
  | String c s' => if is_ws c then skip_ws s' else s
  end.

Definition is_digit (c : ascii) : bool :=
  let n := code c in (48 <=? n)%nat && (n <=? 57)%nat.

(** The longest prefix made of a sign and digits, and what follows it. *)
Fixpoint span_number (s : string) : string * string :=
  match s with
  | EmptyString => (EmptyString, EmptyString)
  | String c s' =>
      if is_digit c || (code c =? 45)%nat then
        let '(num, rest) := span_number s' in (String c num, rest)
      else (EmptyString, s)
  end.

(** An integer literal in canonical form ([str] prints it back); a
    fraction or an exponent after it is a float, which is not covered. *)
Definition parse_int (s : string) : option (Z * string) :=
  let '(num, rest) := span_number s in
  match NilEmpty.int_of_string num with
  | Some d =>
      let n := Z.of_int d in
      if String.eqb (str n) num then
        match rest with
        | String c _ =>
            if (code c =? 46)%nat || (code c =? 101)%nat || (code c =? 69)%nat
            then None else Some (n, rest)
        | EmptyString => Some (n, rest)
        end
      else None
  | None => None
  end.

Definition hex_value (c : ascii) : option nat :=
  let n := code c in
  if (48 <=? n)%nat && (n <=? 57)%nat then Some (n - 48)%nat
  else if (97 <=? n)%nat && (n <=? 102)%nat then Some (n - 87)%nat
  else if (65 <=? n)%nat && (n <=? 70)%nat then Some (n - 55)%nat
  else None.

(** The character a one-letter escape stands for. *)
Definition unescape (c : ascii) : option ascii :=
  let n := code c in
  if (n =? 34)%nat then Some (ascii_of_nat 34)
  else if (n =? 92)%nat then Some (ascii_of_nat 92)
  else if (n =? 47)%nat then Some (ascii_of_nat 47)
  else if (n =? 98)%nat then Some (ascii_of_nat 8)
  else if (n =? 102)%nat then Some (ascii_of_nat 12)
  else if (n =? 110)%nat then Some (ascii_of_nat 10)
  else if (n =? 114)%nat then Some (ascii_of_nat 13)
  else if (n =? 116)%nat then Some (ascii_of_nat 9)
  else None.

(** The body of a string literal, after its opening quote; [acc] holds the
    characters read, latest first. *)
Fixpoint parse_string (s : string) (acc : list ascii) : option (string * string) :=
  match s with
  | EmptyString => None
  | String c rest =>
      if (code c =? 34)%nat then Some (string_of_rev acc "", rest)
      else if (code c =? 92)%nat then
        match rest with
        | EmptyString => None
        | String e rest' =>
            match unescape e with
            | Some c' => parse_string rest' (c' :: acc)
            | None =>
                if (code e =? 117)%nat then
                  match rest' with
                  | String h1 (String h2 (String h3 (String h4 rest''))) =>
                      match hex_value h1, hex_value h2, hex_value h3, hex_value h4 with
                      | Some 0%nat, Some 0%nat, Some a, Some b =>
                          if (a <? 8)%nat
                          then parse_string rest'' (ascii_of_nat (16 * a + b) :: acc)
                          else None
                      | _, _, _, _ => None
                      end
                  | _ => None
                  end
                else None
            end
        end
      else if (code c <? 32)%nat then None
      else parse_string rest (c :: acc)
  end.

(** [d[key] = v] on an insertion-ordered dict. *)
Definition dict_set (key : string) (v : json) (d : list (string * json))
  : list (string * json) :=
  match assoc key d with
  | Some _ => Quiz.update key (fun _ => v) d
  | None => d ++ [(key, v)]
  end.

Definition expect (word : string) (v : json) (s : string) : option (json * string) :=
  if String.prefix word s
  then Some (v, String.substring (String.length word)
                                 (String.length s - String.length word) s)
  else None.

Fixpoint parse_value (fuel : nat) (s : string) : option (json * string) :=
  match fuel with
  | O => None
  | S fuel' =>
      match skip_ws s with
      | EmptyString => None
      | String c rest =>
          if (code c =? 123)%nat then
            match skip_ws rest with
            | String c' rest' =>
                if (code c' =? 125)%nat then Some (JDict [], rest')
                else parse_pairs fuel' (skip_ws rest) []
            | EmptyString => None
            end
          else if (code c =? 91)%nat then
            match skip_ws rest with
            | String c' rest' =>
                if (code c' =? 93)%nat then Some (JList [], rest')
                else parse_items fuel' (skip_ws rest) []
            | EmptyString => None
            end
          else if (code c =? 34)%nat then
            match parse_string rest [] with
            | Some (str, rest') => Some (JStr str, rest')
            | None => None
            end
          else if (code c =? 116)%nat then expect "true" (JBool true) (String c rest)
          else if (code c =? 102)%nat then expect "false" (JBool false) (String c rest)
          else if (code c =? 110)%nat then expect "null" JNull (String c rest)
          else
            match parse_int (String c rest) with
            | Some (n, rest') => Some (JInt n, rest')
            | None => None
            end
      end
  end
with parse_items (fuel : nat) (s : string) (acc : list json) : option (json * string) :=
  match fuel with
  | O => None
  | S fuel' =>
      match parse_value fuel' s with
      | None => None
      | Some (v, rest) =>
          match skip_ws rest with
          | String c rest' =>
              if (code c =? 44)%nat then parse_items fuel' rest' (acc ++ [v])
              else if (code c =? 93)%nat then Some (JList (acc ++ [v]), rest')
              else None
          | EmptyString => None
          end
      end
  end
with parse_pairs (fuel : nat) (s : string) (acc : list (string * json))
  : option (json * string) :=
  match fuel with
  | O => None
  | S fuel' =>
      match skip_ws s with
      | String q rest =>
          if (code q =? 34)%nat then
            match parse_string rest [] with
            | None => None
            | Some (key, rest) =>
                match skip_ws rest with
                | String c rest =>
                    if (code c =? 58)%nat then
                      match parse_value fuel' rest with
                      | None => None
                      | Some (v, rest) =>
                          match skip_ws rest with
                          | String c rest' =>
                              if (code c =? 44)%nat
                              then parse_pairs fuel' rest' (dict_set key v acc)
                              else if (code c =? 125)%nat
                              then Some (JDict (dict_set key v acc), rest')
                              else None
                          | EmptyString => None
                          end
                      end
                    else None
                | EmptyString => None
                end
            end
          else None
      | EmptyString => None
      end
  end.

(** [json.loads(s)]; [None] stands for JSONDecodeError. *)
Definition loads (s : string) : option json :=
  match parse_value (S (String.length s)) s with
  | Some (v, rest) =>
      match skip_ws rest with
      | EmptyString => Some v
      | String _ _ => None
      end
  | None => None
  end.

Definition hex_digit (n : nat) : ascii :=
  if (n <? 10)%nat then ascii_of_nat (48 + n) else ascii_of_nat (87 + n).

Definition escape (c : ascii) : string :=
  let n := code c in
  let bs := String (ascii_of_nat 92) "" in
  if (n =? 34)%nat then bs +:+ dq
  else if (n =? 92)%nat then bs +:+ bs
  else if (n =? 10)%nat then bs +:+ "n"
  else if (n =? 13)%nat then bs +:+ "r"
  else if (n =? 9)%nat then bs +:+ "t"
  else if (n =? 8)%nat then bs +:+ "b"
  else if (n =? 12)%nat then bs +:+ "f"
  else if (n <? 32)%nat
  then bs +:+ "u00" +:+ String (hex_digit (n / 16)) (String (hex_digit (n mod 16)) "")
  else String c "".

Fixpoint escape_all (s : string) : string :=
  match s with
  | EmptyString => EmptyString
  | String c s' => escape c +:+ escape_all s'
  end.

Definition quote (s : string) : string := dq +:+ escape_all s +:+ dq.

Fixpoint pad (level : nat) : string :=
  match level with
  | O => ""
  | S l => "  " +:+ pad l
  end.

Fixpoint dumps_at (level : nat) (v : json) : string :=
  match v with
  | JNull => "null"
  | JBool true => "true"
  | JBool false => "false"
  | JInt n => str n
  | JStr s => quote s
  | JList [] => "[]"
  | JList (x :: xs) =>
      "[" +:+ nl +:+ pad (S level) +:+ dumps_at (S level) x +:+
      (fix more (l : list json) : string :=
         match l with
         | [] => ""
         | y :: l' => "," +:+ nl +:+ pad (S level) +:+ dumps_at (S level) y +:+ more l'
         end) xs
      +:+ nl +:+ pad level +:+ "]"
  | JDict [] => "{}"
  | JDict ((k, x) :: kvs) =>
      "{" +:+ nl +:+ pad (S level) +:+ quote k +:+ ": " +:+ dumps_at (S level) x +:+
      (fix more (l : list (string * json)) : string :=
         match l with
         | [] => ""
         | (k', y) :: l' =>
             "," +:+ nl +:+ pad (S level) +:+ quote k' +:+ ": "
             +:+ dumps_at (S level) y +:+ more l'
         end) kvs
      +:+ nl +:+ pad level +:+ "}"
  end.

(** [json.dumps(v, indent=2, ensure_ascii=False)] *)
Definition dumps (v : json) : string := dumps_at 0 v.

(** What the encoder writes of a Python value: a tuple as an array. *)
Fixpoint encode (v : value) : json :=
  match v with
  | VNone => JNull
  | VBool b => JBool b
  | VInt n => JInt n
  | VStr s => JStr s
  | VList xs => JList (map encode xs)
  | VTuple xs => JList (map encode xs)
  | VDict kvs => JDict (map (fun kv => (fst kv, encode (snd kv))) kvs)
  end.

(** [json.dump(v, f, indent=2, ensure_ascii=False)]: the text written to
    [f]. *)
Definition dump (v : value) : string := dumps (encode v).

(** [json.load(f)], given the text of [f]; a text that is no UTF-8 is not
    told apart. *)
Definition load (s : string) : result json :=
  match loads s with
  | Some v => Ok v
  | None => Raise JSONDecodeError
  end.

(** A text written with ['] for the double quote. *)
Fixpoint text (s : string) : string :=
  match s with
  | EmptyString => EmptyString
  | String c s' => String (if (code c =? 39)%nat then ascii_of_nat 34 else c) (text s')
  end.

(** *** Notions used to relate [dumps] and [loads] *)

(** A character of an integer literal. *)
Definition number_char (c : ascii) : bool := is_digit c || (code c =? 45)%nat.

Fixpoint all_number (s : string) : bool :=
  match s with
  | EmptyString => true
  | String c s' => number_char c && all_number s'
  end.

(** What may follow a number: nothing, or a character that is neither part
    of a number nor the start of a fraction or an exponent. *)
Definition ends_number (rest : string) : bool :=
  match rest with
  | EmptyString => true
  | String c _ =>
      negb (number_char c) &&
      negb ((code c =? 46)%nat || (code c =? 101)%nat || (code c =? 69)%nat)
  end.

Definition more_items (level : nat) : list json -> string :=
  fix more (l : list json) : string :=
    match l with
    | [] => ""
    | y :: l' => "," +:+ nl +:+ pad (S level) +:+ dumps_at (S level) y +:+ more l'
    end.

Definition more_pairs (level : nat) : list (string * json) -> string :=
  fix more (l : list (string * json)) : string :=
    match l with
    | [] => ""
    | (k', y) :: l' =>
        "," +:+ nl +:+ pad (S level) +:+ quote k' +:+ ": "
        +:+ dumps_at (S level) y +:+ more l'
    end.

Fixpoint size (v : json) : nat :=
  match v with
  | JList xs =>
      S ((fix sum (l : list json) : nat :=
            match l with
            | [] => 0
            | x :: l' => S (size x + sum l')
            end) xs)
  | JDict kvs =>
      S ((fix sum (l : list (string * json)) : nat :=
            match l with
            | [] => 0
            | (_, x) :: l' => S (size x + sum l')
            end) kvs)
  | _ => 1
  end%nat.

Definition items_size : list json -> nat :=
  fix sum (l : list json) : nat :=
    match l with
    | [] => 0
    | x :: l' => S (size x + sum l')
    end%nat.

Definition pairs_size : list (string * json) -> nat :=
  fix sum (l : list (string * json)) : nat :=
    match l with
    | [] => 0
    | (_, x) :: l' => S (size x + sum l')
    end%nat.

(** No object of the document has a key twice. *)
Fixpoint unique_keys (v : json) : Prop :=
  match v with
  | JList xs =>
      (fix all (l : list json) : Prop :=
         match l with
         | [] => True
         | x :: l' => unique_keys x /\ all l'
         end) xs
  | JDict kvs =>
      NoDup kvs.*1 /\
      (fix all (l : list (string * json)) : Prop :=
         match l with
         | [] => True
         | (_, x) :: l' => unique_keys x /\ all l'
         end) kvs
  | _ => True
  end.

Definition starts_value (s : string) : bool :=
  match s with
  | EmptyString => false
  | String c _ =>
      number_char c || (code c =? 110)%nat || (code c =? 116)%nat || (code c =? 102)%nat
      || (code c =? 34)%nat || (code c =? 91)%nat || (code c =? 123)%nat
  end.

(** [loads] reads back what [dumps] prints of [v], at any nesting level
    and before any text that cannot be taken for a part of a number. *)
Definition parses (v : json) : Prop :=
  forall level rest fuel,
    (size v <= fuel)%nat -> ends_number rest = true ->
    parse_value fuel (dumps_at level v +:+ rest) = Some (v, rest).

End Json.

(** ** transcript.py: video ids and transcripts *)

Module Transcript.

(** [s] without its prefix [p]; [None] when [s] does not start with [p]. *)
Fixpoint after (p s : string) : option string :=
  match p, s with
  | EmptyString, _ => Some s
  | String a p', String b s' => if Ascii.eqb a b then after p' s' else None
  | String _ _, EmptyString => None
  end.

(** The class [[^&\n?#]]. *)
Definition id_char (c : ascii) : bool :=
  negb (Ascii.eqb c "&" || Ascii.eqb c (ascii_of_nat 10)
        || Ascii.eqb c "?" || Ascii.eqb c "#").

(** The longest run of [id_char]s at the start of [s]. *)
Fixpoint run (s : string) : string :=
  match s with
  | EmptyString => EmptyString
  | String c s' => if id_char c then String c (run s') else EmptyString
  end.

(** The group [([^&\n?#]+)] at the start of [s]: greedy, at least one
    character. *)
Definition group (s : string) : option string :=
  match run s with
  | EmptyString => None
  | r => Some r
  end.

(** The alternatives of the first pattern, in order. *)
Definition prefixes : list string :=
  ["youtube.com/watch?v="; "youtu.be/"; "youtube.com/embed/"].

(** [(?:p1|p2|..)([^&\n?#]+)] matched at the start of [s]: the first
    alternative after which the group matches. *)
Fixpoint alternatives (alts : list string) (s : string) : option string :=
  match alts with
  | [] => None
  | p :: rest =>
      match after p s ≫= group with
      | Some g => Some g
      | None => alternatives rest s
      end
  end.

(** [v=([^&\n?#]+)] at the start of [s]. *)
Definition v_group (s : string) : option string := after "v=" s ≫= group.

(** [.*v=([^&\n?#]+)] at the start of [t]: [.*] takes as many characters
    other than a newline as leave a match for the rest. *)
Fixpoint last_v (t : string) : option string :=
  match t with
  | EmptyString => v_group t
  | String c t' =>
      if Ascii.eqb c (ascii_of_nat 10) then v_group t
      else match last_v t' with
           | Some g => Some g
           | None => v_group t
           end
  end.

(** The second pattern matched at the start of [s]. *)
Definition watch_query (s : string) : option string :=
  after "youtube.com/watch?" s ≫= last_v.

(** [re.search]: the match at the leftmost position that has one; the
    value is group 1. *)
Fixpoint search (at_start : string -> option string) (s : string) : option string :=
  match at_start s with
  | Some g => Some g
  | None =>
      match s with
      | EmptyString => None
      | String _ s' => search at_start s'
      end
  end.

Definition patterns : list (string -> option string) :=
  [alternatives prefixes; watch_query].

(** The [for pattern in patterns] loop. *)
Fixpoint first_match (patterns : list (string -> option string)) (youtube_url : string)
  : option string :=
  match patterns with
  | [] => None
  | pattern :: rest =>
      match search pattern youtube_url with
      | Some g => Some g
      | None => first_match rest youtube_url
      end
  end.

Definition extract_video_id (youtube_url : string) : option string :=
  match first_match patterns youtube_url with
  | Some g => Some g
  | None =>
      if (Z.of_nat (String.length youtube_url) =? 11) && negb (str_in "/" youtube_url)
      then Some youtube_url
      else None
  end.

Record metadata := {
  meta_video_id : string;
  url : string;
  thumbnail : string;
  embed_url : string
}.

Definition get_video_metadata (video_id : string) : metadata :=
  {| meta_video_id := video_id;
     url := "https://www.youtube.com/watch?v=" +:+ video_id;
     thumbnail := "https://img.youtube.com/vi/" +:+ video_id +:+ "/maxresdefault.jpg";
     embed_url := "https://www.youtube.com/embed/" +:+ video_id |}.

(** [s.split()]: the maximal runs of characters that are not white
    space. *)
Fixpoint words (s : string) : list string :=
  match s with
  | EmptyString => []
  | String c s' =>
      if is_space c then words s'
      else
        match s' with
        | EmptyString => [String c EmptyString]
        | String c' _ =>
            if is_space c' then String c EmptyString :: words s'
            else
              match words s' with
              | w :: ws => String c w :: ws
              | [] => [String c EmptyString]
              end
        end
  end.

Section Fetch.
(** The numbers of the snippets, their sum and the int 0. *)
Variable seconds : Type.
Variable plus : seconds -> seconds -> seconds.
Variable zero : seconds.

Record snippet := {
  text : string;
  start : seconds;
  duration : seconds
}.

(** What [YouTubeTranscriptApi().fetch(video_id, languages)] does. *)
Inductive fetched : Type :=
| Fetched (snippets : list snippet) (language : string)
| TranscriptsDisabled
| NoTranscriptFound
| VideoUnavailable
| Failed (error_str : string).

Variable fetch : string -> list string -> fetched.

(** The dict [get_transcript] returns; an absent key is [None]. *)
Record transcript_result := {
  success : bool;
  video_id : option string;
  transcript : option string;
  language : option string;
  total_duration : option seconds;
  error : option string
}.

Definition no_transcript (error : string) : transcript_result :=
  {| success := false; video_id := None; transcript := None; language := None;
     total_duration := None; error := Some error |}.

Definition get_transcript (youtube_url language : string) : transcript_result :=
  match extract_video_id youtube_url with
  | None | Some EmptyString =>
      no_transcript "Invalid YouTube URL. Please provide a valid video link."
  | Some video_id =>
      match fetch video_id [language; "en"] with
      | Fetched snippets transcript_language =>
          let transcript_text := join " " (map text snippets) in
          let transcript_text := join " " (words transcript_text) in
          {| success := true;
             video_id := Some video_id;
             transcript := Some transcript_text;
             language := Some transcript_language;
             total_duration :=
               Some (match last snippets with
                     | Some final => plus (start final) (duration final)
                     | None => zero
                     end);
             error := None |}
      | TranscriptsDisabled => no_transcript "Transcripts are disabled for this video."
      | NoTranscriptFound =>
          no_transcript "No transcript found for this video. The video may not have captions."
      | VideoUnavailable =>
          no_transcript "Video is unavailable. It may be private or deleted."
      | Failed error_str => no_transcript ("An error occurred: " +:+ error_str)
      end
  end.
End Fetch.

End Transcript.

(** ** pdf_generator.py: the escaping of text handed to reportlab *)

Module Pdf.

(** [s.replace(old, new)] for a one-character [old]. *)
Fixpoint replace (old : ascii) (new s : string) : string :=
  match s with
  | EmptyString => EmptyString
  | String c s' =>
      if Ascii.eqb c old then new +:+ replace old new s'
      else String c (replace old new s')
  end.

Definition escape_xml (text : string) : string :=
  if String.eqb text "" then ""
  else
    let text := replace "&" "&amp;" text in
    let text := replace "<" "&lt;" text in
    let text := replace ">" "&gt;" text in
    let text := replace (ascii_of_nat 34) "&quot;" text in
    let text := replace "'" "&apos;" text in
    text.

End Pdf.

(** ** app.py: the pages of a quiz session

    [st.session_state] is a record of the keys the quiz pages use; the
    value a widget returns in one run of the script is an argument of the
    page function. *)

Module App.
Import Random Quiz.

Inductive page_name : Type := input | notes | mode_selection | quiz | results.

(** An entry of [st.session_state.answers]. *)
Record answer := {
  answer_question : Question;
  answer_user_answer : Z;
  answer_is_correct : bool;
  answer_result : verdict
}.

(** The keys of an entry [calculate_topic_performance] reads. *)
Definition as_graded (a : answer) : graded_answer :=
  {| answered := answer_question a;
     user_answer := answer_user_answer a;
     is_correct := answer_is_correct a |}.

Record quiz_data_dict := {
  all_questions : list Question;
  current_questions : list Question
}.

Record session_state := {
  page : page_name;
  quiz_data : option quiz_data_dict;     (* [None] is the empty dict *)
  current_question : Z;
  score : Z;
  answers : list answer;
  show_feedback : bool
}.

(** What [init_session_state] sets on a fresh session. *)
Definition init_session_state : session_state :=
  {| page := input; quiz_data := None; current_question := 0; score := 0;
     answers := []; show_feedback := false |}.

Definition start_quiz (num_questions : Z) (st : session_state) (t : tape)
  : result session_state * tape :=
  match quiz_data st with
  | None => (Raise (KeyError "all_questions"), t)
  | Some data =>
      match select_quiz_questions (all_questions data) num_questions None t with
      | (Raise e, t') => (Raise e, t')
      | (Ok selected, t') =>
          (Ok {| page := quiz;
                 quiz_data := Some {| all_questions := all_questions data;
                                      current_questions := selected |};
                 current_question := 0;
                 score := 0;
                 answers := [];
                 show_feedback := false |}, t')
      end
  end.

(** One run of [show_quiz_page]: [button] is the value of the one button
    the page shows (Next Question, See Results or Submit Answer) and
    [radio] the value of the radio widget. *)
Definition show_quiz_page (st : session_state) (button : bool) (radio : Z)
  : result session_state :=
  match quiz_data st with
  | None => Raise (KeyError "current_questions")
  | Some data =>
      let questions := current_questions data in
      let current_idx := current_question st in
      current_q ← index questions current_idx;
      if show_feedback st then
        last_answer ← index (answers st) (-1);
        if current_idx <? Z.of_nat (length questions) - 1 then
          if button then
            Ok {| page := page st; quiz_data := quiz_data st;
                  current_question := current_question st + 1;
                  score := score st; answers := answers st;
                  show_feedback := false |}
          else Ok st
        else
          if button then
            Ok {| page := results; quiz_data := quiz_data st;
                  current_question := current_question st;
                  score := score st; answers := answers st;
                  show_feedback := show_feedback st |}
          else Ok st
      else
        if button then
          result ← check_answer current_q radio;
          Ok {| page := page st; quiz_data := quiz_data st;
                current_question := current_question st;
                score := if correct result then score st + 1 else score st;
                answers := answers st ++ [ {| answer_question := current_q;
                                              answer_user_answer := radio;
                                              answer_is_correct := correct result;
                                              answer_result := result |} ];
                show_feedback := true |}
        else Ok st
  end.

Section Results.
Context {F : Arith}.

(** What [show_results_page] computes and displays. *)
Record results_view := {
  correct_answers : Z;
  total_questions : Z;
  overall_percentage : num;
  total_points : Z;
  topic_performance : list (string * topic_stat);
  weak_topics : list weak_topic
}.

Definition results_of (st : session_state) : results_view :=
  let answers := answers st in
  let total_questions := Z.of_nat (length answers) in
  let correct_answers := Z.of_nat (length (List.filter answer_is_correct answers)) in
  let percentage :=
    if total_questions >? 0 then times (true_div correct_answers total_questions) 100
    else of_int 0 in
  let topic_performance := calculate_topic_performance (map as_graded answers) in
  {| correct_answers := correct_answers;
     total_questions := total_questions;
     overall_percentage := percentage;
     total_points := score st;
     topic_performance := topic_performance;
     weak_topics := get_weak_topics topic_performance (of_int 60) |}.

(** The buttons of the results page. *)
Inductive results_button : Type := PlayAgain | ReviewNotes | NewVideo.

(** One run of [show_results_page]; after New Video the session is
    empty and [init_session_state] fills it at the next run. *)
Definition show_results_page (st : session_state) (pressed : option results_button)
  : results_view * session_state :=
  (results_of st,
   match pressed with
   | Some PlayAgain =>
       {| page := mode_selection; quiz_data := quiz_data st; current_question := 0;
          score := 0; answers := []; show_feedback := false |}
   | Some ReviewNotes =>
       {| page := notes; quiz_data := quiz_data st;
          current_question := current_question st; score := score st;
          answers := answers st; show_feedback := show_feedback st |}
   | Some NewVideo => init_session_state
   | None => st
   end).
End Results.

End App.

(** * Statements of the specification and sample data *)

Import Client Random Quiz.

(** The behaviour the specification words for a failure of the third
    kind: made at call [k] for the first time and met again at call [k+1],
    it ends the whole call there, after [k+2] calls of the service. *)
Definition retried_exactly_once (script : nat -> outcome) (max_retries : Z) : Prop :=
  forall k e1 e2 res w,
    call_llm_with_retry (fun _ n => script n) "" (0 # 1) 0 max_retries w0 = (res, w) ->
    (forall i e, (i < k)%nat -> script i = Raises e -> is_other e = false) ->
    script k = Raises e1 -> is_other e1 = true ->
    script (S k) = Raises e2 -> is_other e2 = true ->
    (k < calls w)%nat ->
    res = Raise (ServiceError e2) /\ calls w = S (S k).

(** The invariant of a question: four options and an index into them. *)
Definition Question_invariant (q : Question) : Prop :=
  length (options q) = 4%nat /\
  0 <= correct_answer q < Z.of_nat (length (options q)).

Definition sample_question : Question :=
  {| question := "What is supervised learning?";
     options := ["Learning from labeled data"; "Clustering"; "A database"; "A compiler"];
     correct_answer := 0;
     explanation := "Supervised learning trains on labeled data.";
     topic := "Supervised Learning";
     difficulty := easy |}.

(** The sampling universe as the specification words it: the questions
    whose topic is in the filter when the filter is not empty and at least
    one question of the pool matches it, the whole pool otherwise. *)
Definition sampling_universe (pool : list Question) (topic_filter : option (list string))
  : list Question :=
  match topic_filter with
  | None => pool
  | Some wanted =>
      if negb (bool_decide (wanted = [])) && existsb (fun q => mem (topic q) wanted) pool
      then List.filter (fun q => mem (topic q) wanted) pool
      else pool
  end.

Definition sample_pool : list Question :=
  [ sample_question;
    {| question := "What is clustering?";
       options := ["Grouping unlabeled data"; "Sorting"; "Hashing"; "Parsing"];
       correct_answer := 0;
       explanation := "Clustering groups similar points.";
       topic := "Unsupervised Learning";
       difficulty := medium |} ].

(** The graded answers given on one topic, and the two counts the
    aggregator keeps per topic. *)
Definition answers_on (tp : string) (answers : list graded_answer) : list graded_answer :=
  List.filter (fun r => String.eqb (topic (answered r)) tp) answers.

Definition total_on (tp : string) (answers : list graded_answer) : Z :=
  Z.of_nat (length (answers_on tp answers)).

Definition correct_on (tp : string) (answers : list graded_answer) : Z :=
  Z.of_nat (length (List.filter is_correct (answers_on tp answers))).

(** The counts of a topic before its first answer, and the effect of one
    more answer on them. *)
Definition zero_counts : counts := {| n_correct := 0; n_total := 0 |}.

Definition add_answer (ok : bool) (c : counts) : counts :=
  {| n_correct := n_correct c + (if ok then 1 else 0); n_total := n_total c + 1 |}.

(** Ascending by percentage: the later entry is not below the earlier. *)
Definition by_percentage {F : Arith} (a b : weak_topic) : Prop :=
  num_lt (weak_percentage b) (weak_percentage a) = false.

(** Two numbers neither of which is below the other. *)
Definition same {F : Arith} (a b : num) : bool :=
  negb (num_lt a b) && negb (num_lt b a).

(** The entries whose percentage is [p], in order. *)
Definition with_percentage {F : Arith} (p : num) (l : list weak_topic) : list weak_topic :=
  List.filter (fun w => same (weak_percentage w) p) l.

Definition graded (tp : string) (ok : bool) : graded_answer :=
  {| answered := {| question := "q"; options := ["a"; "b"; "c"; "d"]; correct_answer := 0;
                    explanation := "e"; topic := tp; difficulty := easy |};
     user_answer := if ok then 0 else 1;
     is_correct := ok |}.

(** [good] right and [bad] wrong answers on one topic. *)
Definition answers_for (tp : string) (good bad : nat) : list graded_answer :=
  repeat (graded tp true) good ++ repeat (graded tp false) bad.

(** Four topics below 60%: X and Z at 50%, Y at 25%, W at 0%. *)
Definition tied_answers : list graded_answer :=
  answers_for "X" 1 1 ++ answers_for "Y" 1 3 ++ answers_for "Z" 2 2 ++ answers_for "W" 0 1.

Definition sample_answers : list graded_answer :=
  [ graded "A" true; graded "B" false; graded "C" true; graded "B" true;
    graded "C" false; graded "C" true; graded "B" false ].

(** The invariant of a question, read on a decoded value: an object with
    a list of exactly four [options] and an integer [correct_answer] that
    indexes it. *)
Definition satisfies_invariant (v : json) : bool :=
  match v with
  | JDict kvs =>
      match assoc "options" kvs, assoc "correct_answer" kvs with
      | Some (JList opts), Some (JInt ca) =>
          (length opts =? 4)%nat && (0 <=? ca) && (ca <? Z.of_nat (length opts))
      | _, _ => false
      end
  | _ => false
  end.

(** The questions a decoded response stands for when the pool is extended
    by it: the items of a list, the one object, the characters of a
    string.  A number, a boolean or [null] stands for none: extending by
    it raises. *)
Definition as_questions (v : json) : option (list json) :=
  match v with
  | JList xs => Some xs
  | JDict _ => Some [v]
  | JStr s => Some (chars s)
  | JNull | JBool _ | JInt _ => None
  end.

(** What the generation call of one tier, made with [prompt] in the world
    [w], gives the pool: all the questions of the response when its text
    decodes, nothing when the call raises or the text does not decode.
    No question is looked at. *)
Inductive contributes (completion : service) (json_loads : string -> option json)
    (prompt : string) (w : world) : list json -> world -> Prop :=
| contributes_questions response w' txt v items :
    call_llm_with_retry completion prompt (7 # 10) 3000 3 w = (Ok response, w') ->
    unfence (content response) = Ok txt ->
    json_loads txt = Some v ->
    as_questions v = Some items ->
    contributes completion json_loads prompt w items w'
| contributes_no_response e w' :
    call_llm_with_retry completion prompt (7 # 10) 3000 3 w = (Raise e, w') ->
    contributes completion json_loads prompt w [] w'
| contributes_no_text response w' :
    call_llm_with_retry completion prompt (7 # 10) 3000 3 w = (Ok response, w') ->
    (forall txt, unfence (content response) = Ok txt -> json_loads txt = None) ->
    contributes completion json_loads prompt w [] w'.

(** What the tiers of a mix hand on, one after the other from the world
    [w] on: a tier that is asked for no question is passed over, every
    other tier contributes what its call gives. *)
Inductive handed_on (completion : service) (json_loads : string -> option json)
    (notes_data : Notes) : list (tier * Z) -> world -> list json -> world -> Prop :=
| handed_on_nil w :
    handed_on completion json_loads notes_data [] w [] w
| handed_on_skip d count mix w collected w' :
    count <= 0 ->
    handed_on completion json_loads notes_data mix w collected w' ->
    handed_on completion json_loads notes_data ((d, count) :: mix) w collected w'
| handed_on_tier d count mix w items w1 collected w' :
    0 < count ->
    contributes completion json_loads (question_prompt notes_data d count) w items w1 ->
    handed_on completion json_loads notes_data mix w1 collected w' ->
    handed_on completion json_loads notes_data ((d, count) :: mix) w (items ++ collected) w'.

(** C1 as the specification states it: whatever the service answers,
    every question of the returned pool satisfies the invariant. *)
Definition pool_is_validated (completion : service) (json_loads : string -> option json)
  : Prop :=
  forall notes_data num_questions difficulty_mix w t pool,
    questions (generate_questions completion json_loads notes_data num_questions
                 difficulty_mix w t).1.1 = Some pool ->
    forall q, q ∈ pool -> satisfies_invariant q = true.

(** The notes of the test block of quiz.py. *)
Definition sample_notes : Notes :=
  {| summary := "This lecture covers machine learning basics including supervised and unsupervised learning.";
     key_concepts := ["Supervised Learning"; "Unsupervised Learning"; "Neural Networks";
                      "Classification"; "Clustering"];
     topics := [ {| name := "Supervised Learning";
                    description := "Learning from labeled data"; keywords := [] |};
                 {| name := "Unsupervised Learning";
                    description := "Learning from unlabeled data"; keywords := [] |};
                 {| name := "Neural Networks";
                    description := "Brain-inspired computing models"; keywords := [] |} ];
     detailed_notes := "Supervised learning uses labeled data to train models. Common algorithms include regression and classification." |}.

(** A service that answers every request with the same text. *)
Definition always (text : string) : service :=
  fun _ _ => Returns {| content := text; prompt_tokens := 10;
                        completion_tokens := 20; total_tokens := 30 |}.

(** A question with three options and the answer index 7. *)
Definition three_options : string :=
  Json.text "[{'question': 'Q?', 'options': ['a', 'b', 'c'], 'correct_answer': 7, 'explanation': 'e', 'topic': 'T', 'difficulty': 'easy'}]".

(** What [three_options] decodes to. *)
Definition invalid_question : json :=
  JDict [ ("question", JStr "Q?");
          ("options", JList [JStr "a"; JStr "b"; JStr "c"]);
          ("correct_answer", JInt 7);
          ("explanation", JStr "e");
          ("topic", JStr "T");
          ("difficulty", JStr "easy") ].

(** A call of the service that is of no use to a tier: it raises, or the
    text it returns does not decode. *)
Definition useless (json_loads : string -> option json) (o : outcome) : Prop :=
  match o with
  | Raises _ | RaisesDecodeError _ => True
  | Returns r => forall txt, unfence (content r) = Ok txt -> json_loads txt = None
  end.

(** C2 as the specification states it: on a transcript of at least 100
    characters the result is a success whose notes hold the four required
    fields, or a failure that carries the raw response text. *)
Definition notes_or_raw_text (completion : service) (json_loads : string -> option json)
  : Prop :=
  forall transcript w,
    100 <= Z.of_nat (String.length transcript) ->
    let r := (Llm.generate_notes completion json_loads transcript w).1 in
    (Llm.success r = true
     /\ exists notes_data, Llm.notes r = Some notes_data
                           /\ all_in Llm.required_keys notes_data = Ok true)
    \/ (Llm.success r = false /\ is_Some (Llm.raw_response r)).

(** A transcript of 118 characters. *)
Definition sample_transcript : string :=
  "Welcome to this lecture on Machine Learning. Today we will cover three main topics, starting with supervised learning.".

(** A service whose models are all gone. *)
Definition unavailable : service := fun _ _ => Raises "404 model not found".

(** [data[key]] on a loaded record. *)
Definition field (key : string) (data : json) : option json :=
  match data with
  | JDict kvs => assoc key kvs
  | _ => None
  end.

Definition data_dir : Storage.SessionStorage := {| Storage.storage_dir := "data" |}.

(** The file system after [SessionStorage()] in an empty working
    directory: the directory [data], and no file. *)
Definition fresh : Storage.filesystem :=
  {| Storage.dirs := {["data"]}; Storage.files := ∅ |}.

(** C9 as the specification states it, at one video id and one session:
    after [save_session], [load_session] returns a record whose
    [transcript], [notes] and [questions] equal the ones saved. *)
Definition cache_round_trips (json_dump : value -> string) (json_load : string -> result json)
    (now : string) (self : Storage.SessionStorage) (fs : Storage.filesystem)
    (video_id : string) (T N Q : value) : Prop :=
  let fs' := (Storage.save_session json_dump now self video_id T N Q fs).2 in
  exists data transcript notes questions,
    Storage.load_session json_load self video_id fs' = Ok data
    /\ field "transcript" data = Some transcript /\ value_of transcript = T
    /\ field "notes" data = Some notes /\ value_of notes = N
    /\ field "questions" data = Some questions /\ value_of questions = Q.

(** The cache file of [video_id] can be created: its directory exists
    (the working directory always does), and the path is not taken by a
    directory. *)
Definition cache_file_writable (self : Storage.SessionStorage) (video_id : string)
    (fs : Storage.filesystem) : Prop :=
  let path := Storage.session_path self video_id in
  (path ∉ Storage.dirs fs)
  /\ (Storage.dirname path = "" \/ Storage.dirname path ∈ Storage.dirs fs).

Definition cached_notes : json :=
  JDict [ ("summary", JStr "Machine learning basics.");
          ("key_concepts", JList [JStr "Supervised Learning"; JStr "Clustering"]);
          ("topics", JList [JDict [("name", JStr "Supervised Learning");
                                   ("description", JStr "Learning from labeled data");
                                   ("keywords", JList [JStr "labels"])]]);
          ("detailed_notes", JStr ("## Overview" +:+ nl +:+ "- labeled data")) ].

Definition cached_questions : json :=
  JList [ JDict [ ("question", JStr "What is supervised learning?");
                  ("options", JList [JStr "a"; JStr "b"; JStr "c"; JStr "d"]);
                  ("correct_answer", JInt 0);
                  ("explanation", JStr "Because.");
                  ("topic", JStr "Supervised Learning");
                  ("difficulty", JStr "easy") ] ].

(** ** Notions of the further properties *)

(** The waits of one model under transient errors: [2^attempt * 2]
    seconds after each attempt but the last. *)
Definition backoff (max_retries : Z) : list Z :=
  map (fun attempt => 2 ^ attempt * 2) (range (max_retries - 1)).

(** A wait the retry loop can take: 2 seconds at least, and no more than
    the last step of the backoff schedule. *)
Definition bounded_wait (max_retries : Z) (secs : Z) : Prop :=
  2 <= secs <= Z.max 2 (2 ^ (max_retries - 1)).

(** The call raised an exception, of whatever class, whose [str(e)] is
    [error_str]. *)
Definition raises (o : outcome) (error_str : string) : Prop :=
  o = Raises error_str \/ o = RaisesDecodeError error_str.

Definition all_models_failed : exn :=
  Exception "All models failed. Please check your API keys or try again later.".

(** [s.partition(sep)] when [sep] occurs in [s]: the text before and the
    text after its first occurrence. *)
Fixpoint partition (sep s : string) : option (string * string) :=
  match Transcript.after sep s with
  | Some rest => Some ("", rest)
  | None =>
      match s with
      | EmptyString => None
      | String c s' =>
          match partition sep s' with
          | Some (a, b) => Some (String c a, b)
          | None => None
          end
      end
  end.

(** [s.partition(sep)[0]]: the text before the first [sep], all of [s]
    when there is none. *)
Definition before (sep s : string) : string :=
  match partition sep s with
  | Some (a, _) => a
  | None => s
  end.

(** A text without a backquote. *)
Definition no_backquote (s : string) : Prop := str_in "`" s = false.

(** The sum of a quantity over the entries of a dict. *)
Definition sum_over {A} (f : A -> Z) (d : list (string * A)) : Z :=
  foldr (fun kv acc => f (snd kv) + acc) 0 d.

(** An index Python accepts on a list of [n] items. *)
Definition valid_index (i : Z) (n : nat) : Prop := - Z.of_nat n <= i < Z.of_nat n.

(** A decoded value that is no container: [null], a boolean or a number. *)
Definition scalar (v : json) : bool :=
  match v with
  | JNull | JBool _ | JInt _ => true
  | JStr _ | JList _ | JDict _ => false
  end.

(** The mix [generate_questions] works with. *)
Definition effective_mix (num_questions : Z) (difficulty_mix : option (list (tier * Z)))
  : list (tier * Z) :=
  match difficulty_mix with
  | Some mix => mix
  | None => default_mix num_questions
  end.

(** The tiers of a mix that are asked for at least one question. *)
Definition requested (mix : list (tier * Z)) : list (tier * Z) :=
  List.filter (fun dc => snd dc >? 0) mix.

(** What Python's [key in v] finds on a decoded value: a key of an
    object, an item of a list, a piece of a string. *)
Definition has_key (v : json) (key : string) : Prop :=
  match v with
  | JDict kvs => key ∈ kvs.*1
  | JList xs => JStr key ∈ xs
  | JStr s => str_in key s = true
  | JNull | JBool _ | JInt _ => False
  end.

(** A video id that names a file of the storage directory itself: it
    holds no slash. *)
Definition file_name (video_id : string) : Prop := str_in "/" video_id = false.

(** Every character of [s] passes the test [p]. *)
Fixpoint all_chars (p : ascii -> bool) (s : string) : bool :=
  match s with
  | EmptyString => true
  | String c s' => p c && all_chars p s'
  end.

(** A text the group of the patterns takes whole: not empty, and without
    [&], newline, [?] and [#]. *)
Definition plain_id (s : string) : Prop :=
  s <> "" /\ all_chars Transcript.id_char s = true.

Definition not_space (c : ascii) : bool := negb (is_space c).

(** A word: not empty and without white space. *)
Definition word (w : string) : Prop := w <> "" /\ all_chars not_space w = true.

(** Text that starts with a character that is no white space. *)
Definition starts_word (s : string) : Prop :=
  match s with
  | EmptyString => False
  | String c _ => not_space c = true
  end.

(** A text in which white space is single blanks between words. *)
Definition normalized (s : string) : Prop :=
  strip s = s
  /\ str_in "  " s = false
  /\ all_chars (fun c => not_space c || Ascii.eqb c " ") s = true.

(** The text that stands for one character in escaped text. *)
Definition entity (c : ascii) : string :=
  if Ascii.eqb c "&" then "&amp;"
  else if Ascii.eqb c "<" then "&lt;"
  else if Ascii.eqb c ">" then "&gt;"
  else if Ascii.eqb c (ascii_of_nat 34) then "&quot;"
  else if Ascii.eqb c "'" then "&apos;"
  else String c EmptyString.

(** The texts of the characters of [s], one after the other. *)
Fixpoint each_char (f : ascii -> string) (s : string) : string :=
  match s with
  | EmptyString => EmptyString
  | String c s' => f c +:+ each_char f s'
  end.

(** The characters reportlab reads as markup or as a quote. *)
Definition markup (c : ascii) : bool :=
  Ascii.eqb c "<" || Ascii.eqb c ">" || Ascii.eqb c (ascii_of_nat 34) || Ascii.eqb c "'".

Definition no_markup (c : ascii) : bool := negb (markup c).

(** The runs of the script while the quiz page is shown, each with the
    values of the button and of the radio widget in that run. *)
Fixpoint quiz_runs (st : App.session_state) (inputs : list (bool * Z))
  : result App.session_state :=
  match inputs with
  | [] => Ok st
  | (button, radio) :: rest =>
      match App.page st with
      | App.quiz => st' ← App.show_quiz_page st button radio; quiz_runs st' rest
      | _ => Ok st
      end
  end.

(** A question the grader can grade: its [correct_answer] is an index
    Python accepts on its options. *)
Definition gradable (q : Question) : Prop :=
  valid_index (correct_answer q) (length (options q)).

(** An entry of the answers as the quiz page writes it: the verdict of
    [check_answer] on the question and the answer given, and its
    [correct] flag. *)
Definition recorded (a : App.answer) : Prop :=
  check_answer (App.answer_question a) (App.answer_user_answer a) = Ok (App.answer_result a)
  /\ App.answer_is_correct a = correct (App.answer_result a).

(** What holds of the session while the quiz on the selection
    [questions] from [pool] is played and when its results are shown. *)
Definition quiz_invariant (pool questions : list Question) (st : App.session_state)
  : Prop :=
  App.quiz_data st = Some {| App.all_questions := pool;
                             App.current_questions := questions |}
  /\ 0 <= App.current_question st < Z.of_nat (length questions)
  /\ Z.of_nat (length (App.answers st))
     = App.current_question st + (if App.show_feedback st then 1 else 0)
  /\ map App.answer_question (App.answers st) = take (length (App.answers st)) questions
  /\ App.score st
     = Z.of_nat (length (List.filter App.answer_is_correct (App.answers st)))
  /\ Forall recorded (App.answers st)
  /\ (App.page st = App.quiz
      \/ (App.page st = App.results /\ length (App.answers st) = length questions)).

(** * Properties *)

(** ** The helpers on concrete inputs *)

Example split_fences :
  split "```" "ab```json [1] ``` tail" = ["ab"; "json [1] "; " tail"].
Proof. reflexivity. Qed.

Example unfence_json_block :
  unfence ("Here you go: ```json" +:+ nl +:+ "[1, 2]" +:+ nl +:+ "``` Bye.") = Ok "[1, 2]".
Proof. reflexivity. Qed.

Example unfence_plain_block :
  unfence ("```" +:+ nl +:+ "{}" +:+ nl +:+ "```") = Ok "{}".
Proof. reflexivity. Qed.

Example unfence_no_block : unfence "  [1, 2] " = Ok "  [1, 2] ".
Proof. reflexivity. Qed.

Example shuffle_run :
  shuffle [1; 2; 3; 4; 5] [0; 1; 2; 3]%nat = ([5; 4; 3; 2; 1], []).
Proof. reflexivity. Qed.

Example sample_run :
  sample [1; 2; 3; 4; 5] 3 [0; 0; 0]%nat = (Ok [1; 5; 4], []).
Proof. reflexivity. Qed.

Example sample_too_many :
  sample [1; 2] 3 [] = (Raise (ValueError "Sample larger than population or is negative"), []).
Proof. reflexivity. Qed.

Example negative_index : index ["a"; "b"; "c"] (-1) = Ok "c".
Proof. reflexivity. Qed.

Example loads_object :
  Json.loads (Json.text "{'a': 1, 'b': [true, null, -12, {}], 'a': []}")
  = Some (JDict [("a", JList []); ("b", JList [JBool true; JNull; JInt (-12); JDict []])]).
Proof. vm_compute. reflexivity. Qed.

Example path_join_run :
  Storage.path_join "data" "a/b.json" = "data/a/b.json"
  /\ Storage.path_join "data/" "x.json" = "data/x.json"
  /\ Storage.path_join "data" "/x.json" = "/x.json"
  /\ Storage.path_join "" "x.json" = "x.json".
Proof. repeat split. Qed.

Example dirname_run :
  Storage.dirname "data/a/b.json" = "data/a"
  /\ Storage.dirname "data//x.json" = "data"
  /\ Storage.dirname "x.json" = ""
  /\ Storage.dirname "/x.json" = "/".
Proof. repeat split. Qed.

(** A float is outside the reference codec ([json.loads] accepts it). *)
Example loads_float : Json.loads "1.5" = None.
Proof. vm_compute. reflexivity. Qed.

(** ** Generation client *)

Section RetryLoop.
Variable completion : service.
Variables (msgs : string) (temp : Q) (max_toks : Z).
Variable max_retries : Z.

Abbreviation attempts := (attempts completion msgs temp max_toks max_retries).
Abbreviation request_of mdl :=
  {| model := mdl; messages := msgs; temperature := temp; max_tokens := max_toks |}.

Lemma is_other_branches error_str :
    is_other error_str = true ->
    is_transient error_str = false /\ is_unavailable error_str = false.
Proof.
    unfold is_other. intros H. apply andb_prop in H as [H1 H2].
    split; apply negb_true_iff; assumption.
Qed.

(** One round of the loop on a failure of the third kind. *)
Lemma attempts_other_step mdl attempt rest w error_str :
    completion (request_of mdl) (calls w) = Raises error_str ->
    is_other error_str = true ->
    attempts mdl (attempt :: rest) w =
      if attempt =? max_retries - 1
      then (Reraised (ServiceError error_str), tick w)
      else attempts mdl rest (sleep 2 (tick w)).
Proof.
    intros Hcall Hother. apply is_other_branches in Hother as [Ht Hu].
    cbn [Client.attempts].
    rewrite Hcall, Ht, Hu. reflexivity.
Qed.

(** When every call fails with an error of the third kind, the attempts
      numbered [a], [a+1], .. [a+m] of one model make [m+1] calls, sleep 2
      seconds between them and re-raise the last error. *)
Lemma attempts_all_other mdl :
    (forall req n, exists e, completion req n = Raises e /\ is_other e = true) ->
    forall m a w,
      Z.of_nat (a + m) = max_retries - 1 ->
      exists e,
        completion (request_of mdl) (calls w + m)%nat = Raises e /\
        attempts mdl (map Z.of_nat (seq a (S m))) w =
          (Reraised (ServiceError e),
           {| calls := calls w + S m; slept := slept w ++ repeat 2 m |}).
Proof.
    intros Hall. induction m as [|m IH]; intros a w Hlast.
    - destruct (Hall (request_of mdl) (calls w)) as (e & Hcall & Hother).
      exists e. rewrite Nat.add_0_r. split; [assumption|].
      cbn [seq map]. rewrite (attempts_other_step _ _ _ _ _ Hcall Hother).
      replace (Z.of_nat a =? max_retries - 1) with true by (symmetry; apply Z.eqb_eq; lia).
      unfold tick. destruct w as [c s]; cbn. rewrite app_nil_r.
      do 2 f_equal. lia.
    - destruct (Hall (request_of mdl) (calls w)) as (e0 & Hcall & Hother).
      destruct (IH (S a) (sleep 2 (tick w))) as (e & He & Hrun); [lia|].
      exists e. split.
      + cbn in He. rewrite <- He. f_equal. lia.
      + change (seq a (S (S m))) with (a :: seq (S a) (S m)). cbn [map].
        rewrite (attempts_other_step _ _ _ _ _ Hcall Hother).
        replace (Z.of_nat a =? max_retries - 1) with false by (symmetry; apply Z.eqb_neq; lia).
        rewrite Hrun. destruct w as [c s]; cbn. f_equal. f_equal.
        * lia.
        * rewrite <- app_assoc. reflexivity.
Qed.
End RetryLoop.

(** C3.  The code at a failing input: with the default budget of three
    attempts and a service that fails every call with an error that is
    neither transient nor "not found", [call_llm_with_retry] calls the
    service three times and sleeps 2 seconds twice before it lets the
    error through.  The branch is commented "For other errors, raise
    immediately" in llm.py; the specification has one retry and then the
    error at once, which would be two calls and one sleep. *)
Theorem other_error_is_retried_to_the_last_attempt :
  call_llm_with_retry (fun _ _ => Raises "boom") "" (0 # 1) 0 3 w0
    = (Raise (ServiceError "boom"), {| calls := 3; slept := [2; 2] |})
  /\ is_other "boom" = true
  /\ ~ retried_exactly_once (fun _ => Raises "boom") 3.
Proof.
  split; [reflexivity|]. split; [reflexivity|].
  intros H.
  destruct (H 0%nat "boom" "boom" _ _ eq_refl) as [_ Hcalls];
    try reflexivity; try (cbn; lia).
  discriminate Hcalls.
Qed.

(** Two busy answers, then an unclassified error at the last attempt: it
    is re-raised at once, after the backoff sleeps of 2 and 4 seconds. *)
Example other_error_at_last_attempt :
  call_llm_with_retry
    (fun _ n => match n with
                | 0%nat | 1%nat => Raises "503 Service Unavailable"
                | _ => Raises "boom"
                end) "p" (3 # 10) 4000 3 w0
  = (Raise (ServiceError "boom"), {| calls := 3; slept := [2; 4] |}).
Proof. reflexivity. Qed.

(** A rate-limited service uses up both models: six calls, backoff 2 and
    4 seconds on each model, then the final exception. *)
Example transient_errors_exhaust_the_chain :
  call_llm_with_retry (fun _ _ => Raises "HTTP 429 rate limit") "p" (3 # 10) 4000 3 w0
  = (Raise (Exception "All models failed. Please check your API keys or try again later."),
     {| calls := 6; slept := [2; 4; 2; 4] |}).
Proof. reflexivity. Qed.

(** ** Question bank: the default split *)

(** C4: for a requested total of at least 3 the default split gives
    [total // 3] easy, [total // 3] medium and [total - 2 * (total // 3)] hard
    questions, the three counts add up to the total, and this is the split
    [generate_questions] uses when no mix is given. *)
Theorem default_split_sums_to_total (requested_total : Z) :
  3 <= requested_total ->
  exists easy_count medium_count hard_count,
    default_mix requested_total =
      [(easy, easy_count); (medium, medium_count); (hard, hard_count)]
    /\ easy_count = requested_total / 3
    /\ medium_count = requested_total / 3
    /\ hard_count = requested_total - 2 * (requested_total / 3)
    /\ easy_count + medium_count + hard_count = requested_total
    /\ 0 < easy_count /\ 0 < medium_count /\ 0 < hard_count
    /\ forall completion json_loads notes_data w t,
         generate_questions completion json_loads notes_data requested_total None w t
         = generate_questions completion json_loads notes_data requested_total
             (Some [(easy, easy_count); (medium, medium_count); (hard, hard_count)]) w t.
Proof.
  intros Htotal. unfold default_mix.
  eexists _, _, _. split; [reflexivity|]. do 3 (split; [reflexivity|]).
  assert (Hdiv : 1 <= requested_total / 3) by (apply Z.div_le_lower_bound; lia).
  pose proof (Z.mul_div_le requested_total 3 ltac:(lia)) as Hle.
  pose proof (Z.mod_pos_bound requested_total 3 ltac:(lia)) as Hmod.
  pose proof (Z.div_mod requested_total 3 ltac:(lia)) as Heq.
  repeat split; try lia. 
Qed.

Lemma default_split_sums_to_total_witness :
  default_mix 50 = [(easy, 16); (medium, 16); (hard, 18)] /\ 16 + 16 + 18 = 50.
Proof.
  destruct (default_split_sums_to_total 50 ltac:(discriminate))
    as (e & m & h & Hmix & -> & -> & -> & Hsum & _).
  split; [exact Hmix | exact Hsum].
Defined.

(** ** Answer grader *)

Lemma index_in_range {A} (xs : list A) (i : Z) :
  0 <= i < Z.of_nat (length xs) ->
  exists x, xs !! Z.to_nat i = Some x /\ index xs i = Ok x.
Proof.
  intros Hi. unfold index.
  destruct (Z.ltb_spec i 0) as [?|_]; [lia|].
  destruct (Z.leb_spec 0 i) as [_|?]; [|lia].
  destruct (Z.ltb_spec i (Z.of_nat (length xs))) as [_|?]; [|lia].
  cbn [andb].
  destruct (lookup_lt_is_Some_2 xs (Z.to_nat i)) as [x Hx]; [lia|].
  exists x. rewrite Hx. split; reflexivity.
Qed.

(** C6: on a question that satisfies the invariant, [check_answer] returns
    a verdict for every integer answer; [correct] holds exactly when the
    answer is the question's [correct_answer]; [user_option] is the option
    at the answer's index when that index is in range and absent
    otherwise.  The question is an argument of a pure function: nothing is
    assigned to it. *)
Theorem check_answer_total (q : Question) (user_answer : Z) :
  Question_invariant q ->
  exists v,
    check_answer q user_answer = Ok v
    /\ (correct v = true <-> user_answer = correct_answer q)
    /\ (0 <= user_answer < Z.of_nat (length (options q)) ->
        exists chosen, options q !! Z.to_nat user_answer = Some chosen
                       /\ user_option v = Some chosen)
    /\ (~ 0 <= user_answer < Z.of_nat (length (options q)) -> user_option v = None)
    /\ options q !! Z.to_nat (correct_answer q) = Some (correct_option v)
    /\ verdict_correct_answer v = correct_answer q
    /\ verdict_explanation v = explanation q.
Proof.
  intros [Hlen Hca]. unfold check_answer.
  destruct (index_in_range (options q) (correct_answer q) Hca) as (copt & Hlk & Hidx).
  rewrite Hidx. cbn [mbind result_bind].
  destruct (Z.leb_spec 0 user_answer) as [Hlo|Hlo];
    [destruct (Z.ltb_spec user_answer (Z.of_nat (length (options q)))) as [Hhi|Hhi]|];
    cbn [andb].
  - destruct (index_in_range (options q) user_answer (conj Hlo Hhi)) as (uopt & Hu & Hui).
    rewrite Hui. cbn [mbind result_bind]. eexists. split; [reflexivity|]. cbn.
    repeat split; try assumption; try apply Z.eqb_eq.
    + intros _. exists uopt. split; [assumption|reflexivity].
    + intros Hn. lia.
  - eexists. split; [reflexivity|]. cbn.
    repeat split; try assumption; try apply Z.eqb_eq.
    intros Hr. lia.
  - eexists. split; [reflexivity|]. cbn.
    repeat split; try assumption; try apply Z.eqb_eq.
    intros Hr. lia.
Qed.

Lemma check_answer_total_witness :
  Question_invariant sample_question /\
  exists v, check_answer sample_question 7 = Ok v /\ user_option v = None.
Proof.
  assert (Hinv : Question_invariant sample_question)
    by (split; [reflexivity | split; [discriminate | reflexivity]]).
  split; [exact Hinv|].
  destruct (check_answer_total sample_question 7 Hinv) as (v & Hv & _ & _ & Hout & _).
  exists v. split; [exact Hv|]. apply Hout. cbn. intros [_ H]. discriminate H.
Defined.

(** ** Session sampler *)

Lemma randbelow_lt (n : nat) (t : tape) :
  (0 < n)%nat -> (fst (randbelow n t) < n)%nat.
Proof.
  intros Hn. destruct t as [|r t]; cbn; [assumption|].
  apply Nat.mod_upper_bound. lia.
Qed.

(** Overwriting the item at [j] by [y] and keeping the old item aside is
    a rearrangement of the list with [y] added. *)
Lemma insert_keeps_items {A} (l : list A) (j : nat) (x y : A) :
  l !! j = Some x -> x :: <[j := y]> l ≡ₚ y :: l.
Proof.
  revert j. induction l as [|a l IH]; intros [|j] Hj; try discriminate.
  - injection Hj as ->. cbn. apply perm_swap.
  - cbn in Hj |- *. rewrite perm_swap. rewrite (IH j Hj). apply perm_swap.
Qed.

(** The invariant of the selection loop: what has been selected, together
    with what is still to come, is the live prefix of the pool. *)
Lemma sample_loop_spec {A} (n : nat) :
  forall (k i : nat) (pool : list A) (t : tape),
    length pool = n -> (i + k <= n)%nat ->
    length (fst (sample_loop n (seq i k) pool t)) = k /\
    fst (sample_loop n (seq i k) pool t) ⊆+ take (n - i) pool.
Proof.
  induction k as [|k IH]; intros i pool t Hlen Hik.
  - cbn. split; [reflexivity|]. apply submseteq_nil_l.
  - cbn [seq sample_loop].
    pose proof (randbelow_lt (n - i) t ltac:(lia)) as Hj.
    destruct (randbelow (n - i) t) as [j t'] eqn:Hr. cbn [fst] in Hj.
    destruct (lookup_lt_is_Some_2 pool j ltac:(lia)) as [x Hx].
    destruct (lookup_lt_is_Some_2 pool (n - i - 1) ltac:(lia)) as [y Hy].
    rewrite Hx, Hy.
    specialize (IH (S i) (<[j := y]> pool) t').
    destruct (sample_loop n (seq (S i) k) (<[j := y]> pool) t') as [selected t''].
    cbn [fst] in IH |- *.
    destruct IH as [IHlen IHsub]; [rewrite length_insert; assumption | lia |].
    split; [cbn; congruence|].
    replace (n - i)%nat with (S (n - S i)) by lia.
    replace (n - i - 1)%nat with (n - S i)%nat in Hy by lia.
    rewrite (take_S_r pool _ y Hy).
    destruct (decide (j = n - S i)%nat) as [->|Hne].
    + rewrite take_insert_ge in IHsub by lia.
      assert (x = y) as -> by congruence.
      rewrite <- Permutation_cons_append. apply submseteq_skip. assumption.
    + rewrite take_insert_lt in IHsub by lia.
      rewrite <- Permutation_cons_append.
      rewrite <- (insert_keeps_items (take (n - S i) pool) j x y).
      * apply submseteq_skip. assumption.
      * rewrite lookup_take_lt by lia. assumption.
Qed.

Lemma sample_spec {A} (population : list A) (k : Z) (t : tape) :
  0 <= k <= Z.of_nat (length population) ->
  exists selected t',
    sample population k t = (Ok selected, t')
    /\ length selected = Z.to_nat k
    /\ selected ⊆+ population.
Proof.
  intros Hk. unfold sample.
  destruct (Z.leb_spec 0 k) as [_|?]; [|lia].
  destruct (Z.leb_spec k (Z.of_nat (length population))) as [_|?]; [|lia].
  cbn [andb].
  pose proof (sample_loop_spec (length population) (Z.to_nat k) 0 population t
                eq_refl ltac:(lia)) as [Hlen Hsub].
  destruct (sample_loop (length population) (seq 0 (Z.to_nat k)) population t)
    as [selected t'].
  cbn [fst] in *. exists selected, t'. split; [reflexivity|]. split; [assumption|].
  rewrite Nat.sub_0_r, take_ge in Hsub by lia. assumption.
Qed.

Lemma filter_sublist_of {A} (f : A -> bool) (l : list A) :
  List.filter f l `sublist_of` l.
Proof.
  induction l as [|a l IH]; cbn; [constructor|].
  destruct (f a); [apply sublist_skip | apply sublist_cons]; assumption.
Qed.

Lemma filter_nil_existsb {A} (f : A -> bool) (l : list A) :
  List.filter f l = [] <-> existsb f l = false.
Proof.
  induction l as [|a l IH]; cbn; [tauto|].
  destruct (f a); cbn; [split; discriminate | assumption].
Qed.

(** The universe the code samples from is the one the specification
    describes. *)
Lemma available_is_universe (pool : list Question) (topic_filter : option (list string)) :
  match topic_filter with
  | Some ((_ :: _) as wanted) =>
      let filtered := List.filter (fun q => mem (topic q) wanted) pool in
      match filtered with
      | _ :: _ => filtered
      | [] => pool
      end
  | Some [] | None => pool
  end = sampling_universe pool topic_filter.
Proof.
  destruct topic_filter as [[|w wanted]|]; try reflexivity.
  unfold sampling_universe.
  rewrite bool_decide_eq_false_2 by discriminate. cbn [negb andb].
  destruct (existsb _ pool) eqn:He.
  - destruct (List.filter _ pool) eqn:Hf; [|reflexivity].
    apply filter_nil_existsb in Hf. congruence.
  - apply filter_nil_existsb in He. rewrite He. reflexivity.
Qed.

(** C5: for every pool, every count [>= 0] and every topic filter,
    [select_quiz_questions] does not raise and returns
    [min(count, |universe|)] questions of the universe, none taken more
    often than it occurs there (a draw without replacement); the universe
    is the topic-matching part of the pool when the filter is not empty and
    matches something, and the whole pool otherwise. *)
Theorem select_quiz_questions_draws_min
    (pool : list Question) (count : Z) (topic_filter : option (list string)) (t : tape) :
  0 <= count ->
  exists selected t',
    select_quiz_questions pool count topic_filter t = (Ok selected, t')
    /\ Z.of_nat (length selected)
       = Z.min count (Z.of_nat (length (sampling_universe pool topic_filter)))
    /\ selected ⊆+ sampling_universe pool topic_filter
    /\ sampling_universe pool topic_filter `sublist_of` pool.
Proof.
  intros Hcount. unfold select_quiz_questions.
  rewrite available_is_universe.
  set (universe := sampling_universe pool topic_filter).
  destruct (sample_spec universe (Z.min count (Z.of_nat (length universe))) t)
    as (selected & t' & Hrun & Hlen & Hsub); [lia|].
  exists selected, t'. repeat split; try assumption; [lia|].
  subst universe. unfold sampling_universe.
  destruct topic_filter as [wanted|]; [|reflexivity].
  destruct (_ && _); [apply filter_sublist_of | reflexivity].
Qed.

Lemma select_quiz_questions_draws_min_witness :
  exists selected t',
    select_quiz_questions sample_pool 15 (Some ["Quantum"]) [3; 1; 4]%nat = (Ok selected, t')
    /\ Z.of_nat (length selected) = 2.
Proof.
  destruct (select_quiz_questions_draws_min sample_pool 15 (Some ["Quantum"]) [3; 1; 4]%nat)
    as (selected & t' & Hrun & Hlen & _); [discriminate|].
  exists selected, t'. split; [exact Hrun | exact Hlen].
Defined.

(** ** Performance aggregator *)

Section Dicts.
Context {A : Type}.
Implicit Types (d : list (string * A)) (key k : string).

Lemma assoc_update key k (f : A -> A) d :
  assoc k (update key f d) = if String.eqb key k then f <$> assoc k d else assoc k d.
Proof.
  induction d as [|[k0 v] d IH]; cbn.
  - destruct (String.eqb key k); reflexivity.
  - destruct (String.eqb_spec k0 key) as [->|Hne]; cbn.
    + destruct (String.eqb_spec key k) as [->|Hk]; reflexivity.
    + rewrite IH. destruct (String.eqb_spec k0 k) as [->|Hk]; [|reflexivity].
      destruct (String.eqb_spec key k) as [->|_]; [congruence | reflexivity].
Qed.

Lemma assoc_app key k (v : A) d :
  assoc k (d ++ [(key, v)]) =
    match assoc k d with
    | Some x => Some x
    | None => if String.eqb key k then Some v else None
    end.
Proof.
  induction d as [|[k0 v0] d IH]; cbn; [reflexivity|].
  destruct (String.eqb k0 k); [reflexivity | apply IH].
Qed.

Lemma keys_update key (f : A -> A) d : (update key f d).*1 = d.*1.
Proof.
  induction d as [|[k0 v] d IH]; cbn; [reflexivity|].
  destruct (String.eqb k0 key); cbn; [reflexivity | f_equal; apply IH].
Qed.

Lemma assoc_None key d : assoc key d = None <-> key ∉ d.*1.
Proof.
  induction d as [|[k0 v] d IH]; cbn.
  - split; [intros _; apply not_elem_of_nil | reflexivity].
  - rewrite not_elem_of_cons. destruct (String.eqb_spec k0 key) as [->|Hne].
    + split; [discriminate | intros [H _]; congruence].
    + rewrite IH. split; [intros H; split; [congruence | assumption] | intros [_ H]; assumption].
Qed.

(** On a dict, the items are the lookups. *)
Lemma assoc_Some_items key (v : A) d :
  NoDup d.*1 -> (assoc key d = Some v <-> (key, v) ∈ d).
Proof.
  induction d as [|[k0 v0] d IH]; cbn; intros Hnd.
  - split; [discriminate | intros H; inversion H].
  - apply NoDup_cons in Hnd as [Hk0 Hnd]. rewrite elem_of_cons.
    destruct (String.eqb_spec k0 key) as [->|Hne].
    + split; [intros [= ->]; left; reflexivity|].
      intros [[= ->]|Hin]; [reflexivity|].
      exfalso. apply Hk0. apply (list_elem_of_fmap_2 fst) in Hin. exact Hin.
    + rewrite (IH Hnd). split; [intros H; right; exact H|].
      intros [[= -> ->]|Hin]; [congruence | exact Hin].
Qed.

Lemma assoc_map {B} key (f : A -> B) d :
  assoc key (map (fun kv => (fst kv, f (snd kv))) d) = f <$> assoc key d.
Proof.
  induction d as [|[k0 v] d IH]; cbn; [reflexivity|].
  destruct (String.eqb k0 key); [reflexivity | apply IH].
Qed.
End Dicts.

(** What one round of the first loop does to the entry of a topic. *)
Lemma assoc_tally tp d r :
  assoc tp (tally d r) =
    if String.eqb (topic (answered r)) tp
    then Some (add_answer (is_correct r) (default zero_counts (assoc tp d)))
    else assoc tp d.
Proof.
  unfold tally. set (k := topic (answered r)).
  assert (Hnew : assoc tp
            (match assoc k d with
             | None => d ++ [(k, {| n_correct := 0; n_total := 0 |})]
             | Some _ => d
             end)
          = if String.eqb k tp then Some (default zero_counts (assoc tp d)) else assoc tp d).
  { destruct (String.eqb_spec k tp) as [->|Hne].
    - destruct (assoc tp d) eqn:Hd; [rewrite Hd; reflexivity|].
      rewrite assoc_app, Hd, String.eqb_refl. reflexivity.
    - destruct (assoc k d); [reflexivity|].
      rewrite assoc_app. destruct (assoc tp d); [reflexivity|].
      destruct (String.eqb_spec k tp); [congruence | reflexivity]. }
  destruct (is_correct r); rewrite ?assoc_update, Hnew;
    destruct (String.eqb k tp); cbn; try reflexivity;
    unfold add_answer; cbn; do 2 f_equal; lia.
Qed.

Lemma keys_tally d r : NoDup d.*1 -> NoDup (tally d r).*1.
Proof.
  intros Hnd. unfold tally.
  destruct (is_correct r); rewrite ?keys_update;
    (destruct (assoc (topic (answered r)) d) eqn:Hd; [assumption|]);
    rewrite fmap_app; apply NoDup_app; (split; [assumption|]); cbn;
    (split; [|apply NoDup_singleton]);
    intros x Hx Hx'; apply list_elem_of_singleton in Hx' as ->;
    apply assoc_None in Hd; contradiction.
Qed.

Lemma keys_fold_tally answers : forall d,
  NoDup d.*1 -> NoDup (fold_left tally answers d).*1.
Proof.
  induction answers as [|r answers IH]; intros d Hnd; cbn; [assumption|].
  apply IH, keys_tally, Hnd.
Qed.

(** The entry of a topic after the first loop. *)
Lemma assoc_fold_tally tp answers : forall d,
  assoc tp (fold_left tally answers d) =
    if total_on tp answers =? 0 then assoc tp d
    else Some {| n_correct := n_correct (default zero_counts (assoc tp d))
                               + correct_on tp answers;
                 n_total := n_total (default zero_counts (assoc tp d))
                             + total_on tp answers |}.
Proof.
  unfold total_on, correct_on, answers_on.
  induction answers as [|r answers IH]; intros d; cbn [fold_left List.filter]; [reflexivity|].
  rewrite IH, assoc_tally.
  destruct (String.eqb (topic (answered r)) tp); [|reflexivity].
  cbn [List.filter length default].
  destruct (Z.eqb_spec (Z.of_nat (S (length (List.filter
              (fun r => String.eqb (topic (answered r)) tp) answers)))) 0) as [?|_]; [lia|].
  destruct (Z.eqb_spec (Z.of_nat (length (List.filter
              (fun r => String.eqb (topic (answered r)) tp) answers))) 0) as [Hz|_].
  - apply (inj Z.of_nat _ 0%nat) in Hz. apply length_zero_iff_nil in Hz. rewrite Hz.
    unfold add_answer. destruct (is_correct r); cbn; f_equal; f_equal; lia.
  - destruct (is_correct r); cbn; unfold add_answer; cbn; f_equal; f_equal; lia.
Qed.

(** The entry of a topic in the result of [calculate_topic_performance]. *)
Lemma topic_entry {F : Arith} tp answers :
  assoc tp (calculate_topic_performance answers) =
    if total_on tp answers =? 0 then None
    else Some (finish {| n_correct := correct_on tp answers;
                         n_total := total_on tp answers |}).
Proof.
  unfold calculate_topic_performance.
  rewrite assoc_map, assoc_fold_tally. cbn.
  destruct (total_on tp answers =? 0); reflexivity.
Qed.

Lemma topic_keys_unique {F : Arith} answers :
  NoDup (calculate_topic_performance answers).*1.
Proof.
  unfold calculate_topic_performance.
  rewrite <- list_fmap_compose.
  apply (keys_fold_tally answers []). constructor.
Qed.

Section StableSort.
Context {F : Arith} {L : ArithLaws F} {A : Type} (key : A -> num).

Lemma insert_by_perm (x : A) (l : list A) : insert_by key x l ≡ₚ x :: l.
Proof.
  induction l as [|y l IH]; cbn; [reflexivity|].
  destruct (num_lt (key y) (key x)); [|reflexivity].
  rewrite IH. apply perm_swap.
Qed.

Lemma sort_by_perm (l : list A) : sort_by key l ≡ₚ l.
Proof.
  induction l as [|x l IH]; cbn; [reflexivity|].
  rewrite insert_by_perm, IH. reflexivity.
Qed.

Lemma insert_by_sorted (x : A) (l : list A) :
  StronglySorted (fun a b => num_lt (key b) (key a) = false) l ->
  StronglySorted (fun a b => num_lt (key b) (key a) = false) (insert_by key x l).
Proof.
  induction 1 as [|y l Hs IH Hy]; cbn.
  - repeat constructor.
  - destruct (num_lt (key y) (key x)) eqn:Hlt.
    + constructor; [assumption|].
      rewrite insert_by_perm. constructor; [|assumption].
      apply lt_asym, Hlt.
    + constructor; [constructor; assumption|].
      constructor; [assumption|].
      eapply Forall_impl; [exact Hy|]. cbn. intros z Hz.
      eapply lt_negtrans; eassumption.
Qed.

Lemma sort_by_sorted (l : list A) :
  StronglySorted (fun a b => num_lt (key b) (key a) = false) (sort_by key l).
Proof.
  induction l as [|x l IH]; cbn; [constructor | apply insert_by_sorted, IH].
Qed.

(** Two items with the percentage [p] are not below each other. *)
Lemma same_not_lt (p a b : num) :
  same a p = true -> same b p = true -> num_lt a b = false.
Proof.
  unfold same. intros Ha Hb.
  apply andb_prop in Ha as [Hap _]. apply andb_prop in Hb as [_ Hpb].
  apply negb_true_iff in Hap, Hpb. eapply lt_negtrans; eassumption.
Qed.

(** Insertion never passes an item of equal key. *)
Lemma insert_by_stable (p : num) (x : A) (l : list A) :
  List.filter (fun a => same (key a) p) (insert_by key x l) =
  List.filter (fun a => same (key a) p) (x :: l).
Proof.
  induction l as [|y l IH]; [reflexivity|].
  cbn [insert_by]. destruct (num_lt (key y) (key x)) eqn:Hlt; [|reflexivity].
  cbn [List.filter] in IH |- *. rewrite IH.
  destruct (same (key x) p) eqn:Hx; [|reflexivity].
  destruct (same (key y) p) eqn:Hy; [|reflexivity].
  pose proof (same_not_lt p _ _ Hy Hx) as Hge. congruence.
Qed.

Lemma sort_by_stable (p : num) (l : list A) :
  List.filter (fun a => same (key a) p) (sort_by key l) =
  List.filter (fun a => same (key a) p) l.
Proof.
  induction l as [|x l IH]; [reflexivity|].
  cbn [sort_by foldr]. rewrite insert_by_stable. cbn [List.filter].
  fold (sort_by key l). rewrite IH. reflexivity.
Qed.
End StableSort.

Lemma finish_status {F : Arith} {L : ArithLaws F} (c : counts) :
  (num_ge (percentage (finish c)) (of_int 80) = true -> status (finish c) = Strong)
  /\ (num_ge (percentage (finish c)) (of_int 60) = true
      /\ num_lt (percentage (finish c)) (of_int 80) = true ->
      status (finish c) = NeedsReview)
  /\ (num_lt (percentage (finish c)) (of_int 60) = true -> status (finish c) = Weak).
Proof.
  unfold finish. cbn [percentage status].
  set (pct := if n_total c >? 0 then _ else _).
  rewrite !ge_not_lt.
  destruct (num_lt pct (of_int 80)) eqn:H80; destruct (num_lt pct (of_int 60)) eqn:H60;
    cbn [negb]; repeat split; try reflexivity; try discriminate;
    try (intros [? ?]; discriminate).
  (* below 60 but not below 80 is impossible *)
  exfalso.
  pose proof (lt_negtrans _ _ _ H80 (lt_asym _ _ sixty_lt_eighty)) as Hno.
  congruence.
Qed.

(** The laws hold in exact arithmetic. *)
Lemma exact_laws : ArithLaws exact.
Proof.
  split; cbn.
  - intros a b Hab. apply negb_true_iff in Hab. apply negb_false_iff, Qle_bool_iff.
    destruct (Qlt_le_dec a b) as [Hlt|Hle]; [apply Qlt_le_weak, Hlt|].
    apply Qle_bool_iff in Hle. congruence.
  - intros a b c Hab Hbc. apply negb_false_iff in Hab, Hbc. apply negb_false_iff.
    apply Qle_bool_iff in Hab, Hbc. apply Qle_bool_iff. eapply Qle_trans; eassumption.
  - intros a b. rewrite negb_involutive. reflexivity.
  - reflexivity.
Qed.

Lemma filter_map_comm {A B} (f : B -> bool) (g : A -> B) (l : list A) :
  List.filter f (map g l) = map g (List.filter (fun x => f (g x)) l).
Proof.
  induction l as [|x l IH]; cbn; [reflexivity|].
  destruct (f (g x)); cbn; rewrite IH; reflexivity.
Qed.

Lemma filter_filter_andb {A} (f g : A -> bool) (l : list A) :
  List.filter f (List.filter g l) = List.filter (fun x => g x && f x) l.
Proof.
  induction l as [|x l IH]; cbn; [reflexivity|].
  destruct (g x); cbn; [destruct (f x)|]; rewrite IH; reflexivity.
Qed.

Lemma filter_keys_unique {A} (f : string * A -> bool) (d : list (string * A)) :
  NoDup d.*1 -> NoDup (List.filter f d).*1.
Proof.
  induction d as [|[k v] d IH]; cbn; intros Hnd; [constructor|].
  apply NoDup_cons in Hnd as [Hk Hnd].
  destruct (f (k, v)); cbn; [|apply IH, Hnd].
  constructor; [|apply IH, Hnd].
  intros Hin. apply Hk. apply list_elem_of_fmap in Hin as ([k' v'] & -> & Hin).
  apply list_elem_of_In, filter_In in Hin as [Hin _].
  apply list_elem_of_fmap. exists (k', v'). split; [reflexivity | apply list_elem_of_In, Hin].
Qed.

(** C7: each topic met in the answers has an entry with its counts,
    [percentage = correct / total * 100], and the status [Strong] when the
    percentage is [>= 80], [NeedsReview] when it is [>= 60] and [< 80],
    [Weak] when it is [< 60].  The weak-topic list holds exactly the
    topics whose percentage is strictly below the threshold, each once,
    with the score [correct/total], the percentage and the status of the
    topic; it is in ascending order of percentage, and the topics of equal
    percentage stand in the iteration order of the topic map.  This holds
    in every arithmetic that obeys [ArithLaws]. *)
Theorem topic_stats_and_weak_topics {F : Arith} {L : ArithLaws F}
    (answers : list graded_answer) (threshold : num) :
  let perf := calculate_topic_performance answers in
  let weak := get_weak_topics perf threshold in
  (forall tp, is_Some (assoc tp perf) <-> 0 < total_on tp answers)
  /\ (forall tp s, assoc tp perf = Some s ->
        stat_correct s = correct_on tp answers
        /\ stat_total s = total_on tp answers
        /\ percentage s = times (true_div (stat_correct s) (stat_total s)) 100
        /\ (num_ge (percentage s) (of_int 80) = true -> status s = Strong)
        /\ (num_ge (percentage s) (of_int 60) = true
            /\ num_lt (percentage s) (of_int 80) = true -> status s = NeedsReview)
        /\ (num_lt (percentage s) (of_int 60) = true -> status s = Weak))
  /\ (forall tp, tp ∈ map weak_name weak <->
        exists s, assoc tp perf = Some s /\ num_lt (percentage s) threshold = true)
  /\ NoDup (map weak_name weak)
  /\ (forall w, w ∈ weak ->
        exists s, assoc (weak_name w) perf = Some s
                  /\ score w = str (stat_correct s) +:+ "/" +:+ str (stat_total s)
                  /\ weak_percentage w = percentage s
                  /\ weak_status w = status s)
  /\ StronglySorted by_percentage weak
  /\ (forall p,
        map weak_name (with_percentage p weak)
        = map fst (List.filter
                     (fun kv => num_lt (percentage (snd kv)) threshold
                                && same (percentage (snd kv)) p) perf)).
Proof.
  intros perf weak.
  assert (Hpos : forall tp, 0 <= total_on tp answers) by (intros; unfold total_on; lia).
  assert (Hperm : weak ≡ₚ map weak_entry (List.filter (below threshold) perf))
    by apply sort_by_perm.
  assert (Hnames : map weak_name (map weak_entry (List.filter (below threshold) perf))
                   = (List.filter (below threshold) perf).*1).
  { rewrite map_map. reflexivity. }
  assert (Hkeys : NoDup perf.*1) by apply topic_keys_unique.
  split; [|split; [|split; [|split; [|split; [|split]]]]].
  - intros tp. subst perf. rewrite topic_entry.
    destruct (Z.eqb_spec (total_on tp answers) 0) as [Hz|Hnz].
    + rewrite Hz. split; [intros [? ?]; discriminate | lia].
    + split; [specialize (Hpos tp); lia | eauto].
  - intros tp s. subst perf. rewrite topic_entry.
    destruct (Z.eqb_spec (total_on tp answers) 0) as [Hz|Hnz]; [discriminate|].
    intros [= <-]. split; [reflexivity|]. split; [reflexivity|].
    split; [|apply finish_status].
    unfold finish. cbn [percentage stat_correct stat_total n_total n_correct].
    destruct (Z.gtb_spec (total_on tp answers) 0) as [_|Hle]; [reflexivity|].
    specialize (Hpos tp). lia.
  - intros tp. rewrite Hperm, Hnames, list_elem_of_fmap. split.
    + intros ([tp' s] & -> & Hin). apply list_elem_of_In, filter_In in Hin as [Hin Hb].
      exists s. split; [|exact Hb].
      apply assoc_Some_items; [exact Hkeys | apply list_elem_of_In, Hin].
    + intros (s & Hs & Hlt). exists (tp, s). split; [reflexivity|].
      apply list_elem_of_In, filter_In. split; [|exact Hlt].
      apply list_elem_of_In, assoc_Some_items; [exact Hkeys | exact Hs].
  - rewrite Hperm, Hnames. apply filter_keys_unique, Hkeys.
  - intros w Hw. rewrite Hperm in Hw. apply list_elem_of_fmap in Hw as ([tp s] & -> & Hin).
    apply list_elem_of_In, filter_In in Hin as [Hin _].
    exists s. split; [|repeat split].
    apply assoc_Some_items; [exact Hkeys | apply list_elem_of_In, Hin].
  - apply (sort_by_sorted weak_percentage).
  - intros p. unfold with_percentage. subst weak. unfold get_weak_topics.
    rewrite (sort_by_stable weak_percentage), filter_map_comm, map_map, filter_filter_andb.
    reflexivity.
Qed.

(** Four weak topics, two of them at 50%: they stand in the order of the
    topic map. *)
Lemma topic_stats_and_weak_topics_witness :
  map weak_name
    (with_percentage (F := exact) 50%Q
       (get_weak_topics (F := exact) (calculate_topic_performance tied_answers) 60%Q))
  = ["X"; "Z"].
Proof.
  destruct (topic_stats_and_weak_topics (F := exact) (L := exact_laws) tied_answers 60%Q)
    as (_ & _ & _ & _ & _ & _ & Hties).
  rewrite Hties. vm_compute. reflexivity.
Defined.

(** The example of the specification: A at 90%, B at 40%, C at 65% and
    the threshold 60 give the weak list [B] alone. *)
Example weak_topics_of_the_specification :
  get_weak_topics (F := exact)
    (calculate_topic_performance
       (answers_for "A" 9 1 ++ answers_for "B" 2 3 ++ answers_for "C" 13 7)) 60%Q
  = [ {| weak_name := "B"; score := "2/5"; weak_percentage := (200 # 5)%Q : @num exact;
         weak_status := Weak |} ].
Proof. vm_compute. reflexivity. Qed.

(** X and Z are both at 50%: they come after W (0%) and Y (25%), X before
    Z as in the topic map. *)
Example weak_topics_ties :
  map weak_name
    (get_weak_topics (F := exact) (calculate_topic_performance tied_answers) 60%Q)
  = ["W"; "Y"; "X"; "Z"].
Proof. vm_compute. reflexivity. Qed.

(** ** Reordering the answers *)

Lemma filter_length_perm {A} (f : A -> bool) (l l' : list A) :
  l ≡ₚ l' -> length (List.filter f l) = length (List.filter f l').
Proof.
  induction 1 as [|x l l' _ IH|x y l|l l' l'' _ IH1 _ IH2]; cbn.
  - reflexivity.
  - destruct (f x); cbn; congruence.
  - destruct (f x), (f y); reflexivity.
  - congruence.
Qed.

Lemma filter_filter_length_perm {A} (f g : A -> bool) (l l' : list A) :
  l ≡ₚ l' -> length (List.filter g (List.filter f l)) = length (List.filter g (List.filter f l')).
Proof.
  induction 1 as [|x l l' _ IH|x y l|l l' l'' _ IH1 _ IH2]; cbn.
  - reflexivity.
  - destruct (f x); cbn; [destruct (g x); cbn|]; congruence.
  - destruct (f x), (f y); cbn; try reflexivity.
    destruct (g x), (g y); reflexivity.
  - congruence.
Qed.

(** C8: reordering the graded answers changes no topic's entry: the
    correct count, the total, the percentage and the status of every topic
    are the same for every permutation of the sequence. *)
Theorem aggregation_invariant_under_reordering {F : Arith}
    (answers answers' : list graded_answer) :
  answers ≡ₚ answers' ->
  forall tp,
    assoc tp (calculate_topic_performance answers')
    = assoc tp (calculate_topic_performance answers).
Proof.
  intros Hperm tp. rewrite !topic_entry.
  unfold total_on, correct_on, answers_on.
  rewrite (filter_length_perm _ _ _ Hperm).
  rewrite (filter_filter_length_perm _ is_correct _ _ Hperm).
  reflexivity.
Qed.

Lemma aggregation_invariant_under_reordering_witness :
  assoc "B" (calculate_topic_performance (F := exact) (rev sample_answers))
  = assoc "B" (calculate_topic_performance (F := exact) sample_answers).
Proof.
  apply (aggregation_invariant_under_reordering (F := exact)
           sample_answers (rev sample_answers)).
  apply Permutation_rev.
Defined.

(** ** Question bank: what enters the pool *)

Lemma swap_perm {A} (x : list A) (i j : nat) : swap x i j ≡ₚ x.
Proof.
  unfold swap. destruct (x !! i) as [a|] eqn:Hi; [|reflexivity].
  destruct (x !! j) as [b|] eqn:Hj; [|reflexivity].
  apply (Permutation_cons_inv (a := b)).
  assert (Hj' : <[i := b]> x !! j = Some b).
  { destruct (decide (i = j)) as [->|Hne].
    - apply list_lookup_insert_eq. eapply lookup_lt_Some, Hj.
    - rewrite list_lookup_insert_ne by assumption. exact Hj. }
  rewrite (insert_keeps_items _ j b a Hj').
  apply (insert_keeps_items x i a b Hi).
Qed.

Lemma shuffle_loop_perm {A} (todo : list nat) : forall (x : list A) (t : tape),
  (shuffle_loop todo x t).1 ≡ₚ x.
Proof.
  induction todo as [|i todo IH]; intros x t; cbn; [reflexivity|].
  destruct (randbelow (S i) t) as [j t']. rewrite IH. apply swap_perm.
Qed.

Lemma shuffle_perm {A} (x : list A) (t : tape) : (shuffle x t).1 ≡ₚ x.
Proof. apply shuffle_loop_perm. Qed.

Section Bank.
Variable completion : service.
Variable json_loads : string -> option json.

Abbreviation by_difficulty := (_generate_questions_by_difficulty completion json_loads).
Abbreviation tiers := (tiers completion json_loads).
Abbreviation generate_questions := (generate_questions completion json_loads).

(** What a tier returns, when the pool can be extended by it, is what
    its call contributes. *)
Lemma tier_contributes notes_data d count w v w1 items :
  by_difficulty notes_data d count w = (v, w1) ->
  iter v = Ok items ->
  contributes completion json_loads (question_prompt notes_data d count) w items w1.
Proof.
  unfold _generate_questions_by_difficulty, tier_try.
  destruct (call_llm_with_retry _ _ _ _ _ w) as [[response|e] w'] eqn:Hcall.
  - destruct (unfence (content response)) as [txt|e] eqn:Hunf; cbn [mbind result_bind].
    + destruct (json_loads txt) as [v0|] eqn:Hload.
      * intros [= <- <-] Hiter.
        eapply contributes_questions; [exact Hcall | exact Hunf | exact Hload |].
        destruct v0; cbn in Hiter |- *; congruence.
      * intros [= <- <-] [= <-].
        eapply contributes_no_text; [exact Hcall|].
        intros txt' Htxt. congruence.
    + intros [= <- <-] [= <-].
      eapply contributes_no_text; [exact Hcall|].
      intros txt' Htxt. congruence.
  - intros [= <- <-] [= <-]. eapply contributes_no_response, Hcall.
Qed.

(** And a tier returns what its call contributes. *)
Lemma contributes_tier notes_data d count w items w1 :
  contributes completion json_loads (question_prompt notes_data d count) w items w1 ->
  exists v, by_difficulty notes_data d count w = (v, w1) /\ iter v = Ok items.
Proof.
  unfold _generate_questions_by_difficulty, tier_try.
  intros [response w' txt v items' Hcall Hunf Hload Hitems|e w' Hcall|response w' Hcall Hnone];
    rewrite Hcall.
  - rewrite Hunf. cbn [mbind result_bind]. rewrite Hload.
    eexists. split; [reflexivity|].
    destruct v; cbn in Hitems |- *; congruence.
  - exists (JList []). split; reflexivity.
  - exists (JList []). split; [|reflexivity].
    destruct (unfence (content response)) as [txt|e]; cbn [mbind result_bind];
      [|reflexivity].
    rewrite (Hnone txt eq_refl). reflexivity.
Qed.

(** The loop over the tiers collects what the tiers hand on, all of it. *)
Lemma tiers_handed_on notes_data mix : forall acc w pool w',
  tiers notes_data mix acc w = (Ok pool, w') ->
  exists collected,
    handed_on completion json_loads notes_data mix w collected w'
    /\ pool = acc ++ collected.
Proof.
  induction mix as [|[d count] mix IH]; intros acc w pool w' Hrun; cbn [Quiz.tiers] in Hrun.
  - injection Hrun as <- <-. exists []. split; [constructor | symmetry; apply app_nil_r].
  - destruct (Z.gtb_spec count 0) as [Hpos|Hnpos].
    + destruct (by_difficulty notes_data d count w) as [v w1] eqn:Htier.
      destruct (iter v) as [items|e] eqn:Hitems; [|discriminate].
      destruct (IH _ _ _ _ Hrun) as (collected & Hrest & ->).
      exists (items ++ collected). split; [|symmetry; apply app_assoc].
      eapply handed_on_tier; [lia | eapply tier_contributes; eassumption | exact Hrest].
    + destruct (IH _ _ _ _ Hrun) as (collected & Hrest & ->).
      exists collected. split; [|reflexivity].
      apply handed_on_skip; [lia | exact Hrest].
Qed.

Lemma handed_on_tiers notes_data mix w collected w' :
  handed_on completion json_loads notes_data mix w collected w' ->
  forall acc, tiers notes_data mix acc w = (Ok (acc ++ collected), w').
Proof.
  induction 1 as [w|d count mix w collected w' Hcount _ IH
                  |d count mix w items w1 collected w' Hcount Htier _ IH];
    intros acc; cbn [Quiz.tiers].
  - rewrite app_nil_r. reflexivity.
  - destruct (Z.gtb_spec count 0) as [Hpos|_]; [lia|]. apply IH.
  - destruct (Z.gtb_spec count 0) as [_|Hnpos]; [|lia].
    destruct (contributes_tier _ _ _ _ _ _ Htier) as (v & -> & ->).
    rewrite IH, app_assoc. reflexivity.
Qed.
End Bank.

(** C1, as stated, fails: the pool is whatever the tiers decoded.  A
    service that answers with one question of three options and the answer
    index 7 gets that question into the pool, once per tier. *)
Lemma pool_is_validated_fails :
  (generate_questions (always three_options) Json.loads sample_notes 3 None w0 []).1.1
  = {| success := true;
       questions := Some (repeat invalid_question 3);
       total_generated := Some 3;
       error := None |}
  /\ ~ pool_is_validated (always three_options) Json.loads.
Proof.
  assert (Hrun : (generate_questions (always three_options) Json.loads
                    sample_notes 3 None w0 []).1.1
                 = {| success := true;
                      questions := Some (repeat invalid_question 3);
                      total_generated := Some 3;
                      error := None |}) by (vm_compute; reflexivity).
  split; [exact Hrun|].
  intros Hclaim.
  specialize (Hclaim sample_notes 3 None w0 [] _ (f_equal questions Hrun) _
                (list_elem_of_here _ _)).
  discriminate Hclaim.
Qed.

(** C1, amended: [generate_questions] makes no check of the invariant
    and excludes no question.  The pool it returns is a rearrangement of
    all that the tiers of the mix hand on: for every tier asked for at
    least one question, all the questions its response decodes to (the
    items of a list, a single object as one question), and nothing for a
    tier whose call raises or whose response does not decode;
    [total_generated] is the length of the pool.  And whatever the tiers
    hand on is returned: the pool exists and is a rearrangement of it. *)
Theorem pool_is_all_that_was_handed_on
    (completion : service) (json_loads : string -> option json)
    (notes_data : Notes) (num_questions : Z) (difficulty_mix : option (list (tier * Z)))
    (w : world) (t : tape) :
  let run := generate_questions completion json_loads notes_data num_questions
               difficulty_mix w t in
  let mix := effective_mix num_questions difficulty_mix in
  (forall pool,
     questions run.1.1 = Some pool ->
     exists collected,
       handed_on completion json_loads notes_data mix w collected run.1.2
       /\ pool ≡ₚ collected
       /\ success run.1.1 = true
       /\ total_generated run.1.1 = Some (Z.of_nat (length pool)))
  /\ (forall collected w',
        handed_on completion json_loads notes_data mix w collected w' ->
        exists pool,
          questions run.1.1 = Some pool /\ pool ≡ₚ collected /\ run.1.2 = w').
Proof.
  cbn zeta. unfold generate_questions.
  fold (effective_mix num_questions difficulty_mix).
  split.
  - intros pool.
    destruct (tiers _ _ _ _ [] w) as [[collected0|e] w'] eqn:Hrun; [|discriminate].
    pose proof (shuffle_perm collected0 t) as Hperm.
    destruct (shuffle collected0 t) as [shuffled t']. cbn in Hperm |- *.
    intros [= <-].
    destruct (tiers_handed_on _ _ _ _ _ _ _ _ Hrun) as (collected & Hhanded & ->).
    exists collected. repeat split; assumption.
  - intros collected w' Hhanded.
    rewrite (handed_on_tiers _ _ _ _ _ _ _ Hhanded []). cbn [app].
    pose proof (shuffle_perm collected t) as Hperm.
    destruct (shuffle collected t) as [shuffled t']. cbn in Hperm |- *.
    exists shuffled. repeat split. exact Hperm.
Qed.

(** The service of the counterexample: each of the three tiers hands on
    the one question of the response, invalid as it is, and the pool holds
    the three. *)
Lemma pool_is_all_that_was_handed_on_witness :
  exists pool,
    questions
      (generate_questions (always three_options) Json.loads sample_notes 3 None w0 []).1.1
    = Some pool
    /\ pool ≡ₚ [invalid_question; invalid_question; invalid_question].
Proof.
  destruct (pool_is_all_that_was_handed_on (always three_options) Json.loads
              sample_notes 3 None w0 []) as [_ H].
  destruct (H ([invalid_question] ++ [invalid_question] ++ [invalid_question] ++ [])
              {| calls := 3; slept := [] |}) as (pool & Hpool & Hperm & _).
  - assert (Htier : forall d n,
              contributes (always three_options) Json.loads (question_prompt sample_notes d 1)
                {| calls := n; slept := [] |} [invalid_question]
                {| calls := S n; slept := [] |}).
    { intros d n.
      eapply (contributes_questions _ _ _ _ _ _ three_options (JList [invalid_question]));
        [reflexivity | vm_compute; reflexivity | vm_compute; reflexivity | reflexivity]. }
    change (effective_mix 3 None) with [(easy, 1); (medium, 1); (hard, 1)].
    change w0 with {| calls := 0; slept := [] |}.
    eapply handed_on_tier; [reflexivity | apply Htier|].
    eapply handed_on_tier; [reflexivity | apply Htier|].
    eapply handed_on_tier; [reflexivity | apply Htier|].
    apply handed_on_nil.
  - exists pool. split; [exact Hpool | exact Hperm].
Defined.

(** ** Question bank: failing tiers *)

Section Failures.
Variable completion : service.
Variable json_loads : string -> option json.

(** A response the retry loop returns is one the service returned. *)
Lemma attempts_returned msgs temp max_toks max_retries mdl todo : forall w r w',
  attempts completion msgs temp max_toks max_retries mdl todo w = (Returned r, w') ->
  exists req n, completion req n = Returns r.
Proof.
  induction todo as [|attempt todo IH]; intros w r w'; cbn [attempts]; [discriminate|].
  destruct (completion _ (calls w)) as [r0|error_str|error_str] eqn:Hcall.
  - intros [= <- <-]. eauto.
  - destruct (is_transient error_str);
      [destruct (attempt <? max_retries - 1); [apply IH | discriminate]|].
    destruct (is_unavailable error_str); [discriminate|].
    destruct (attempt =? max_retries - 1); [discriminate | apply IH].
  - destruct (is_transient error_str);
      [destruct (attempt <? max_retries - 1); [apply IH | discriminate]|].
    destruct (is_unavailable error_str); [discriminate|].
    destruct (attempt =? max_retries - 1); [discriminate | apply IH].
Qed.

Lemma call_returns_from_service msgs temp max_toks max_retries w r w' :
  call_llm_with_retry completion msgs temp max_toks max_retries w = (Ok r, w') ->
  exists req n, completion req n = Returns r.
Proof.
  unfold call_llm_with_retry. generalize MODEL_CHAIN. intros chain. revert w.
  induction chain as [|mdl chain IH]; intros w; cbn [models]; [discriminate|].
  destruct (attempts _ _ _ _ _ mdl _ w) as [[r0|e|] w1] eqn:Hrun.
  - intros [= <- <-]. eapply attempts_returned, Hrun.
  - discriminate.
  - apply IH.
Qed.

Lemma tier_try_raises prompt w :
  (forall req n, useless json_loads (completion req n)) ->
  exists e w', tier_try completion json_loads prompt w = (Raise e, w').
Proof.
  intros Hfail. unfold tier_try.
  destruct (call_llm_with_retry _ _ _ _ _ w) as [[response|e] w'] eqn:Hcall; [|eauto].
  destruct (call_returns_from_service _ _ _ _ _ _ _ Hcall) as (req & n & Hret).
  specialize (Hfail req n). rewrite Hret in Hfail. cbn in Hfail.
  destruct (unfence (content response)) as [txt|e] eqn:Hunf; cbn; [|eauto].
  rewrite (Hfail txt eq_refl). eauto.
Qed.

Lemma failed_tier_is_empty notes_data d count w e w' :
  tier_try completion json_loads (question_prompt notes_data d count) w = (Raise e, w') ->
  _generate_questions_by_difficulty completion json_loads notes_data d count w
    = (JList [], w').
Proof.
  intros Hrun. unfold _generate_questions_by_difficulty. rewrite Hrun. reflexivity.
Qed.

Lemma tiers_all_failed notes_data mix :
  (forall req n, useless json_loads (completion req n)) ->
  forall acc w, exists w',
    tiers completion json_loads notes_data mix acc w = (Ok acc, w').
Proof.
  intros Hfail. induction mix as [|[d count] mix IH]; intros acc w; cbn [tiers]; [eauto|].
  destruct (count >? 0); [|apply IH].
  destruct (tier_try_raises (question_prompt notes_data d count) w Hfail) as (e & w1 & Hrun).
  rewrite (failed_tier_is_empty _ _ _ _ _ _ Hrun). cbn [iter].
  rewrite app_nil_r. apply IH.
Qed.
End Failures.

(** C10: an exception raised while a tier calls the service or decodes its
    response is caught and the tier contributes the empty list; when this
    happens to every tier, [generate_questions] still reports success, with
    an empty pool and [total_generated = 0]. *)
Theorem empty_pool_is_success
    (completion : service) (json_loads : string -> option json) :
  (forall notes_data d count w e w',
      tier_try completion json_loads (question_prompt notes_data d count) w = (Raise e, w') ->
      _generate_questions_by_difficulty completion json_loads notes_data d count w
        = (JList [], w'))
  /\
  ((forall req n, useless json_loads (completion req n)) ->
   forall notes_data num_questions difficulty_mix w t,
   exists w',
     generate_questions completion json_loads notes_data num_questions difficulty_mix w t
     = ({| success := true; questions := Some []; total_generated := Some 0;
           error := None |}, w', t)).
Proof.
  split; [apply failed_tier_is_empty|].
  intros Hfail notes_data num_questions difficulty_mix w t.
  unfold generate_questions.
  destruct (tiers_all_failed completion json_loads notes_data
              (match difficulty_mix with
               | Some mix => mix
               | None => default_mix num_questions
               end) Hfail [] w) as [w' Hrun].
  rewrite Hrun. exists w'. reflexivity.
Qed.

Lemma empty_pool_is_success_witness :
  exists w',
    generate_questions (fun _ _ => Raises "503 Service Unavailable") Json.loads
      sample_notes 50 None w0 [5; 3]%nat
    = ({| success := true; questions := Some []; total_generated := Some 0;
          error := None |}, w', [5; 3]%nat).
Proof.
  destruct (empty_pool_is_success (fun _ _ => Raises "503 Service Unavailable") Json.loads)
    as [_ H].
  exact (H (fun _ _ => I) sample_notes 50 None w0 [5; 3]%nat).
Defined.

(** ** Notes synthesizer *)

Lemma all_in_dict (keys : list string) (kvs : list (string * json)) :
  all_in keys (JDict kvs) = Ok true ->
  Forall (fun key => is_Some (assoc key kvs)) keys.
Proof.
  induction keys as [|key keys IH]; cbn; [constructor|].
  destruct (bool_decide (is_Some (assoc key kvs))) eqn:Hkey; [|discriminate].
  intros Hrest. constructor; [|apply IH, Hrest].
  apply bool_decide_eq_true in Hkey. exact Hkey.
Qed.

Section Notes.
Variable completion : service.
Variable json_loads : string -> option json.
Variables (transcript : string) (w : world).
Hypothesis long_enough : 100 <= Z.of_nat (String.length transcript).

Abbreviation run :=
  (call_llm_with_retry completion (Llm.notes_prompt transcript) (3 # 10) 4000 3 w).
Abbreviation outcome_of := (Llm.generate_notes completion json_loads transcript w).1.

Lemma notes_step :
  Llm.generate_notes completion json_loads transcript w =
    match run with
    | (Raise e, w') => (Llm.handlers e None, w')
    | (Ok response, w') =>
        match unfence (content response) with
        | Raise e => (Llm.handlers e (Some (content response)), w')
        | Ok txt =>
            match json_loads txt with
            | None => (Llm.unparsed JSONDecodeError (Some txt), w')
            | Some notes_data =>
                match all_in Llm.required_keys notes_data with
                | Raise e => (Llm.handlers e (Some txt), w')
                | Ok false =>
                    (Llm.failed (ValueError "LLM response missing required fields"), w')
                | Ok true =>
                    ({| Llm.success := true;
                        Llm.notes := Some notes_data;
                        Llm.usage := Some {| Llm.input := prompt_tokens response;
                                             Llm.output := completion_tokens response;
                                             Llm.total := total_tokens response |};
                        Llm.error := None;
                        Llm.raw_response := None |}, w')
                end
            end
        end
    end.
Proof.
  unfold Llm.generate_notes.
  destruct (Z.ltb_spec (Z.of_nat (String.length transcript)) 100) as [Hshort|_]; [lia|].
  reflexivity.
Qed.

(** What both handlers return is a failure without notes. *)
Lemma handlers_failure (e : exn) (text : option string) :
  Llm.success (Llm.handlers e text) = false
  /\ Llm.notes (Llm.handlers e text) = None
  /\ Llm.usage (Llm.handlers e text) = None
  /\ is_Some (Llm.error (Llm.handlers e text)).
Proof. unfold Llm.handlers. destruct (is_decode_error e); cbn; eauto. Qed.

Lemma notes_success :
  Llm.success outcome_of = true ->
  exists notes_data,
    Llm.notes outcome_of = Some notes_data
    /\ all_in Llm.required_keys notes_data = Ok true
    /\ (forall kvs, notes_data = JDict kvs ->
          Forall (fun key => is_Some (assoc key kvs)) Llm.required_keys)
    /\ Llm.error outcome_of = None.
Proof.
  rewrite notes_step.
  destruct run as [[response|e] w']; cbn [fst];
    [|intros H; rewrite (proj1 (handlers_failure _ _)) in H; discriminate].
  destruct (unfence (content response)) as [txt|e]; cbn [fst];
    [|intros H; rewrite (proj1 (handlers_failure _ _)) in H; discriminate].
  destruct (json_loads txt) as [notes_data|]; [|discriminate].
  destruct (all_in Llm.required_keys notes_data) as [[|]|e] eqn:Hall; cbn [fst];
    [|discriminate|intros H; rewrite (proj1 (handlers_failure _ _)) in H; discriminate].
  intros _. exists notes_data. cbn. repeat split; try assumption.
  intros kvs ->. apply all_in_dict, Hall.
Qed.

Lemma notes_failure :
  Llm.success outcome_of = false ->
  Llm.notes outcome_of = None /\ Llm.usage outcome_of = None
  /\ is_Some (Llm.error outcome_of).
Proof.
  rewrite notes_step.
  destruct run as [[response|e] w']; cbn [fst]; [|intros _; apply handlers_failure].
  destruct (unfence (content response)) as [txt|e]; cbn [fst];
    [|intros _; apply handlers_failure].
  destruct (json_loads txt) as [notes_data|]; [|cbn; eauto].
  destruct (all_in Llm.required_keys notes_data) as [[|]|e]; cbn [fst];
    [discriminate | cbn; eauto | intros _; apply handlers_failure].
Qed.

Lemma notes_undecodable response w' txt :
  run = (Ok response, w') ->
  unfence (content response) = Ok txt ->
  json_loads txt = None ->
  Llm.success outcome_of = false /\ Llm.raw_response outcome_of = Some txt.
Proof.
  intros Hrun Hunf Hload. rewrite notes_step, Hrun, Hunf, Hload. split; reflexivity.
Qed.

Lemma notes_call_failed e w' :
  run = (Raise e, w') -> outcome_of = Llm.handlers e None.
Proof. intros Hrun. rewrite notes_step, Hrun. reflexivity. Qed.

Lemma notes_field_missing response w' txt notes_data :
  run = (Ok response, w') ->
  unfence (content response) = Ok txt ->
  json_loads txt = Some notes_data ->
  all_in Llm.required_keys notes_data <> Ok true ->
  Llm.success outcome_of = false /\ Llm.notes outcome_of = None.
Proof.
  intros Hrun Hunf Hload Hmiss. rewrite notes_step, Hrun, Hunf, Hload.
  destruct (all_in Llm.required_keys notes_data) as [[|]|e]; cbn [fst];
    [congruence | split; reflexivity |].
  split; apply handlers_failure.
Qed.
End Notes.


(** A response that decodes to an object without [topics]: the result is
    the failure of the general handler. *)
Example notes_field_missing_run :
  (Llm.generate_notes (always (Json.text "{'summary': 's', 'key_concepts': []}"))
     Json.loads sample_transcript w0).1
  = Llm.failed (ValueError "LLM response missing required fields").
Proof. vm_compute. reflexivity. Qed.

(** The service raises a [json.JSONDecodeError] that goes through the
    retry loop: [generate_notes] reports a failure of parsing, with the
    text "No response" for the raw response. *)
Example notes_call_raises_decode_error :
  (Llm.generate_notes (fun _ _ => RaisesDecodeError "Expecting value: line 1 column 1 (char 0)")
     Json.loads sample_transcript w0).1
  = {| Llm.success := false; Llm.notes := None; Llm.usage := None;
       Llm.error :=
         Some (Fmt "Failed to parse LLM response as JSON: "
                 (ServiceDecodeError "Expecting value: line 1 column 1 (char 0)"));
       Llm.raw_response := Some "No response" |}.
Proof. vm_compute. reflexivity. Qed.



(** ** The reference codec decodes what it prints *)

Section ReferenceCodec.
Import Json.
Local Open Scope nat_scope.

Lemma append_cons (x : ascii) (a b : string) : String x a +:+ b = String x (a +:+ b).
Proof. reflexivity. Qed.

Lemma append_nil_l (a : string) : "" +:+ a = a.
Proof. reflexivity. Qed.

Lemma append_assoc (a b c : string) : (a +:+ b) +:+ c = a +:+ (b +:+ c).
Proof. induction a as [|x a IH]; rewrite ?append_cons, ?append_nil_l; [reflexivity | rewrite IH; reflexivity]. Qed.

Lemma append_nil_r (a : string) : a +:+ "" = a.
Proof. induction a as [|x a IH]; rewrite ?append_cons, ?append_nil_l; [reflexivity | rewrite IH; reflexivity]. Qed.

Lemma length_append (a b : string) :
  String.length (a +:+ b) = (String.length a + String.length b)%nat.
Proof.
  induction a as [|x a IH]; rewrite ?append_cons, ?append_nil_l; cbn [String.length];
    [reflexivity | rewrite IH; reflexivity].
Qed.

Lemma string_of_rev_append (cs : list ascii) (acc t : string) :
  string_of_rev cs acc +:+ t = string_of_rev cs (acc +:+ t).
Proof. revert acc. induction cs as [|c cs IH]; intros acc; cbn; [reflexivity | apply IH]. Qed.

Lemma parse_string_escape (c : ascii) (s : string) (acc : list ascii) :
  parse_string (escape c +:+ s) acc = parse_string s (c :: acc).
Proof. destruct c as [[] [] [] [] [] [] [] []]; reflexivity. Qed.

Lemma parse_string_escape_all (s rest : string) : forall acc,
  parse_string (escape_all s +:+ dq +:+ rest) acc = Some (string_of_rev acc "" +:+ s, rest).
Proof.
  induction s as [|c s IH]; intros acc.
  - cbn [escape_all]. rewrite append_nil_l, append_nil_r. reflexivity.
  - cbn [escape_all]. rewrite append_assoc, parse_string_escape, IH.
    rewrite !string_of_rev_append. reflexivity.
Qed.

Lemma parse_string_quote (s rest : string) :
  parse_string (escape_all s +:+ dq +:+ rest) [] = Some (s, rest).
Proof. apply parse_string_escape_all. Qed.

Lemma string_of_uint_number (d : Decimal.uint) : all_number (NilEmpty.string_of_uint d) = true.
Proof. induction d; cbn; try reflexivity; assumption. Qed.

Lemma str_number (n : Z) : all_number (str n) = true.
Proof.
  unfold str. destruct (Z.to_int n) as [d|d]; cbn; apply string_of_uint_number.
Qed.

Lemma str_nonempty (n : Z) : exists c s, str n = String c s.
Proof.
  unfold str. destruct n as [|p|p]; cbn.
  - eauto.
  - pose proof (DecimalPos.Unsigned.to_uint_nonnil p) as Hp.
    destruct (Pos.to_uint p); cbn; eauto. congruence.
  - eauto.
Qed.

Lemma span_number_append (s rest : string) :
  all_number s = true -> ends_number rest = true ->
  span_number (s +:+ rest) = (s, rest).
Proof.
  intros Hs Hrest. induction s as [|c s IH].
  - rewrite append_nil_l. destruct rest as [|c rest]; [reflexivity|].
    cbn in Hrest |- *. apply andb_prop in Hrest as [Hc _].
    unfold number_char in Hc. apply negb_true_iff in Hc. rewrite Hc. reflexivity.
  - rewrite append_cons. cbn in Hs |- *. apply andb_prop in Hs as [Hc Hs].
    unfold number_char in Hc. rewrite Hc, (IH Hs). reflexivity.
Qed.

Lemma parse_int_str (n : Z) (rest : string) :
  ends_number rest = true -> parse_int (str n +:+ rest) = Some (n, rest).
Proof.
  intros Hrest. unfold parse_int.
  rewrite (span_number_append _ _ (str_number n) Hrest).
  unfold str at 1. rewrite NilEmpty.isi, DecimalZ.of_to, String.eqb_refl.
  destruct rest as [|c rest]; [reflexivity|].
  cbn in Hrest. apply andb_prop in Hrest as [_ Hc]. apply negb_true_iff in Hc.
  rewrite Hc. reflexivity.
Qed.

Lemma json_nested_ind (P : json -> Prop) :
  P JNull -> (forall b, P (JBool b)) -> (forall n, P (JInt n)) -> (forall s, P (JStr s)) ->
  (forall xs, Forall P xs -> P (JList xs)) ->
  (forall kvs, Forall (fun kv => P kv.2) kvs -> P (JDict kvs)) ->
  forall v, P v.
Proof.
  intros Hnull Hbool Hint Hstr Hlist Hdict. fix IH 1. intros [|b|n|s|xs|kvs].
  - exact Hnull.
  - apply Hbool.
  - apply Hint.
  - apply Hstr.
  - apply Hlist. induction xs as [|x xs IHxs]; constructor; [apply IH | exact IHxs].
  - apply Hdict. induction kvs as [|[k x] kvs IHkvs]; constructor; [apply IH | exact IHkvs].
Qed.

Lemma skip_ws_idem (s : string) : skip_ws (skip_ws s) = skip_ws s.
Proof.
  induction s as [|c s IH]; [reflexivity|]. cbn.
  destruct (is_ws c) eqn:Hc; [exact IH|]. cbn. rewrite Hc. reflexivity.
Qed.

Lemma skip_ws_nl (s : string) : skip_ws (nl +:+ s) = skip_ws s.
Proof. reflexivity. Qed.

Lemma skip_ws_pad (level : nat) (s : string) : skip_ws (pad level +:+ s) = skip_ws s.
Proof. induction level as [|l IH]; [reflexivity|]. cbn [pad]. rewrite append_assoc. exact IH. Qed.

Lemma starts_value_no_ws (s : string) : starts_value s = true -> skip_ws s = s.
Proof.
  destruct s as [|c s]; [discriminate|].
  destruct c as [[] [] [] [] [] [] [] []]; try discriminate; reflexivity.
Qed.

Lemma parse_value_skip (fuel : nat) (s : string) :
  parse_value fuel (skip_ws s) = parse_value fuel s.
Proof. destruct fuel; [reflexivity|]. cbn [parse_value]. rewrite skip_ws_idem. reflexivity. Qed.

Lemma parse_items_skip (fuel : nat) (s : string) (acc : list json) :
  parse_items fuel (skip_ws s) acc = parse_items fuel s acc.
Proof. destruct fuel; [reflexivity|]. cbn [parse_items]. rewrite parse_value_skip. reflexivity. Qed.

Lemma parse_pairs_skip (fuel : nat) (s : string) (acc : list (string * json)) :
  parse_pairs fuel (skip_ws s) acc = parse_pairs fuel s acc.
Proof. destruct fuel; [reflexivity|]. cbn [parse_pairs]. rewrite skip_ws_idem. reflexivity. Qed.

Lemma substring_all (s : string) : String.substring 0 (String.length s) s = s.
Proof. induction s as [|c s IH]; cbn; [reflexivity | rewrite IH; reflexivity]. Qed.

Lemma parse_null (fuel : nat) (rest : string) :
  parse_value (S fuel) ("null" +:+ rest) = Some (JNull, rest).
Proof.
  rewrite !append_cons, append_nil_l. simpl. unfold expect. simpl.
  rewrite Nat.sub_0_r, substring_all. destruct rest; reflexivity.
Qed.

Lemma parse_true (fuel : nat) (rest : string) :
  parse_value (S fuel) ("true" +:+ rest) = Some (JBool true, rest).
Proof.
  rewrite !append_cons, append_nil_l. simpl. unfold expect. simpl.
  rewrite Nat.sub_0_r, substring_all. destruct rest; reflexivity.
Qed.

Lemma parse_false (fuel : nat) (rest : string) :
  parse_value (S fuel) ("false" +:+ rest) = Some (JBool false, rest).
Proof.
  rewrite !append_cons, append_nil_l. simpl. unfold expect. simpl.
  rewrite Nat.sub_0_r, substring_all. destruct rest; reflexivity.
Qed.

Lemma parse_number (fuel : nat) (s : string) :
  match s with String c _ => number_char c | EmptyString => false end = true ->
  parse_value (S fuel) s =
    match parse_int s with
    | Some (n, rest) => Some (JInt n, rest)
    | None => None
    end.
Proof.
  destruct s as [|c s]; [discriminate|].
  destruct c as [[] [] [] [] [] [] [] []]; try discriminate; reflexivity.
Qed.

Lemma parse_str (fuel : nat) (s rest : string) :
  parse_value (S fuel) (quote s +:+ rest) = Some (JStr s, rest).
Proof.
  unfold quote. rewrite !append_assoc.
  change (dq +:+ escape_all s +:+ dq +:+ rest)
    with (String (ascii_of_nat 34) (escape_all s +:+ dq +:+ rest)).
  simpl. rewrite parse_string_quote. reflexivity.
Qed.

(** One round of the three loops *)

Lemma parse_items_eq (fuel : nat) (s : string) (acc : list json) :
  parse_items (S fuel) s acc =
    match parse_value fuel s with
    | None => None
    | Some (v, rest) =>
        match skip_ws rest with
        | String c rest' =>
            if (code c =? 44)%nat then parse_items fuel rest' (acc ++ [v])
            else if (code c =? 93)%nat then Some (JList (acc ++ [v]), rest')
            else None
        | EmptyString => None
        end
    end.
Proof. reflexivity. Qed.

Lemma parse_pairs_eq (fuel : nat) (s : string) (acc : list (string * json)) :
  parse_pairs (S fuel) s acc =
    match skip_ws s with
    | String q rest =>
        if (code q =? 34)%nat then
          match parse_string rest [] with
          | None => None
          | Some (key, rest) =>
              match skip_ws rest with
              | String c rest =>
                  if (code c =? 58)%nat then
                    match parse_value fuel rest with
                    | None => None
                    | Some (v, rest) =>
                        match skip_ws rest with
                        | String c rest' =>
                            if (code c =? 44)%nat
                            then parse_pairs fuel rest' (dict_set key v acc)
                            else if (code c =? 125)%nat
                            then Some (JDict (dict_set key v acc), rest')
                            else None
                        | EmptyString => None
                        end
                    end
                  else None
              | EmptyString => None
              end
          end
        else None
    | EmptyString => None
    end.
Proof. reflexivity. Qed.

Lemma open_list (fuel level : nat) (s : string) :
  starts_value s = true ->
  parse_value (S fuel) ("[" +:+ nl +:+ pad level +:+ s) = parse_items fuel s [].
Proof.
  intros Hs. rewrite append_cons, append_nil_l. simpl.
  rewrite append_nil_l, skip_ws_pad, (starts_value_no_ws s Hs).
  destruct s as [|c s]; [discriminate|].
  destruct c as [[] [] [] [] [] [] [] []]; try discriminate; reflexivity.
Qed.

Lemma open_dict (fuel level : nat) (s : string) :
  starts_value s = true ->
  parse_value (S fuel) ("{" +:+ nl +:+ pad level +:+ s) = parse_pairs fuel s [].
Proof.
  intros Hs. rewrite append_cons, append_nil_l. simpl.
  rewrite append_nil_l, skip_ws_pad, (starts_value_no_ws s Hs).
  destruct s as [|c s]; [discriminate|].
  destruct c as [[] [] [] [] [] [] [] []]; try discriminate; reflexivity.
Qed.

Lemma dumps_starts (level : nat) (v : json) : starts_value (dumps_at level v) = true.
Proof.
  destruct v as [|[|]|n|s|[|x xs]|[|[k x] kvs]]; try reflexivity.
  destruct (str_nonempty n) as (c & s & Hn). pose proof (str_number n) as Hall.
  cbn [dumps_at]. rewrite Hn in Hall |- *. cbn in Hall |- *.
  apply andb_prop in Hall as [Hc _]. rewrite Hc. reflexivity.
Qed.

Lemma ends_number_more_items level xs rest :
  ends_number (more_items level xs +:+ nl +:+ rest) = true.
Proof. destruct xs as [|y xs]; reflexivity. Qed.

Lemma ends_number_more_pairs level kvs rest :
  ends_number (more_pairs level kvs +:+ nl +:+ rest) = true.
Proof. destruct kvs as [|[k y] kvs]; reflexivity. Qed.

Lemma parse_items_dumps (level : nat) (rest : string) : forall xs x acc fuel,
  Forall parses (x :: xs) ->
  (items_size (x :: xs) <= fuel)%nat ->
  parse_items fuel
    (dumps_at (S level) x +:+ more_items level xs +:+ nl +:+ pad level +:+ "]" +:+ rest) acc
  = Some (JList (acc ++ x :: xs), rest).
Proof.
  induction xs as [|y xs IH]; intros x acc fuel Hall Hfuel;
    apply Forall_cons in Hall as [Hx Hxs];
    (destruct fuel as [|fuel]; [cbn in Hfuel; lia|]);
    rewrite parse_items_eq, Hx;
    [ | cbn in Hfuel; lia | apply ends_number_more_items
      | | cbn in Hfuel; lia | apply ends_number_more_items ].
  - cbn [more_items]. rewrite append_nil_l, skip_ws_nl, skip_ws_pad. reflexivity.
  - cbn [more_items]. rewrite !append_assoc, append_cons, append_nil_l.
    simpl skip_ws. cbv iota. simpl.
    change ("  " +:+ pad level) with (pad (S level)).
    rewrite <- parse_items_skip, skip_ws_nl, skip_ws_pad, parse_items_skip.
    rewrite IH; [|exact Hxs | cbn in Hfuel |- *; lia].
    rewrite <- app_assoc. reflexivity.
Qed.

Lemma dict_set_fresh (key : string) (v : json) (acc : list (string * json)) :
  key ∉ acc.*1 -> dict_set key v acc = acc ++ [(key, v)].
Proof. intros Hk. unfold dict_set. apply assoc_None in Hk. rewrite Hk. reflexivity. Qed.

Lemma skip_ws_value (s t : string) :
  starts_value s = true -> skip_ws (s +:+ t) = s +:+ t.
Proof.
  intros Hs. destruct s as [|c s]; [discriminate|].
  rewrite append_cons. apply starts_value_no_ws. exact Hs.
Qed.

Lemma pair_round (fuel level : nat) (k : string) (x : json) (rest : string)
    (acc : list (string * json)) :
  parses x -> (size x <= fuel)%nat -> ends_number rest = true ->
  parse_pairs (S fuel) (quote k +:+ ": " +:+ dumps_at level x +:+ rest) acc =
    match skip_ws rest with
    | String c rest' =>
        if (code c =? 44)%nat then parse_pairs fuel rest' (dict_set k x acc)
        else if (code c =? 125)%nat then Some (JDict (dict_set k x acc), rest')
        else None
    | EmptyString => None
    end.
Proof.
  intros Hx Hfuel Hrest. rewrite parse_pairs_eq.
  unfold quote. rewrite !append_assoc.
  change (dq +:+ escape_all k +:+ dq +:+ ": " +:+ dumps_at level x +:+ rest)
    with (String (ascii_of_nat 34)
            (escape_all k +:+ dq +:+ String ":" (String " " (dumps_at level x +:+ rest)))).
  simpl skip_ws. cbv iota. simpl (code _ =? _)%nat. cbv iota.
  rewrite parse_string_quote. simpl skip_ws. cbv iota. simpl (code _ =? _)%nat. cbv iota.
  rewrite <- parse_value_skip. simpl skip_ws.
  rewrite (skip_ws_value _ _ (dumps_starts level x)).
  rewrite (Hx level rest fuel Hfuel Hrest). reflexivity.
Qed.

Lemma parse_pairs_dumps (level : nat) (rest : string) : forall kvs k x acc fuel,
  Forall (fun kv => parses kv.2) ((k, x) :: kvs) ->
  NoDup (acc.*1 ++ k :: kvs.*1) ->
  (pairs_size ((k, x) :: kvs) <= fuel)%nat ->
  parse_pairs fuel
    (quote k +:+ ": " +:+ dumps_at (S level) x +:+ more_pairs level kvs
     +:+ nl +:+ pad level +:+ "}" +:+ rest) acc
  = Some (JDict (acc ++ (k, x) :: kvs), rest).
Proof.
  induction kvs as [|[k' y] kvs IH]; intros k x acc fuel Hall Hnd Hfuel;
    apply Forall_cons in Hall as [Hx Hkvs]; cbn [snd] in Hx;
    (destruct fuel as [|fuel]; [cbn in Hfuel; lia|]);
    (rewrite pair_round;
       [|exact Hx | cbn in Hfuel; lia | apply ends_number_more_pairs]);
    (rewrite dict_set_fresh;
       [|apply NoDup_app in Hnd as (_ & Hnd & _); intros Hin; apply (Hnd k Hin); left]).
  - cbn [more_pairs]. rewrite append_nil_l, skip_ws_nl, skip_ws_pad. reflexivity.
  - cbn [more_pairs]. rewrite !append_assoc, append_cons, append_nil_l.
    simpl skip_ws. cbv iota. simpl (code _ =? _)%nat. cbv iota.
    change ("  " +:+ pad level) with (pad (S level)).
    rewrite <- parse_pairs_skip, skip_ws_nl, skip_ws_pad, parse_pairs_skip.
    rewrite IH; [rewrite <- app_assoc; reflexivity | exact Hkvs | | cbn in Hfuel |- *; lia].
    rewrite fmap_app, <- app_assoc. exact Hnd.
Qed.

Lemma unique_keys_list (xs : list json) :
  unique_keys (JList xs) <-> Forall unique_keys xs.
Proof.
  induction xs as [|x xs IH]; [split; [constructor | exact (fun _ => I)]|].
  rewrite Forall_cons. change (unique_keys (JList (x :: xs)))
    with (unique_keys x /\ unique_keys (JList xs)). rewrite IH. reflexivity.
Qed.

Lemma unique_keys_dict (kvs : list (string * json)) :
  unique_keys (JDict kvs) <-> NoDup kvs.*1 /\ Forall (fun kv => unique_keys kv.2) kvs.
Proof.
  cbn [unique_keys]. apply and_iff_compat_l.
  induction kvs as [|[k x] kvs IH]; [split; [constructor | exact (fun _ => I)]|].
  rewrite Forall_cons, <- IH. reflexivity.
Qed.

Lemma starts_value_append (s t : string) :
  starts_value s = true -> starts_value (s +:+ t) = true.
Proof. destruct s as [|c s]; [discriminate|]. rewrite append_cons. exact (fun H => H). Qed.

Lemma parse_dumps (v : json) : unique_keys v -> parses v.
Proof.
  induction v as [|b|n|s|xs IH|kvs IH] using json_nested_ind;
    intros Huniq level rest fuel Hfuel Hrest;
    (destruct fuel as [|fuel]; [cbn in Hfuel; lia|]).
  - apply parse_null.
  - destruct b; [apply parse_true | apply parse_false].
  - rewrite parse_number.
    + cbn [dumps_at]. rewrite (parse_int_str n rest Hrest). reflexivity.
    + cbn [dumps_at].
      destruct (str_nonempty n) as (c & s & Hn). pose proof (str_number n) as Hall.
      rewrite Hn in Hall |- *. rewrite append_cons. cbn in Hall.
      apply andb_prop in Hall as [Hc _]. exact Hc.
  - apply parse_str.
  - apply unique_keys_list in Huniq.
    destruct xs as [|x xs]; [reflexivity|].
    change (dumps_at level (JList (x :: xs)))
      with ("[" +:+ nl +:+ pad (S level) +:+ dumps_at (S level) x +:+ more_items level xs
            +:+ nl +:+ pad level +:+ "]").
    rewrite !append_assoc.
    rewrite (open_list fuel (S level)) by apply starts_value_append, dumps_starts.
    apply (parse_items_dumps level rest xs x []).
    + eapply Forall_impl; [apply Forall_and; split; [exact IH | exact Huniq]|].
      intros v [Hv Hu]. exact (Hv Hu).
    + change (size (JList (x :: xs))) with (S (items_size (x :: xs))) in Hfuel. lia.
  - apply unique_keys_dict in Huniq as [Hnd Huniq].
    destruct kvs as [|[k x] kvs]; [reflexivity|].
    change (dumps_at level (JDict ((k, x) :: kvs)))
      with ("{" +:+ nl +:+ pad (S level) +:+ quote k +:+ ": " +:+ dumps_at (S level) x
            +:+ more_pairs level kvs +:+ nl +:+ pad level +:+ "}").
    rewrite !append_assoc.
    rewrite (open_dict fuel (S level)) by reflexivity.
    apply (parse_pairs_dumps level rest kvs k x []).
    + eapply Forall_impl; [apply Forall_and; split; [exact IH | exact Huniq]|].
      intros kv [Hv Hu]. exact (Hv Hu).
    + exact Hnd.
    + change (size (JDict ((k, x) :: kvs))) with (S (pairs_size ((k, x) :: kvs))) in Hfuel. lia.
Qed.

Lemma quote_length (s : string) : (2 <= String.length (quote s))%nat.
Proof. unfold quote. rewrite !length_append. cbn. lia. Qed.

Lemma size_le_length (v : json) : forall level, (size v <= String.length (dumps_at level v))%nat.
Proof.
  induction v as [|b|n|s|xs IH|kvs IH] using json_nested_ind; intros level.
  - cbn. lia.
  - destruct b; cbn; lia.
  - cbn [size dumps_at]. destruct (str_nonempty n) as (c & s & ->). cbn. lia.
  - cbn [size dumps_at]. pose proof (quote_length s). lia.
  - destruct xs as [|x xs]; [cbn; lia|].
    change (dumps_at level (JList (x :: xs)))
      with ("[" +:+ nl +:+ pad (S level) +:+ dumps_at (S level) x +:+ more_items level xs
            +:+ nl +:+ pad level +:+ "]").
    change (size (JList (x :: xs))) with (S (S (size x + items_size xs))).
    apply Forall_cons in IH as [Hx Hxs]. specialize (Hx (S level)).
    assert (Hmore : (items_size xs <= String.length (more_items level xs))%nat).
    { clear Hx. induction Hxs as [|y xs Hy _ IHxs]; [cbn; lia|].
      cbn [items_size more_items]. rewrite !length_append. specialize (Hy (S level)).
      cbn [String.length]. lia. }
    rewrite !length_append. cbn [String.length]. lia.
  - destruct kvs as [|[k x] kvs]; [cbn; lia|].
    change (dumps_at level (JDict ((k, x) :: kvs)))
      with ("{" +:+ nl +:+ pad (S level) +:+ quote k +:+ ": " +:+ dumps_at (S level) x
            +:+ more_pairs level kvs +:+ nl +:+ pad level +:+ "}").
    change (size (JDict ((k, x) :: kvs))) with (S (S (size x + pairs_size kvs))).
    apply Forall_cons in IH as [Hx Hkvs]. cbn [snd] in Hx. specialize (Hx (S level)).
    assert (Hmore : (pairs_size kvs <= String.length (more_pairs level kvs))%nat).
    { clear Hx. induction Hkvs as [|[k' y] kvs Hy _ IHkvs]; [cbn; lia|].
      cbn [pairs_size more_pairs]. rewrite !length_append. cbn [snd] in Hy.
      specialize (Hy (S level)). cbn [String.length]. lia. }
    rewrite !length_append. cbn [String.length]. lia.
Qed.

(** The reference codec decodes what it prints. *)
Lemma loads_dumps (v : json) : unique_keys v -> loads (dumps v) = Some v.
Proof.
  intros Huniq. unfold loads, dumps.
  rewrite <- (append_nil_r (dumps_at 0 v)) at 2.
  rewrite (parse_dumps v Huniq 0 "" (S (String.length (dumps_at 0 v)))).
  - reflexivity.
  - pose proof (size_le_length v 0). lia.
  - reflexivity.
Qed.
End ReferenceCodec.

(** ** Session cache *)

(** *** Paths *)

Lemma str_in_cons (sub : string) (c : ascii) (s : string) :
  str_in sub (String c s) = String.prefix sub (String c s) || str_in sub s.
Proof. reflexivity. Qed.

Lemma str_in_nil (sub : string) : str_in sub "" = String.prefix sub "".
Proof. cbn [str_in]. apply orb_false_r. Qed.

Lemma append_cancel_l (a x y : string) : a +:+ x = a +:+ y -> x = y.
Proof.
  induction a as [|c a IH]; [trivial|].
  rewrite !append_cons. intros [= H]. apply IH, H.
Qed.

Lemma append_cancel_r (a x y : string) : x +:+ a = y +:+ a -> x = y.
Proof.
  revert y. induction x as [|c x IH]; intros [|d y] H.
  - reflexivity.
  - apply (f_equal String.length) in H. rewrite append_nil_l, length_append in H.
    cbn [String.length] in H. lia.
  - apply (f_equal String.length) in H. rewrite append_nil_l, length_append in H.
    cbn [String.length] in H. lia.
  - rewrite !append_cons in H. injection H as -> H. f_equal. apply IH, H.
Qed.

Lemma file_name_not_rooted (video_id : string) :
  file_name video_id -> String.prefix "/" (video_id +:+ ".json") = false.
Proof.
  unfold file_name. destruct video_id as [|c s]; [reflexivity|].
  rewrite str_in_cons, append_cons. intros H. apply orb_false_iff in H as [H _].
  cbn [String.prefix] in *. destruct (ascii_dec "/" c); [|reflexivity].
  destruct s; discriminate.
Qed.

(** No two video ids without a slash share a file. *)
Lemma session_path_inj (self : Storage.SessionStorage) (id1 id2 : string) :
  file_name id1 -> file_name id2 ->
  Storage.session_path self id1 = Storage.session_path self id2 -> id1 = id2.
Proof.
  intros H1 H2. unfold Storage.session_path, Storage.path_join.
  rewrite (file_name_not_rooted _ H1), (file_name_not_rooted _ H2).
  destruct (String.eqb (Storage.storage_dir self) ""); [apply append_cancel_r|].
  destruct (String.eqb _ "/"); intros H.
  - apply append_cancel_l in H. eapply append_cancel_r, H.
  - apply append_cancel_l, append_cancel_l in H. eapply append_cancel_r, H.
Qed.

(** A slash occurs in a text put together when it occurs in one of the
    parts. *)
Lemma slash_in_append (a b : string) :
  str_in "/" (a +:+ b) = str_in "/" a || str_in "/" b.
Proof.
  induction a as [|c a IH].
  - rewrite append_nil_l, str_in_nil. reflexivity.
  - rewrite append_cons, !str_in_cons, IH, orb_assoc. f_equal.
    cbn [String.prefix]. destruct (ascii_dec "/" c); [|reflexivity].
    destruct (a +:+ b), a; reflexivity.
Qed.

(** The head of a path does not depend on a file name without slash. *)
Lemma head_file_name (pre name : string) :
  str_in "/" name = false -> Storage.head (pre +:+ name) = Storage.head pre.
Proof.
  intros Hname. induction pre as [|c pre IH].
  - rewrite append_nil_l. destruct name as [|c s]; [reflexivity|].
    cbn [Storage.head]. rewrite Hname. reflexivity.
  - rewrite append_cons. cbn [Storage.head]. rewrite IH.
    rewrite <- append_cons, slash_in_append, Hname, orb_false_r. reflexivity.
Qed.

(** The cache files of the video ids without a slash lie in one
    directory, the one [os.makedirs(storage_dir)] makes. *)
Lemma dirname_session_path (self : Storage.SessionStorage) (video_id : string) :
  file_name video_id ->
  Storage.dirname (Storage.session_path self video_id)
  = Storage.dirname (Storage.path_join (Storage.storage_dir self) "").
Proof.
  intros Hname. unfold Storage.session_path, Storage.path_join.
  rewrite (file_name_not_rooted _ Hname).
  assert (Hfile : str_in "/" (video_id +:+ ".json") = false)
    by (rewrite slash_in_append, Hname; reflexivity).
  change (String.prefix "/" "") with false. cbv iota.
  unfold Storage.dirname.
  destruct (String.eqb (Storage.storage_dir self) "").
  - rewrite <- (append_nil_l (video_id +:+ ".json")), (head_file_name "" _ Hfile).
    reflexivity.
  - destruct (String.eqb _ "/").
    + rewrite (head_file_name _ _ Hfile), append_nil_r. reflexivity.
    + rewrite <- (append_assoc _ "/" (video_id +:+ ".json")), (head_file_name _ _ Hfile).
      reflexivity.
Qed.

Lemma fresh_dirs (path : string) : path ∈ Storage.dirs fresh <-> path = "data".
Proof. unfold fresh. cbn [Storage.dirs]. apply elem_of_singleton. Qed.

(** In the fresh file system the cache file of every video id without a
    slash can be created. *)
Lemma fresh_writable (video_id : string) :
  file_name video_id -> cache_file_writable data_dir video_id fresh.
Proof.
  intros Hname. unfold cache_file_writable. cbv zeta. split.
  - intros Hin. apply fresh_dirs in Hin.
    apply (f_equal (str_in "/")) in Hin. revert Hin.
    unfold Storage.session_path, Storage.path_join.
    rewrite (file_name_not_rooted _ Hname). cbn [data_dir Storage.storage_dir].
    change (String.eqb "data" "") with false.
    change (String.eqb (String.substring (String.length "data" - 1) 1 "data") "/") with false.
    cbv iota. rewrite (slash_in_append "data" _), (slash_in_append "/" _).
    change (str_in "/" "/") with true. rewrite orb_true_r. discriminate.
  - right. rewrite (dirname_session_path _ _ Hname). apply fresh_dirs. reflexivity.
Qed.

(** The encoder writes a decoded value as it is. *)
Lemma encode_value_of (v : json) : Json.encode (value_of v) = v.
Proof.
  induction v as [|b|n|s|xs IH|kvs IH] using json_nested_ind; cbn; try reflexivity.
  - f_equal. induction IH as [|x xs Hx _ IHxs]; cbn; [reflexivity|].
    rewrite Hx, IHxs. reflexivity.
  - f_equal. induction IH as [|[k x] kvs Hx _ IHkvs]; cbn in *; [reflexivity|].
    rewrite Hx, IHkvs. reflexivity.
Qed.

Section CacheFile.
Import Storage.

Lemma write_text_writable (path text : string) (fs : filesystem) :
  path ∉ dirs fs ->
  dirname path = "" \/ dirname path ∈ dirs fs ->
  write_text path text fs
  = (Ok tt, {| dirs := dirs fs; files := <[path := text]> (files fs) |}).
Proof.
  intros Hfile Hdir. unfold write_text.
  rewrite bool_decide_eq_false_2 by exact Hfile.
  destruct Hdir as [->|Hdir]; [reflexivity|].
  rewrite (bool_decide_eq_true_2 _ Hdir), orb_true_r. reflexivity.
Qed.

(** Without a directory for the file, or with a directory in its place,
    nothing is written. *)
Lemma write_text_not_writable (path text : string) (fs : filesystem) :
  ~ ((path ∉ dirs fs) /\ (dirname path = "" \/ dirname path ∈ dirs fs)) ->
  exists e, write_text path text fs = (Raise e, fs)
            /\ (path ∉ dirs fs -> files fs !! dirname path = None -> e = FileNotFoundError).
Proof.
  intros Hnot. unfold write_text.
  destruct (decide (path ∈ dirs fs)) as [Hin|Hout].
  - rewrite (bool_decide_eq_true_2 _ Hin). eexists. split; [reflexivity|]. contradiction.
  - rewrite (bool_decide_eq_false_2 _ Hout).
    destruct (String.eqb_spec (dirname path) "") as [Hcwd|Hsub]; [tauto|].
    destruct (decide (dirname path ∈ dirs fs)) as [Hdir|Hnodir]; [tauto|].
    rewrite (bool_decide_eq_false_2 _ Hnodir). cbn [orb].
    destruct (files fs !! dirname path) as [text'|] eqn:Hparent.
    + rewrite bool_decide_eq_true_2 by eauto. eexists. split; [reflexivity|]. discriminate.
    + rewrite bool_decide_eq_false_2 by (intros [? ?]; discriminate).
      eexists. split; reflexivity.
Qed.

Lemma save_session_writable (json_dump : value -> string) (now : string)
    (self : SessionStorage) (video_id : string) (T N Q : value) (fs : filesystem) :
  cache_file_writable self video_id fs ->
  save_session json_dump now self video_id T N Q fs
  = (Ok (session_path self video_id),
     {| dirs := dirs fs;
        files := <[session_path self video_id
                     := json_dump (session_data now video_id T N Q)]> (files fs) |}).
Proof.
  intros [Hfile Hdir]. unfold save_session.
  rewrite (write_text_writable _ _ _ Hfile Hdir). reflexivity.
Qed.

Lemma save_session_not_writable (json_dump : value -> string) (now : string)
    (self : SessionStorage) (video_id : string) (T N Q : value) (fs : filesystem) :
  ~ cache_file_writable self video_id fs ->
  exists e, save_session json_dump now self video_id T N Q fs = (Raise e, fs).
Proof.
  intros Hnot. unfold save_session.
  destruct (write_text_not_writable (session_path self video_id)
              (json_dump (session_data now video_id T N Q)) fs Hnot) as (e & -> & _).
  exists e. reflexivity.
Qed.

(** A save changes no more than the one file. *)
Lemma save_session_files (json_dump : value -> string) (now : string)
    (self : SessionStorage) (video_id : string) (T N Q : value) (fs : filesystem) :
  let fs' := (save_session json_dump now self video_id T N Q fs).2 in
  dirs fs' = dirs fs
  /\ forall path, path <> session_path self video_id -> files fs' !! path = files fs !! path.
Proof.
  cbn zeta. unfold save_session, write_text.
  repeat match goal with |- context [if ?b then _ else _] => destruct b end;
    cbn [snd dirs files]; split; try reflexivity.
  intros path Hne. apply lookup_insert_ne. congruence.
Qed.

Lemma load_session_file (json_load : string -> result json)
    (self : SessionStorage) (video_id text : string) (fs : filesystem) :
  files fs !! session_path self video_id = Some text ->
  session_exists self video_id fs = true
  /\ load_session json_load self video_id fs = json_load text.
Proof.
  intros Hfile. unfold session_exists, load_session, path_exists.
  rewrite bool_decide_eq_true_2 by eauto. cbn [orb]. rewrite Hfile. split; reflexivity.
Qed.
End CacheFile.

(** Whether the cache file can be created is decided by the file
    system. *)
Lemma writable_or_not (self : Storage.SessionStorage) (video_id : string)
    (fs : Storage.filesystem) :
  cache_file_writable self video_id fs \/ ~ cache_file_writable self video_id fs.
Proof.
  unfold cache_file_writable. cbv zeta.
  destruct (decide (Storage.session_path self video_id ∈ Storage.dirs fs)); [tauto|].
  destruct (decide (Storage.dirname (Storage.session_path self video_id) = "")); [tauto|].
  destruct (decide (Storage.dirname (Storage.session_path self video_id) ∈ Storage.dirs fs));
    tauto.
Qed.




(** The text written for a small session. *)
Example saved_text :
  Json.dump (Storage.session_data "2024-05-01T10:00:00" "abc" (VStr "Hello")
               (VDict [("summary", VStr "s")]) (VList []))
  = Json.text (join nl
      [ "{";
        "  'video_id': 'abc',";
        "  'timestamp': '2024-05-01T10:00:00',";
        "  'transcript': 'Hello',";
        "  'notes': {";
        "    'summary': 's'";
        "  },";
        "  'questions': []";
        "}" ]).
Proof. vm_compute. reflexivity. Qed.

(** * Further properties of the code *)

(** ** Generation client: budget, backoff and fallback *)

Section RetryBudget.
Variable completion : service.
Variables (msgs : string) (temp : Q) (max_toks : Z).
Variable max_retries : Z.

Abbreviation attempts := (attempts completion msgs temp max_toks max_retries).
Abbreviation models := (models completion msgs temp max_toks max_retries).
Abbreviation request_of mdl :=
  {| model := mdl; messages := msgs; temperature := temp; max_tokens := max_toks |}.

Lemma backoff_wait_bounded attempt :
  0 <= attempt -> attempt < max_retries - 1 ->
  bounded_wait max_retries (2 ^ attempt * 2).
Proof.
  intros H0 Hlt. unfold bounded_wait.
  assert (0 < 2 ^ attempt) by (apply Z.pow_pos_nonneg; lia).
  split; [lia|].
  replace (2 ^ attempt * 2) with (2 ^ (attempt + 1)) by (rewrite Z.pow_add_r by lia; lia).
  etransitivity; [|apply Z.le_max_r].
  apply Z.pow_le_mono_r; lia.
Qed.

Lemma fixed_wait_bounded : bounded_wait max_retries 2.
Proof. unfold bounded_wait. lia. Qed.

(** One model: every attempt costs one call, a wait follows a call, and
    every wait is bounded. *)
Lemma attempts_budget mdl todo : forall w exit w',
  Forall (fun attempt => 0 <= attempt) todo ->
  attempts mdl todo w = (exit, w') ->
  (calls w <= calls w' <= calls w + length todo)%nat /\
  exists pauses,
    slept w' = slept w ++ pauses /\
    (length pauses <= calls w' - calls w)%nat /\
    Forall (bounded_wait max_retries) pauses.
Proof.
  induction todo as [|attempt rest IH]; intros w exit w' Hpos Hrun.
  - cbn in Hrun. injection Hrun as <- <-. split; [cbn; lia|].
    exists []. rewrite app_nil_r. repeat split; [cbn; lia | constructor].
  - apply Forall_cons in Hpos as [Ha Hpos].
    cbn [Client.attempts] in Hrun.
    assert (Hdone : forall x, (x, tick w) = (exit, w') ->
      (calls w <= calls w' <= calls w + length (attempt :: rest))%nat /\
      exists pauses, slept w' = slept w ++ pauses /\
        (length pauses <= calls w' - calls w)%nat /\
        Forall (bounded_wait max_retries) pauses).
    { intros x Hx. injection Hx as _ <-. split; [cbn; lia|].
      exists []. rewrite app_nil_r. repeat split; [cbn; lia | constructor]. }
    assert (Hmore : forall secs, bounded_wait max_retries secs ->
      attempts mdl rest (sleep secs (tick w)) = (exit, w') ->
      (calls w <= calls w' <= calls w + length (attempt :: rest))%nat /\
      exists pauses, slept w' = slept w ++ pauses /\
        (length pauses <= calls w' - calls w)%nat /\
        Forall (bounded_wait max_retries) pauses).
    { intros secs Hsecs Hrest.
      destruct (IH _ _ _ Hpos Hrest) as (Hcalls & pauses & Hslept & Hlen & Hall).
      cbn in Hcalls, Hslept, Hlen. split; [cbn; lia|].
      exists (secs :: pauses). rewrite Hslept, <- app_assoc. cbn.
      repeat split; [lia | constructor; assumption]. }
    destruct (completion _ (calls w)) as [r|error_str|error_str];
      [eapply Hdone, Hrun| |];
      (destruct (is_transient error_str);
       [destruct (attempt <? max_retries - 1) eqn:Hlast; [|eapply Hdone, Hrun];
        apply Z.ltb_lt in Hlast;
        eapply Hmore; [|exact Hrun]; apply backoff_wait_bounded; assumption|]);
      (destruct (is_unavailable error_str); [eapply Hdone, Hrun|]);
      (destruct (attempt =? max_retries - 1); [eapply Hdone, Hrun|]);
      (eapply Hmore; [|exact Hrun]; apply fixed_wait_bounded).
Qed.

Lemma range_nonneg n : Forall (fun attempt => 0 <= attempt) (range n).
Proof.
  unfold range. apply Forall_forall. intros x Hx.
  apply list_elem_of_fmap in Hx as (k & -> & _). lia.
Qed.

Lemma length_range n : length (range n) = Z.to_nat n.
Proof. unfold range. rewrite length_map, length_seq. reflexivity. Qed.

Lemma models_budget chain : forall w res w',
  models chain w = (res, w') ->
  (calls w <= calls w' <= calls w + length chain * Z.to_nat max_retries)%nat /\
  exists pauses,
    slept w' = slept w ++ pauses /\
    (length pauses <= calls w' - calls w)%nat /\
    Forall (bounded_wait max_retries) pauses.
Proof.
  induction chain as [|mdl rest IH]; intros w res w' Hrun.
  - cbn in Hrun. injection Hrun as <- <-. split; [cbn; lia|].
    exists []. rewrite app_nil_r. repeat split; [cbn; lia | constructor].
  - cbn [Client.models] in Hrun.
    destruct (attempts mdl (range max_retries) w) as [exit w1] eqn:Hone.
    destruct (attempts_budget _ _ _ _ _ (range_nonneg _) Hone)
      as (Hcalls & pauses & Hslept & Hlen & Hall).
    rewrite length_range in Hcalls.
    destruct exit as [r|e|].
    + injection Hrun as <- <-. split; [cbn [length]; lia|].
      exists pauses. auto.
    + injection Hrun as <- <-. split; [cbn [length]; lia|].
      exists pauses. auto.
    + destruct (IH _ _ _ Hrun) as (Hcalls' & pauses' & Hslept' & Hlen' & Hall').
      split; [cbn [length]; lia|].
      exists (pauses ++ pauses'). rewrite Hslept', Hslept, <- app_assoc.
      repeat split; [rewrite length_app; lia | apply Forall_app; auto].
Qed.

(** One round of the loop on a transient failure. *)
Lemma attempts_transient_step mdl attempt rest w error_str :
  raises (completion (request_of mdl) (calls w)) error_str ->
  is_transient error_str = true ->
  attempts mdl (attempt :: rest) w =
    if attempt <? max_retries - 1
    then attempts mdl rest (sleep (2 ^ attempt * 2) (tick w))
    else (NextModel, tick w).
Proof.
  intros [Hcall|Hcall] Ht; cbn [Client.attempts]; rewrite Hcall, Ht; reflexivity.
Qed.

(** When every call fails with a transient error, the attempts numbered
    [a], .. [a+m] of one model, the last being attempt [max_retries - 1],
    make [m+1] calls and wait after each but the last. *)
Lemma attempts_all_transient mdl :
  (forall req n, exists e, raises (completion req n) e /\ is_transient e = true) ->
  forall m a w,
    Z.of_nat (a + m) = max_retries - 1 ->
    attempts mdl (map Z.of_nat (seq a (S m))) w =
      (NextModel,
       {| calls := calls w + S m;
          slept := slept w ++ map (fun attempt => 2 ^ attempt * 2)
                                  (map Z.of_nat (seq a m)) |}).
Proof.
  intros Hall. induction m as [|m IH]; intros a w Hlast.
  - destruct (Hall (request_of mdl) (calls w)) as (e & Hcall & Ht).
    cbn [seq map]. rewrite (attempts_transient_step _ _ _ _ _ Hcall Ht).
    replace (Z.of_nat a <? max_retries - 1) with false by (symmetry; apply Z.ltb_ge; lia).
    unfold tick. destruct w as [c s]; cbn. rewrite app_nil_r. do 2 f_equal. lia.
  - destruct (Hall (request_of mdl) (calls w)) as (e & Hcall & Ht).
    change (seq a (S (S m))) with (a :: seq (S a) (S m)). cbn [map].
    rewrite (attempts_transient_step _ _ _ _ _ Hcall Ht).
    replace (Z.of_nat a <? max_retries - 1) with true by (symmetry; apply Z.ltb_lt; lia).
    rewrite IH by lia. destruct w as [c s]; cbn. f_equal. f_equal.
    + lia.
    + rewrite <- app_assoc. reflexivity.
Qed.

Lemma models_all_transient :
  (forall req n, exists e, raises (completion req n) e /\ is_transient e = true) ->
  0 < max_retries ->
  forall chain w,
    models chain w =
      (Raise all_models_failed,
       {| calls := calls w + length chain * Z.to_nat max_retries;
          slept := slept w ++ concat (map (fun _ => backoff max_retries) chain) |}).
Proof.
  intros Hall Hpos. induction chain as [|mdl rest IH]; intros w.
  - cbn. rewrite app_nil_r. destruct w as [c s]; cbn. do 2 f_equal. lia.
  - cbn [Client.models]. unfold range.
    replace (Z.to_nat max_retries) with (S (Z.to_nat max_retries - 1)) at 1 by lia.
    rewrite (attempts_all_transient mdl Hall (Z.to_nat max_retries - 1) 0 w) by lia.
    rewrite IH. cbn [calls slept map concat length]. f_equal. f_equal.
    + lia.
    + rewrite <- app_assoc. f_equal. f_equal. unfold backoff, range.
      replace (Z.to_nat (max_retries - 1)) with (Z.to_nat max_retries - 1)%nat by lia. reflexivity.
Qed.

(** What the calls of one model were: all raised, but the last one when
    the loop returned a response. *)
Lemma attempts_calls mdl todo : forall w exit w',
  attempts mdl todo w = (exit, w') ->
  (calls w <= calls w')%nat /\
  match exit with
  | Returned r =>
      (calls w < calls w')%nat /\
      completion (request_of mdl) (calls w' - 1)%nat = Returns r /\
      forall n, (calls w <= n < calls w' - 1)%nat ->
                exists e, completion (request_of mdl) n = Raises e
                          \/ completion (request_of mdl) n = RaisesDecodeError e
  | _ =>
      forall n, (calls w <= n < calls w')%nat ->
                exists e, completion (request_of mdl) n = Raises e
                          \/ completion (request_of mdl) n = RaisesDecodeError e
  end.
Proof.
  induction todo as [|attempt rest IH]; intros w exit w' Hrun.
  - cbn in Hrun. injection Hrun as <- <-. split; [lia|]. intros n Hn. lia.
  - cbn [Client.attempts] in Hrun.
    destruct (completion (request_of mdl) (calls w)) as [r|error_str|error_str] eqn:Hcall.
    { injection Hrun as <- <-. cbn. split; [lia|].
      rewrite Nat.sub_0_r.
      repeat split; [lia | assumption | intros n Hn; lia]. }
    all: assert (Hstop : forall x, (x, tick w) = (exit, w') ->
              match x with Returned _ => False | _ => True end ->
              (calls w <= calls w')%nat /\
              match exit with
              | Returned r =>
                  (calls w < calls w')%nat /\
                  completion (request_of mdl) (calls w' - 1)%nat = Returns r /\
                  forall n, (calls w <= n < calls w' - 1)%nat ->
                            exists e, completion (request_of mdl) n = Raises e
                                      \/ completion (request_of mdl) n = RaisesDecodeError e
              | _ =>
                  forall n, (calls w <= n < calls w')%nat ->
                            exists e, completion (request_of mdl) n = Raises e
                                      \/ completion (request_of mdl) n = RaisesDecodeError e
              end)
      by (intros x Hx Hnot; injection Hx as <- <-; cbn; split; [lia|];
          destruct x; [contradiction| |];
          (intros n Hn; assert (n = calls w) as -> by lia; eauto)).
    all: assert (Hmore : forall secs,
              attempts mdl rest (sleep secs (tick w)) = (exit, w') ->
              (calls w <= calls w')%nat /\
              match exit with
              | Returned r =>
                  (calls w < calls w')%nat /\
                  completion (request_of mdl) (calls w' - 1)%nat = Returns r /\
                  forall n, (calls w <= n < calls w' - 1)%nat ->
                            exists e, completion (request_of mdl) n = Raises e
                                      \/ completion (request_of mdl) n = RaisesDecodeError e
              | _ =>
                  forall n, (calls w <= n < calls w')%nat ->
                            exists e, completion (request_of mdl) n = Raises e
                                      \/ completion (request_of mdl) n = RaisesDecodeError e
              end)
      by (intros secs Hrest; destruct (IH _ _ _ Hrest) as [Hle Hexit]; cbn in Hle;
          split; [lia|];
          destruct exit as [r|e|];
          [destruct Hexit as (Hlt & Hlast & Hbefore); cbn in Hlt, Hbefore;
           repeat split; [lia | assumption |];
           intros n Hn; destruct (decide (n = calls w)) as [->|Hne]; [eauto|];
           apply Hbefore; lia
          |cbn in Hexit; intros n Hn;
           destruct (decide (n = calls w)) as [->|Hne]; [eauto|]; apply Hexit; lia
          |cbn in Hexit; intros n Hn;
           destruct (decide (n = calls w)) as [->|Hne]; [eauto|]; apply Hexit; lia]).
    all: destruct (is_transient error_str);
      [destruct (attempt <? max_retries - 1); [eapply Hmore, Hrun|];
       eapply Hstop; [exact Hrun | exact I]|];
      (destruct (is_unavailable error_str); [eapply Hstop; [exact Hrun | exact I]|]);
      (destruct (attempt =? max_retries - 1); [eapply Hstop; [exact Hrun | exact I]|]);
      eapply Hmore, Hrun.
Qed.

Lemma models_calls chain : forall w r w',
  models chain w = (Ok r, w') ->
  (calls w < calls w')%nat /\
  (exists mdl, mdl ∈ chain /\
     completion (request_of mdl) (calls w' - 1)%nat = Returns r) /\
  forall n, (calls w <= n < calls w' - 1)%nat ->
    exists mdl e, mdl ∈ chain /\
      (completion (request_of mdl) n = Raises e
       \/ completion (request_of mdl) n = RaisesDecodeError e).
Proof.
  induction chain as [|mdl rest IH]; intros w r w' Hrun.
  - cbn in Hrun. discriminate.
  - cbn [Client.models] in Hrun.
    destruct (attempts mdl (range max_retries) w) as [exit w1] eqn:Hone.
    destruct (attempts_calls _ _ _ _ _ Hone) as [Hle Hexit].
    destruct exit as [r1|e|].
    + injection Hrun as <- <-. destruct Hexit as (Hlt & Hlast & Hbefore).
      repeat split; [assumption | |].
      * exists mdl. split; [left | assumption].
      * intros n Hn. destruct (Hbefore n Hn) as [e He].
        exists mdl, e. split; [left | assumption].
    + discriminate.
    + destruct (IH _ _ _ Hrun) as (Hlt & (m & Hm & Hlast) & Hbefore).
      repeat split; [lia | |].
      * exists m. split; [right; assumption | assumption].
      * intros n Hn. destruct (decide (n < calls w1)%nat) as [Hin|Hout].
        -- destruct (Hexit n ltac:(lia)) as [e He].
           exists mdl, e. split; [left | assumption].
        -- destruct (Hbefore n ltac:(lia)) as (m' & e & Hm' & He).
           exists m', e. split; [right; assumption | assumption].
Qed.
End RetryBudget.

(** X1.  The retry loop is bounded: whatever the service does, a call of
    [call_llm_with_retry] asks it at most [max_retries] times per model
    of the chain, waits at most once per call made, and every wait lies
    between 2 seconds and the last step [2 ^ (max_retries - 1)] of the
    backoff schedule. *)
Theorem retry_loop_is_bounded
    (completion : service) (msgs : string) (temp : Q) (max_toks max_retries : Z)
    (w : world) :
  let w' := (call_llm_with_retry completion msgs temp max_toks max_retries w).2 in
  (calls w <= calls w' <= calls w + length MODEL_CHAIN * Z.to_nat max_retries)%nat /\
  exists pauses,
    slept w' = slept w ++ pauses /\
    (length pauses <= calls w' - calls w)%nat /\
    Forall (bounded_wait max_retries) pauses.
Proof.
  cbn zeta. unfold call_llm_with_retry.
  destruct (models completion msgs temp max_toks max_retries MODEL_CHAIN w)
    as [res w'] eqn:Hrun.
  exact (models_budget _ _ _ _ _ _ _ _ _ Hrun).
Qed.

(** X2.  Under lasting overload or rate limiting (exceptions of whatever
    class with such a text) every model uses up its attempts:
    [max_retries] calls per model, with the waits 2, 4, ..,
    [2 ^ (max_retries - 1)] seconds between them, and then the exception
    "All models failed". *)
Theorem transient_errors_use_every_attempt
    (completion : service) (msgs : string) (temp : Q) (max_toks max_retries : Z)
    (w : world) :
  (forall req n, exists e, raises (completion req n) e /\ is_transient e = true) ->
  0 < max_retries ->
  call_llm_with_retry completion msgs temp max_toks max_retries w =
    (Raise all_models_failed,
     {| calls := calls w + 2 * Z.to_nat max_retries;
        slept := slept w ++ backoff max_retries ++ backoff max_retries |}).
Proof.
  intros Hall Hpos. unfold call_llm_with_retry.
  rewrite (models_all_transient _ _ _ _ _ Hall Hpos).
  unfold MODEL_CHAIN. cbn [map concat length]. rewrite app_nil_r. reflexivity.
Qed.

Lemma transient_errors_use_every_attempt_witness :
  call_llm_with_retry (fun _ _ => Raises "503 overloaded") "p" (3 # 10) 4000 4 w0 =
    (Raise all_models_failed, {| calls := 8; slept := [2; 4; 8; 2; 4; 8] |}).
Proof.
  apply (transient_errors_use_every_attempt (fun _ _ => Raises "503 overloaded")
           "p" (3 # 10) 4000 4 w0).
  - intros _ _. exists "503 overloaded". split; [left|]; reflexivity.
  - reflexivity.
Defined.

(** X3.  Fallback: when the first model answers "not found" (and the error
    is not also a transient one), it is given up after that one call,
    without a wait, and the answer of the next model is returned. *)
Theorem unavailable_model_falls_back
    (completion : service) (msgs : string) (temp : Q) (max_toks max_retries : Z)
    (w : world) (error_str : string) (r : response) :
  0 < max_retries ->
  raises (completion {| model := "gemini/gemini-2.5-flash-lite"; messages := msgs;
                        temperature := temp; max_tokens := max_toks |} (calls w))
    error_str ->
  is_transient error_str = false ->
  is_unavailable error_str = true ->
  completion {| model := "gemini/gemini-2.0-flash"; messages := msgs;
                temperature := temp; max_tokens := max_toks |} (S (calls w))
    = Returns r ->
  call_llm_with_retry completion msgs temp max_toks max_retries w =
    (Ok r, {| calls := S (S (calls w)); slept := slept w |}).
Proof.
  intros Hpos Hfirst Ht Hu Hsecond.
  unfold call_llm_with_retry, MODEL_CHAIN. cbn [models]. unfold range.
  replace (Z.to_nat max_retries) with (S (Z.to_nat max_retries - 1)) by lia.
  cbn [seq map attempts].
  destruct Hfirst as [Hfirst|Hfirst]; rewrite Hfirst, Ht, Hu; cbn [tick calls];
    rewrite Hsecond; reflexivity.
Qed.

Lemma unavailable_model_falls_back_witness :
  call_llm_with_retry
    (fun req _ => if String.eqb (model req) "gemini/gemini-2.0-flash"
                  then Returns {| content := "[]"; prompt_tokens := 1;
                                  completion_tokens := 1; total_tokens := 2 |}
                  else Raises "404 model not found") "p" (3 # 10) 4000 3 w0
  = (Ok {| content := "[]"; prompt_tokens := 1; completion_tokens := 1; total_tokens := 2 |},
     {| calls := 2; slept := [] |}).
Proof.
  apply (unavailable_model_falls_back _ "p" (3 # 10) 4000 3 w0 "404 model not found");
    try reflexivity.
  left. reflexivity.
Defined.

(** X4.  A response that [call_llm_with_retry] returns is the first one
    the service gave: the last call made returned it, to a model of the
    chain, and every call before it raised. *)
Theorem returns_first_response
    (completion : service) (msgs : string) (temp : Q) (max_toks max_retries : Z)
    (w w' : world) (r : response) :
  call_llm_with_retry completion msgs temp max_toks max_retries w = (Ok r, w') ->
  (calls w < calls w')%nat /\
  (exists mdl, mdl ∈ MODEL_CHAIN /\
     completion {| model := mdl; messages := msgs;
                   temperature := temp; max_tokens := max_toks |} (calls w' - 1)%nat
       = Returns r) /\
  forall n, (calls w <= n < calls w' - 1)%nat ->
    exists mdl e, mdl ∈ MODEL_CHAIN /\
      raises (completion {| model := mdl; messages := msgs;
                            temperature := temp; max_tokens := max_toks |} n) e.
Proof.
  intros Hrun. exact (models_calls _ _ _ _ _ _ _ _ _ Hrun).
Qed.

Lemma returns_first_response_witness :
  exists mdl, mdl ∈ MODEL_CHAIN /\
    (fun (_ : request) (n : nat) =>
       match n with
       | 0%nat => Raises "503 busy"
       | _ => Returns {| content := "[]"; prompt_tokens := 1;
                         completion_tokens := 1; total_tokens := 2 |}
       end)
      {| model := mdl; messages := "p"; temperature := 3 # 10; max_tokens := 4000 |} 1%nat
    = Returns {| content := "[]"; prompt_tokens := 1;
                 completion_tokens := 1; total_tokens := 2 |}.
Proof.
  exact (proj1 (proj2 (returns_first_response
    (fun _ n => match n with
                | 0%nat => Raises "503 busy"
                | _ => Returns {| content := "[]"; prompt_tokens := 1;
                                  completion_tokens := 1; total_tokens := 2 |}
                end) "p" (3 # 10) 4000 3 w0 {| calls := 2; slept := [2] |} _ eq_refl))).
Defined.

(** ** The clean-up of a response *)

Section Strings.
Import Transcript.

Lemma after_append (p r : string) : after p (p +:+ r) = Some r.
Proof.
  induction p as [|a p IH]; [reflexivity|].
  rewrite append_cons. cbn [after]. rewrite Ascii.eqb_refl. exact IH.
Qed.

Lemma after_Some (p s r : string) : after p s = Some r -> s = p +:+ r.
Proof.
  revert s. induction p as [|a p IH]; intros s H.
  - cbn in H. injection H as ->. reflexivity.
  - destruct s as [|b s]; [discriminate|]. cbn [after] in H.
    destruct (Ascii.eqb a b) eqn:Hab; [|discriminate].
    apply Ascii.eqb_eq in Hab as ->. rewrite append_cons. f_equal. apply IH, H.
Qed.

Lemma prefix_after (p s : string) :
  String.prefix p s = match after p s with Some _ => true | None => false end.
Proof.
  revert s. induction p as [|a p IH]; intros s.
  - destruct s; reflexivity.
  - destruct s as [|b s]; [reflexivity|]. cbn [String.prefix after].
    destruct (ascii_dec a b) as [->|Hne].
    + rewrite Ascii.eqb_refl. apply IH.
    + apply Ascii.eqb_neq in Hne. rewrite Hne. reflexivity.
Qed.

Lemma prefix_trans (p q s : string) :
  String.prefix p q = true -> String.prefix q s = true -> String.prefix p s = true.
Proof.
  revert q s. induction p as [|a p IH]; intros q s Hpq Hqs.
  - destruct s; reflexivity.
  - destruct q as [|b q]; [discriminate|]. destruct s as [|c s]; [discriminate|].
    cbn [String.prefix] in *.
    destruct (ascii_dec a b) as [->|]; [|discriminate].
    destruct (ascii_dec b c) as [->|]; [|discriminate].
    eapply IH; eassumption.
Qed.

Lemma prefix_append_r (p a x : string) :
  String.prefix p a = true -> String.prefix p (a +:+ x) = true.
Proof.
  revert a. induction p as [|c p IH]; intros a H.
  - destruct (a +:+ x); reflexivity.
  - destruct a as [|d a]; [discriminate|]. rewrite append_cons.
    cbn [String.prefix] in *. destruct (ascii_dec c d); [|discriminate]. apply IH, H.
Qed.

(** A text that holds [q] holds every prefix of [q]. *)
Lemma str_in_prefix (p q s : string) :
  String.prefix p q = true -> str_in q s = true -> str_in p s = true.
Proof.
  intros Hpq. induction s as [|c s IH]; intros H.
  - rewrite str_in_nil in *. eapply prefix_trans; eassumption.
  - rewrite str_in_cons in *. apply orb_true_iff in H as [H|H]; apply orb_true_iff.
    + left. eapply prefix_trans; eassumption.
    + right. apply IH, H.
Qed.

Lemma str_in_append_r (sub a x : string) :
  str_in sub a = true -> str_in sub (a +:+ x) = true.
Proof.
  induction a as [|c a IH]; intros H.
  - rewrite str_in_nil in H. destruct sub; [|discriminate].
    rewrite append_nil_l. destruct x; reflexivity.
  - rewrite append_cons, str_in_cons in *.
    apply orb_true_iff in H as [H|H]; apply orb_true_iff.
    + left. rewrite <- append_cons. apply prefix_append_r, H.
    + right. apply IH, H.
Qed.

Lemma str_in_append_l (sub a x : string) :
  str_in sub x = true -> str_in sub (a +:+ x) = true.
Proof.
  intros H. induction a as [|c a IH]; [exact H|].
  rewrite append_cons, str_in_cons, IH. apply orb_true_r.
Qed.

(** [str_in] and [partition] agree on whether [sep] occurs. *)
Lemma str_in_partition (sep s : string) :
  str_in sep s = match partition sep s with Some _ => true | None => false end.
Proof.
  induction s as [|c s IH].
  - rewrite str_in_nil, prefix_after. cbn [partition].
    destruct (after sep ""); reflexivity.
  - rewrite str_in_cons. cbn [partition]. rewrite prefix_after.
    destruct (after sep (String c s)); [reflexivity|].
    rewrite IH. destruct (partition sep s) as [[a b]|]; reflexivity.
Qed.

Lemma partition_Some (sep s a b : string) :
  partition sep s = Some (a, b) -> s = a +:+ sep +:+ b.
Proof.
  revert a. induction s as [|c s IH]; intros a H; cbn [partition] in H.
  - destruct (after sep "") as [r|] eqn:Hr; [|discriminate].
    injection H as <- <-. rewrite append_nil_l. exact (after_Some _ _ _ Hr).
  - destruct (after sep (String c s)) as [r|] eqn:Hr.
    + injection H as <- <-. rewrite append_nil_l. exact (after_Some _ _ _ Hr).
    + destruct (partition sep s) as [[a' b']|] eqn:Hp; [|discriminate].
      injection H as <- <-. rewrite append_cons. f_equal. apply IH. reflexivity.
Qed.

(** The text before the first [sep] does not hold [sep]. *)
Lemma before_clean (sep s : string) : sep <> "" -> str_in sep (before sep s) = false.
Proof.
  intros Hsep. unfold before. induction s as [|c s IH]; cbn [partition].
  - destruct (after sep "") as [r|] eqn:Hr.
    + apply after_Some in Hr. destruct sep; [contradiction | discriminate].
    + rewrite str_in_nil, prefix_after, Hr. reflexivity.
  - destruct (after sep (String c s)) as [r|] eqn:Hr.
    + rewrite str_in_nil. destruct sep; [contradiction | reflexivity].
    + destruct (partition sep s) as [[a b]|] eqn:Hp.
      * rewrite str_in_cons, IH, orb_false_r.
        destruct (String.prefix sep (String c a)) eqn:Hpre; [|reflexivity].
        apply partition_Some in Hp. subst s.
        rewrite <- append_cons in Hr.
        pose proof (prefix_append_r _ _ (sep +:+ b) Hpre) as Hbad.
        rewrite prefix_after, Hr in Hbad. discriminate.
      * rewrite str_in_cons, IH, orb_false_r, prefix_after, Hr. reflexivity.
Qed.

Lemma split_aux_skip (sep x b : string) (cur : list ascii) :
  split_aux sep (x +:+ b) (String.length x) cur = split_aux sep b 0 cur.
Proof.
  induction x as [|c x IH]; [reflexivity|].
  rewrite append_cons. cbn [String.length split_aux]. exact IH.
Qed.

(** [split] cuts at the first separator and goes on behind it. *)
Lemma split_aux_partition (c0 : ascii) (sep0 s : string) : forall cur,
  split_aux (String c0 sep0) s 0 cur =
    match partition (String c0 sep0) s with
    | Some (a, b) => string_of_rev cur a :: split (String c0 sep0) b
    | None => [string_of_rev cur s]
    end.
Proof.
  induction s as [|c s IH]; intros cur; [reflexivity|].
  cbn [split_aux partition]. rewrite prefix_after.
  destruct (after (String c0 sep0) (String c s)) as [r|] eqn:Hr.
  - apply after_Some in Hr. rewrite append_cons in Hr. injection Hr as -> ->.
    replace (String.length (String c0 sep0) - 1)%nat with (String.length sep0)
      by (cbn [String.length]; lia).
    rewrite split_aux_skip. reflexivity.
  - rewrite IH. destruct (partition (String c0 sep0) s) as [[a b]|]; reflexivity.
Qed.

Lemma split_partition (c0 : ascii) (sep0 s : string) :
  split (String c0 sep0) s =
    match partition (String c0 sep0) s with
    | Some (a, b) => a :: split (String c0 sep0) b
    | None => [s]
    end.
Proof. unfold split at 1. rewrite split_aux_partition. reflexivity. Qed.

Lemma index_0 {A} (x : A) (l : list A) : index (x :: l) 0 = Ok x.
Proof.
  destruct (index_in_range (x :: l) 0) as (x' & Hx & ->); [cbn [length]; lia|].
  cbv in Hx. congruence.
Qed.

Lemma index_1 {A} (x y : A) (l : list A) : index (x :: y :: l) 1 = Ok y.
Proof.
  destruct (index_in_range (x :: y :: l) 1) as (x' & Hx & ->); [cbn [length]; lia|].
  cbv in Hx. congruence.
Qed.

(** The first piece of a split is the text before the first separator. *)
Lemma split_head (c0 : ascii) (sep0 s : string) :
  exists rest, split (String c0 sep0) s = before (String c0 sep0) s :: rest.
Proof.
  rewrite split_partition. unfold before.
  destruct (partition (String c0 sep0) s) as [[a b]|]; eauto.
Qed.

(** The two pieces [unfence] picks, when the marker occurs. *)
Lemma fenced_part (c0 : ascii) (sep0 content : string) :
  str_in (String c0 sep0) content = true ->
  exists a b,
    partition (String c0 sep0) content = Some (a, b) /\
    index (split (String c0 sep0) content) 1 = Ok (before (String c0 sep0) b).
Proof.
  intros H. rewrite str_in_partition in H.
  destruct (partition (String c0 sep0) content) as [[a b]|] eqn:Hp; [|discriminate].
  exists a, b. split; [reflexivity|].
  rewrite split_partition, Hp.
  destruct (split_head c0 sep0 b) as [rest ->]. apply index_1.
Qed.

Lemma first_part (c0 : ascii) (sep0 s : string) :
  index (split (String c0 sep0) s) 0 = Ok (before (String c0 sep0) s).
Proof. destruct (split_head c0 sep0 s) as [rest ->]. apply index_0. Qed.

Lemma lstrip_suffix (s : string) : exists a, s = a +:+ lstrip s.
Proof.
  induction s as [|c s [a IH]]; [exists ""; reflexivity|].
  cbn [lstrip]. destruct (is_space c).
  - exists (String c a). rewrite append_cons. f_equal. exact IH.
  - exists "". reflexivity.
Qed.

Lemma rstrip_prefix (s : string) : exists x, s = rstrip s +:+ x.
Proof.
  induction s as [|c s [x IH]]; [exists ""; reflexivity|].
  cbn [rstrip]. destruct (rstrip s) as [|d r] eqn:Hr.
  - destruct (is_space c).
    + exists (String c s). reflexivity.
    + exists s. reflexivity.
  - exists x. rewrite append_cons. f_equal. exact IH.
Qed.

(** Stripping does not bring a marker into a text. *)
Lemma strip_clean (sub s : string) : str_in sub s = false -> str_in sub (strip s) = false.
Proof.
  intros H. unfold strip.
  destruct (lstrip_suffix s) as [a Ha].
  destruct (rstrip_prefix (lstrip s)) as [x Hx].
  destruct (str_in sub (rstrip (lstrip s))) eqn:Hin; [|reflexivity].
  rewrite <- H, Ha, Hx. symmetry.
  apply str_in_append_l, str_in_append_r, Hin.
Qed.

Lemma rstrip_idem (s : string) : rstrip (rstrip s) = rstrip s.
Proof.
  induction s as [|c s IH]; [reflexivity|].
  cbn [rstrip]. destruct (rstrip s) as [|d r] eqn:Hr.
  - destruct (is_space c) eqn:Hc; [reflexivity|]. cbn [rstrip]. rewrite Hc. reflexivity.
  - cbn [rstrip]. cbn [rstrip] in IH. rewrite IH. reflexivity.
Qed.

(** A right-stripped text starts as the text did. *)
Lemma lstrip_rstrip (s : string) : lstrip s = s -> lstrip (rstrip s) = rstrip s.
Proof.
  destruct s as [|c s]; [reflexivity|]. cbn [lstrip rstrip].
  destruct (is_space c) eqn:Hc.
  - intros H. exfalso.
    destruct (lstrip_suffix s) as [a Ha].
    apply (f_equal String.length) in H. apply (f_equal String.length) in Ha.
    rewrite length_append in Ha. cbn [String.length] in H. lia.
  - intros _. destruct (rstrip s); cbn [lstrip]; rewrite Hc; reflexivity.
Qed.

Lemma lstrip_idem (s : string) : lstrip (lstrip s) = lstrip s.
Proof.
  induction s as [|c s IH]; [reflexivity|].
  cbn [lstrip]. destruct (is_space c) eqn:Hc; [exact IH|].
  cbn [lstrip]. rewrite Hc. reflexivity.
Qed.

Lemma strip_idem (s : string) : strip (strip s) = strip s.
Proof.
  unfold strip. rewrite (lstrip_rstrip _ (lstrip_idem s)). apply rstrip_idem.
Qed.

(** What [unfence] returns on a response with a marker. *)
Lemma unfence_json (content : string) :
  str_in "```json" content = true ->
  exists a b,
    partition "```json" content = Some (a, b) /\
    unfence content = Ok (strip (before "```" (before "```json" b))).
Proof.
  intros H. destruct (fenced_part _ _ _ H) as (a & b & Hp & Hi).
  exists a, b. split; [exact Hp|].
  unfold unfence. rewrite H, Hi. cbn [mbind result_bind].
  rewrite first_part. reflexivity.
Qed.

Lemma unfence_plain (content : string) :
  str_in "```json" content = false ->
  str_in "```" content = true ->
  exists a b,
    partition "```" content = Some (a, b) /\
    unfence content = Ok (strip (before "```" (before "```" b))).
Proof.
  intros Hj H. destruct (fenced_part _ _ _ H) as (a & b & Hp & Hi).
  exists a, b. split; [exact Hp|].
  unfold unfence. rewrite Hj, H, Hi. cbn [mbind result_bind].
  rewrite first_part. reflexivity.
Qed.

Lemma unfence_none (content : string) :
  str_in "```" content = false -> unfence content = Ok content.
Proof.
  intros H. unfold unfence. rewrite H.
  destruct (str_in "```json" content) eqn:Hj; [|reflexivity].
  apply (str_in_prefix "```") in Hj; [congruence | reflexivity].
Qed.

(** Texts without a backquote. *)
Lemma no_backquote_cons (c : ascii) (s : string) :
  no_backquote (String c s) -> c <> "`"%char /\ no_backquote s.
Proof.
  unfold no_backquote. rewrite str_in_cons. intros H.
  apply orb_false_iff in H as [H1 H2]. split; [|exact H2].
  intros ->. destruct s; cbn in H1; discriminate.
Qed.

Lemma after_other (c : ascii) (sep0 s : string) :
  c <> "`"%char -> after (String "`" sep0) (String c s) = None.
Proof.
  intros Hc. cbn [after]. destruct (Ascii.eqb "`" c) eqn:E; [|reflexivity].
  apply Ascii.eqb_eq in E. congruence.
Qed.

Lemma partition_no_backquote (sep0 s : string) :
  no_backquote s -> partition (String "`" sep0) s = None.
Proof.
  induction s as [|c s IH]; intros H; [reflexivity|].
  apply no_backquote_cons in H as [Hc Hs].
  cbn [partition]. rewrite (after_other _ _ _ Hc), (IH Hs). reflexivity.
Qed.

Lemma partition_hit (sep s r : string) :
  after sep s = Some r -> partition sep s = Some ("", r).
Proof. intros H. destruct s; cbn [partition]; rewrite H; reflexivity. Qed.

Lemma partition_first (sep0 x b : string) :
  no_backquote x ->
  partition (String "`" sep0) (x +:+ String "`" sep0 +:+ b) = Some (x, b).
Proof.
  induction x as [|c x IH]; intros H.
  - rewrite append_nil_l. apply partition_hit, after_append.
  - apply no_backquote_cons in H as [Hc Hx].
    rewrite append_cons. cbn [partition].
    rewrite (after_other _ _ _ Hc), (IH Hx). reflexivity.
Qed.

Lemma before_cons (sep0 : string) (c : ascii) (s : string) :
  c <> "`"%char ->
  before (String "`" sep0) (String c s) = String c (before (String "`" sep0) s).
Proof.
  intros Hc. unfold before. cbn [partition]. rewrite (after_other _ _ _ Hc).
  destruct (partition (String "`" sep0) s) as [[a b]|]; reflexivity.
Qed.

Lemma after_no_backquote (sep0 s : string) :
  no_backquote s -> after (String "`" sep0) s = None.
Proof.
  destruct s as [|c s]; intros H; [reflexivity|].
  apply no_backquote_cons in H as [Hc _]. apply after_other, Hc.
Qed.

Lemma partition_cons (sep : string) (c : ascii) (s : string) :
  partition sep (String c s) =
    match after sep (String c s) with
    | Some rest => Some ("", rest)
    | None =>
        match partition sep s with
        | Some (a, b) => Some (String c a, b)
        | None => None
        end
    end.
Proof. reflexivity. Qed.

(** The end of a block: the closing marker, then text without one. *)
Lemma block_end (post : string) :
  no_backquote post ->
  before "```" (before "```json" ("```" +:+ post)) = "".
Proof.
  intros Hpost.
  destruct (after "json" post) as [r|] eqn:Hr.
  - apply after_Some in Hr. subst post.
    change ("```" +:+ "json" +:+ r) with ("```json" +:+ r).
    unfold before at 2. rewrite (partition_hit _ _ _ (after_append "```json" r)).
    reflexivity.
  - assert (Hnone : partition "```json" ("```" +:+ post) = None).
    { change ("```" +:+ post) with (String "`" (String "`" (String "`" post))).
      rewrite !partition_cons.
      change (after "```json" (String "`" (String "`" (String "`" post))))
        with (after "json" post).
      change (after "```json" (String "`" (String "`" post))) with (after "`json" post).
      change (after "```json" (String "`" post)) with (after "``json" post).
      rewrite Hr, !after_no_backquote, partition_no_backquote by assumption.
      reflexivity. }
    unfold before at 2. rewrite Hnone.
    unfold before. change ("```" +:+ post) with (String "`" (String "`" (String "`" post))).
    rewrite partition_cons.
    change (after "```" (String "`" (String "`" (String "`" post)))) with (Some post).
    reflexivity.
Qed.

(** The body of a block that ends at the next marker. *)
Lemma block_body (body post : string) :
  no_backquote body -> no_backquote post ->
  before "```" (before "```json" (body +:+ "```" +:+ post)) = body.
Proof.
  intros Hbody Hpost. induction body as [|c body IH].
  - rewrite append_nil_l. apply block_end, Hpost.
  - apply no_backquote_cons in Hbody as [Hc Hbody].
    rewrite append_cons, !before_cons by assumption. f_equal. apply IH, Hbody.
Qed.

End Strings.

(** X5.  [unfence] never raises: the two indexings of its fenced branches
    are always in range.  Its result is stable, unfencing it again gives
    it back; on a response with a fence marker the result holds no marker
    and no white space at either end; and a response without a marker is
    returned unchanged. *)
Theorem unfence_total_and_idempotent (content : string) :
  exists text,
    unfence content = Ok text /\
    unfence text = Ok text /\
    (str_in "```" content = true ->
     str_in "```" text = false /\ strip text = text) /\
    (str_in "```" content = false -> text = content).
Proof.
  destruct (str_in "```" content) eqn:Hfence.
  - assert (Hclean : forall s, str_in "```" (strip (before "```" s)) = false).
    { intros s. apply strip_clean, before_clean. discriminate. }
    destruct (str_in "```json" content) eqn:Hjson.
    + destruct (unfence_json _ Hjson) as (a & b & _ & ->).
      eexists. split; [reflexivity|]. split; [apply unfence_none, Hclean|].
      split; [|discriminate].
      intros _. split; [apply Hclean | apply strip_idem].
    + destruct (unfence_plain _ Hjson Hfence) as (a & b & _ & ->).
      eexists. split; [reflexivity|]. split; [apply unfence_none, Hclean|].
      split; [|discriminate].
      intros _. split; [apply Hclean | apply strip_idem].
  - exists content. rewrite (unfence_none _ Hfence).
    repeat split; discriminate.
Qed.

(** X6.  A fenced block is unwrapped: for texts [before], [body] and
    [after] without a backquote, the response
    [before ```json body ``` after] is cleaned to the stripped [body]. *)
Theorem unfence_unwraps_json_block (pre body post : string) :
  no_backquote pre -> no_backquote body -> no_backquote post ->
  unfence (pre +:+ "```json" +:+ body +:+ "```" +:+ post) = Ok (strip body).
Proof.
  intros Hpre Hbody Hpost.
  pose proof (partition_first "``json" pre (body +:+ "```" +:+ post) Hpre) as Hp.
  assert (Hin : str_in "```json" (pre +:+ "```json" +:+ body +:+ "```" +:+ post) = true).
  { rewrite str_in_partition, Hp. reflexivity. }
  destruct (unfence_json _ Hin) as (a & b & Hp' & ->).
  rewrite Hp in Hp'. injection Hp' as <- <-.
  rewrite block_body by assumption. reflexivity.
Qed.

Lemma unfence_unwraps_json_block_witness :
  unfence ("Here are the questions: " +:+ "```json" +:+ (nl +:+ "[1, 2]" +:+ nl)
           +:+ "```" +:+ " Good luck!") = Ok "[1, 2]".
Proof.
  apply (unfence_unwraps_json_block "Here are the questions: " (nl +:+ "[1, 2]" +:+ nl)
           " Good luck!"); reflexivity.
Defined.

(** ** Session sampler and answer grader: outside the usual inputs *)

(** X7.  [select_quiz_questions] raises exactly when [count] is negative:
    then [random.sample] refuses the sample size with a ValueError, no
    random number is drawn, and this for every pool and filter; for a
    count of zero or more a list is returned. *)
Theorem select_quiz_questions_raises_iff_negative
    (pool : list Question) (count : Z) (topic_filter : option (list string)) (t : tape) :
  (count < 0 ->
   select_quiz_questions pool count topic_filter t =
     (Raise (ValueError "Sample larger than population or is negative"), t))
  /\ (0 <= count ->
      exists selected t', select_quiz_questions pool count topic_filter t = (Ok selected, t')).
Proof.
  unfold select_quiz_questions.
  set (available := match topic_filter with Some (_ :: _ as wanted) => _ | _ => pool end).
  split; intros Hcount.
  - unfold sample.
    destruct (Z.leb_spec 0 (Z.min count (Z.of_nat (length available)))) as [?|_]; [lia|].
    reflexivity.
  - destruct (sample_spec available (Z.min count (Z.of_nat (length available))) t)
      as (selected & t' & Hrun & _); [lia|].
    exists selected, t'. exact Hrun.
Qed.

Lemma select_quiz_questions_raises_iff_negative_witness :
  select_quiz_questions sample_pool (-1) None [3; 1; 4]%nat =
    (Raise (ValueError "Sample larger than population or is negative"), [3; 1; 4]%nat).
Proof.
  apply (select_quiz_questions_raises_iff_negative sample_pool (-1) None [3; 1; 4]%nat).
  reflexivity.
Defined.

Lemma index_valid {A} (xs : list A) (i : Z) :
  valid_index i (length xs) -> exists x, index xs i = Ok x.
Proof.
  unfold valid_index. intros Hi.
  destruct (Z.lt_ge_cases i 0) as [Hneg|Hpos].
  - unfold index. destruct (Z.ltb_spec i 0) as [_|?]; [|lia].
    destruct (Z.leb_spec 0 (i + Z.of_nat (length xs))) as [_|?]; [|lia].
    destruct (Z.ltb_spec (i + Z.of_nat (length xs)) (Z.of_nat (length xs))) as [_|?]; [|lia].
    cbn [andb].
    destruct (lookup_lt_is_Some_2 xs (Z.to_nat (i + Z.of_nat (length xs)))) as [x Hx]; [lia|].
    exists x. rewrite Hx. reflexivity.
  - destruct (index_in_range xs i) as (x & _ & Hx); [lia|]. exists x. exact Hx.
Qed.

Lemma index_invalid {A} (xs : list A) (i : Z) :
  ~ valid_index i (length xs) -> index xs i = Raise IndexError.
Proof.
  unfold valid_index. intros Hi. unfold index.
  destruct (Z.ltb_spec i 0) as [Hneg|Hpos].
  - destruct (Z.leb_spec 0 (i + Z.of_nat (length xs))) as [?|_]; [lia|]. reflexivity.
  - destruct (Z.leb_spec 0 i) as [_|?]; [|lia].
    destruct (Z.ltb_spec i (Z.of_nat (length xs))) as [?|_]; [lia|]. reflexivity.
Qed.

Lemma index_raises {A} (xs : list A) (i : Z) e : index xs i = Raise e -> e = IndexError.
Proof.
  unfold index. destruct (_ && _); [|congruence].
  destruct (xs !! _); congruence.
Qed.

(** X8.  [check_answer] outside the question invariant.  It raises exactly
    when [correct_answer] is no index Python accepts on the options, and
    then an IndexError, whatever the user's answer is.  When it returns
    and the verdict is [correct] for a user answer [>= 0], the user's
    option shown is the correct option; and a question whose
    [correct_answer] is negative is never answered correctly by such an
    answer, although a correct option is shown for it. *)
Theorem check_answer_outside_invariant (q : Question) (user_answer : Z) :
  (check_answer q user_answer = Raise IndexError
     <-> ~ valid_index (correct_answer q) (length (options q)))
  /\ (forall e, check_answer q user_answer = Raise e -> e = IndexError)
  /\ (forall v, check_answer q user_answer = Ok v ->
        0 <= user_answer ->
        (correct v = true -> user_option v = Some (correct_option v))
        /\ (correct_answer q < 0 -> correct v = false)).
Proof.
  unfold check_answer.
  destruct (decide (valid_index (correct_answer q) (length (options q)))) as [Hv|Hv].
  - destruct (index_valid _ _ Hv) as [copt Hc]. rewrite Hc. cbn [mbind result_bind].
    assert (Huser : exists uo,
      (if (0 <=? user_answer) && (user_answer <? Z.of_nat (length (options q)))
       then x ← index (options q) user_answer; Ok (Some x)
       else Ok None) = Ok uo /\
      (0 <= user_answer -> user_answer = correct_answer q -> uo = Some copt)).
    { destruct (Z.leb_spec 0 user_answer) as [H0|H0];
        [destruct (Z.ltb_spec user_answer (Z.of_nat (length (options q)))) as [H1|H1]|];
        cbn [andb].
      - destruct (index_in_range (options q) user_answer) as (x & _ & Hx); [lia|].
        rewrite Hx. cbn [mbind result_bind]. eexists. split; [reflexivity|].
        intros _ Heq. rewrite Heq, Hc in Hx. congruence.
      - eexists. split; [reflexivity|]. intros _ Heq. unfold valid_index in Hv. lia.
      - eexists. split; [reflexivity|]. lia. }
    destruct Huser as (uo & -> & Huo). cbn [mbind result_bind].
    split; [split; [discriminate | contradiction]|].
    split; [discriminate|].
    intros v [= <-] H0. cbn [correct user_option correct_option]. split.
    + intros Heq. apply Z.eqb_eq in Heq. apply Huo; assumption.
    + intros Hneg. apply Z.eqb_neq. lia.
  - rewrite (index_invalid _ _ Hv). cbn [mbind result_bind].
    split; [split; [intros _; exact Hv | reflexivity]|].
    split; [intros e [= <-]; reflexivity | discriminate].
Qed.

(** ** Performance aggregator: totals, order and thresholds *)

Section Sums.
Context {A : Type}.
Implicit Types (d : list (string * A)) (g : A -> Z).

Lemma sum_over_app g d d' : sum_over g (d ++ d') = sum_over g d + sum_over g d'.
Proof.
  unfold sum_over. induction d as [|kv d IH]; cbn [foldr app]; [lia|]. rewrite IH. lia.
Qed.

(** Updating the entry of a key that is present changes the sum by what
    the update adds. *)
Lemma sum_over_update g key (f : A -> A) (delta : Z) d :
  (forall v, g (f v) = g v + delta) ->
  is_Some (assoc key d) ->
  sum_over g (update key f d) = sum_over g d + delta.
Proof.
  intros Hf. unfold sum_over. induction d as [|[k v] d IH]; cbn; intros [x Hx].
  - discriminate.
  - destruct (String.eqb k key); cbn.
    + rewrite Hf. lia.
    + rewrite IH by eauto. lia.
Qed.

Lemma sum_over_map {B} (g : B -> Z) (f : A -> B) d :
  sum_over g (map (fun kv => (fst kv, f (snd kv))) d) = sum_over (fun v => g (f v)) d.
Proof.
  unfold sum_over. induction d as [|kv d IH]; cbn; [reflexivity|]. rewrite IH. reflexivity.
Qed.
End Sums.

Lemma sum_over_tally d r :
  sum_over n_total (tally d r) = sum_over n_total d + 1 /\
  sum_over n_correct (tally d r) = sum_over n_correct d + (if is_correct r then 1 else 0).
Proof.
  unfold tally. set (tp := topic (answered r)).
  set (d1 := match assoc tp d with
             | None => d ++ [(tp, {| n_correct := 0; n_total := 0 |})]
             | Some _ => d
             end).
  assert (H1 : is_Some (assoc tp d1) /\
               sum_over n_total d1 = sum_over n_total d /\
               sum_over n_correct d1 = sum_over n_correct d).
  { subst d1. destruct (assoc tp d) eqn:Hd.
    - rewrite Hd. eauto.
    - rewrite assoc_app, Hd, String.eqb_refl, !sum_over_app. cbn. split; [eauto | lia]. }
  destruct H1 as (Hin & Ht & Hc).
  set (d2 := update tp _ d1).
  assert (H2 : is_Some (assoc tp d2) /\
               sum_over n_total d2 = sum_over n_total d + 1 /\
               sum_over n_correct d2 = sum_over n_correct d).
  { subst d2. rewrite assoc_update, String.eqb_refl.
    rewrite (sum_over_update n_total _ _ 1) by first [assumption | intros; cbn; lia].
    rewrite (sum_over_update n_correct _ _ 0) by first [assumption | intros; cbn; lia].
    destruct Hin as [x ->]. split; [cbn; eauto | lia]. }
  destruct H2 as (Hin2 & Ht2 & Hc2).
  destruct (is_correct r).
  - rewrite (sum_over_update n_total _ _ 0) by first [assumption | intros; cbn; lia].
    rewrite (sum_over_update n_correct _ _ 1) by first [assumption | intros; cbn; lia].
    lia.
  - lia.
Qed.

Lemma sum_over_fold_tally answers : forall d,
  sum_over n_total (fold_left tally answers d)
    = sum_over n_total d + Z.of_nat (length answers) /\
  sum_over n_correct (fold_left tally answers d)
    = sum_over n_correct d + Z.of_nat (length (List.filter is_correct answers)).
Proof.
  induction answers as [|r answers IH]; intros d; cbn [fold_left List.filter length].
  - lia.
  - destruct (IH (tally d r)) as [-> ->].
    destruct (sum_over_tally d r) as [-> ->].
    destruct (is_correct r); cbn [length]; lia.
Qed.

(** X9.  Nothing is lost between the answers and the topic map: the
    totals of the topics add up to the number of answers, and their
    correct counts to the number of correct answers. *)
Theorem topic_counts_add_up {F : Arith} (answers : list graded_answer) :
  sum_over stat_total (calculate_topic_performance answers)
    = Z.of_nat (length answers)
  /\ sum_over stat_correct (calculate_topic_performance answers)
    = Z.of_nat (length (List.filter is_correct answers)).
Proof.
  unfold calculate_topic_performance. rewrite !sum_over_map.
  destruct (sum_over_fold_tally answers []) as [Ht Hc].
  split; [exact Ht | exact Hc].
Qed.

Lemma keys_tally_order d r :
  (tally d r).*1 =
    d.*1 ++ (if bool_decide (topic (answered r) ∈ d.*1) then [] else [topic (answered r)]).
Proof.
  unfold tally.
  assert (Hkeys : (match assoc (topic (answered r)) d with
                   | None => d ++ [(topic (answered r), {| n_correct := 0; n_total := 0 |})]
                   | Some _ => d
                   end).*1
                  = d.*1 ++ (if bool_decide (topic (answered r) ∈ d.*1) then []
                             else [topic (answered r)])).
  { destruct (assoc (topic (answered r)) d) eqn:Hd.
    - rewrite bool_decide_eq_true_2, app_nil_r; [reflexivity|].
      destruct (decide (topic (answered r) ∈ d.*1)) as [Hin|Hout]; [exact Hin|].
      apply assoc_None in Hout. congruence.
    - rewrite bool_decide_eq_false_2 by (apply assoc_None, Hd).
      rewrite fmap_app. reflexivity. }
  destruct (is_correct r); rewrite ?keys_update; exact Hkeys.
Qed.

Lemma fold_left_snoc {A B} (f : A -> B -> A) (l : list B) (x : B) (a : A) :
  fold_left f (l ++ [x]) a = f (fold_left f l a) x.
Proof. rewrite fold_left_app. reflexivity. Qed.

(** X10.  The topic map lists each topic once, in the order in which the
    topics first appear in the answers: one more answer leaves the
    topics listed so far in place and adds its topic at the end if it is
    new. *)
Theorem topics_in_order_of_first_answer {F : Arith}
    (answers : list graded_answer) (r : graded_answer) :
  let topics_of l := (calculate_topic_performance l).*1 in
  NoDup (topics_of answers)
  /\ topics_of [] = []
  /\ topics_of (answers ++ [r]) =
       topics_of answers
       ++ (if bool_decide (topic (answered r) ∈ topics_of answers) then []
           else [topic (answered r)]).
Proof.
  cbn zeta. split; [apply topic_keys_unique|]. split; [reflexivity|].
  unfold calculate_topic_performance.
  rewrite <- !list_fmap_compose, fold_left_snoc.
  change ((fst ∘ (fun kv : string * counts => (kv.1, finish kv.2))) <$> ?l)
    with (l.*1).
  apply keys_tally_order.
Qed.

Lemma correct_on_le tp answers : 0 <= correct_on tp answers <= total_on tp answers.
Proof.
  unfold correct_on, total_on. split; [lia|].
  apply inj_le. generalize (answers_on tp answers). intros l.
  induction l as [|a l IH]; cbn; [lia|]. destruct (is_correct a); cbn; lia.
Qed.

(** An entry of the topic map is the entry of its key. *)
Lemma topic_entry_of {F : Arith} answers tp s :
  (tp, s) ∈ calculate_topic_performance answers ->
  total_on tp answers <> 0 /\
  s = finish {| n_correct := correct_on tp answers; n_total := total_on tp answers |}.
Proof.
  intros Hin. apply assoc_Some_items in Hin; [|apply topic_keys_unique].
  rewrite topic_entry in Hin.
  destruct (Z.eqb_spec (total_on tp answers) 0) as [?|Hne]; [discriminate|].
  injection Hin as <-. split; [exact Hne | reflexivity].
Qed.

(** X11.  Every entry of the topic map counts at least one answer and no
    more correct answers than answers; computed exactly, its percentage
    lies between 0 and 100. *)
Theorem topic_entries_are_bounded (answers : list graded_answer)
    (tp : string) (s : topic_stat (F := exact)) :
  (tp, s) ∈ calculate_topic_performance (F := exact) answers ->
  1 <= stat_total s
  /\ 0 <= stat_correct s <= stat_total s
  /\ (0 <= percentage s <= 100)%Q.
Proof.
  intros Hin. apply topic_entry_of in Hin as [Hne ->].
  pose proof (correct_on_le tp answers) as Hle.
  cbn [finish stat_total stat_correct percentage n_total n_correct].
  split; [lia|]. split; [lia|].
  destruct (Z.gtb_spec (total_on tp answers) 0) as [Hpos|?]; [|lia].
  cbn [times true_div exact].
  set (c := correct_on tp answers) in *. set (n := total_on tp answers) in *.
  assert (Hn : (0 < inject_Z n)%Q) by (rewrite <- (Zlt_Qlt 0); exact Hpos).
  assert (Hc0 : (0 <= inject_Z c)%Q) by (rewrite <- (Zle_Qle 0); lia).
  assert (Hcn : (inject_Z c <= inject_Z n)%Q) by (rewrite <- Zle_Qle; lia).
  assert (Hq0 : (0 <= inject_Z c / inject_Z n)%Q).
  { apply Qle_shift_div_l; [exact Hn|]. rewrite Qmult_0_l. exact Hc0. }
  assert (Hq1 : (inject_Z c / inject_Z n <= 1)%Q).
  { apply Qle_shift_div_r; [exact Hn|]. rewrite Qmult_1_l. exact Hcn. }
  split.
  - apply Qmult_le_0_compat; [exact Hq0 | discriminate].
  - apply Qle_trans with (1 * inject_Z 100)%Q;
      [apply Qmult_le_compat_r; [exact Hq1 | discriminate] | discriminate].
Qed.

Lemma topic_entries_are_bounded_witness :
  ("B", finish (F := exact) {| n_correct := 1; n_total := 3 |})
    ∈ calculate_topic_performance (F := exact) sample_answers
  /\ (0 <= percentage (finish (F := exact) {| n_correct := 1; n_total := 3 |}) <= 100)%Q.
Proof.
  assert (Hin : ("B", finish (F := exact) {| n_correct := 1; n_total := 3 |})
                  ∈ calculate_topic_performance (F := exact) sample_answers)
    by (vm_compute; do 2 constructor).
  split; [exact Hin|].
  apply (topic_entries_are_bounded sample_answers "B" _ Hin).
Defined.

Lemma weak_status_of {F : Arith} {L : ArithLaws F} (c : counts) :
  status (finish c) = Weak <-> num_lt (percentage (finish c)) (of_int 60) = true.
Proof.
  split; [|apply finish_status].
  unfold finish. cbn [percentage status].
  set (pct := if n_total c >? 0 then _ else _).
  rewrite !ge_not_lt.
  destruct (num_lt pct (of_int 80)); destruct (num_lt pct (of_int 60));
    cbn [negb]; congruence.
Qed.

Lemma weak_topics_elem {F : Arith} {L : ArithLaws F}
    (perf : list (string * topic_stat)) (threshold : num) (w : weak_topic) :
  w ∈ get_weak_topics perf threshold <->
  exists kv, kv ∈ perf /\ below threshold kv = true /\ w = weak_entry kv.
Proof.
  unfold get_weak_topics.
  rewrite (sort_by_perm weak_percentage), list_elem_of_fmap. split.
  - intros (kv & -> & Hin). apply list_elem_of_In, filter_In in Hin as [Hin Hb].
    exists kv. split; [apply list_elem_of_In, Hin | split; [exact Hb | reflexivity]].
  - intros (kv & Hin & Hb & ->). exists kv. split; [reflexivity|].
    apply list_elem_of_In, filter_In. split; [apply list_elem_of_In, Hin | exact Hb].
Qed.

Lemma topic_entry_finished {F : Arith} answers kv :
  kv ∈ calculate_topic_performance answers -> exists c, snd kv = finish c.
Proof.
  unfold calculate_topic_performance. intros Hin.
  apply list_elem_of_fmap in Hin as ([k c] & -> & _). exists c. reflexivity.
Qed.

(** X12.  The threshold 60 the results page passes is the bound of the
    status [Weak]: the topics to review are exactly the topics whose
    status is [Weak]. *)
Theorem topics_to_review_are_the_weak_ones {F : Arith} {L : ArithLaws F}
    (answers : list graded_answer) (w : weak_topic) :
  let perf := calculate_topic_performance answers in
  w ∈ get_weak_topics perf (of_int 60) <->
  exists tp s, (tp, s) ∈ perf /\ status s = Weak /\ w = weak_entry (tp, s).
Proof.
  cbn zeta. rewrite weak_topics_elem. split.
  - intros ([tp s] & Hin & Hb & ->). exists tp, s. split; [exact Hin|].
    split; [|reflexivity].
    destruct (topic_entry_finished _ _ Hin) as [c Hc]. cbn [snd] in Hc. subst s.
    apply weak_status_of. exact Hb.
  - intros (tp & s & Hin & Hs & ->). exists (tp, s). split; [exact Hin|].
    split; [|reflexivity].
    destruct (topic_entry_finished _ _ Hin) as [c Hc]. cbn [snd] in Hc. subst s.
    apply weak_status_of. exact Hs.
Qed.

Lemma topics_to_review_are_the_weak_ones_witness :
  weak_entry (F := exact) ("B", finish (F := exact) {| n_correct := 1; n_total := 3 |})
    ∈ get_weak_topics (F := exact) (calculate_topic_performance sample_answers) 60%Q.
Proof.
  apply (topics_to_review_are_the_weak_ones (F := exact) (L := exact_laws) sample_answers).
  exists "B", (finish (F := exact) {| n_correct := 1; n_total := 3 |}).
  split; [vm_compute; do 2 constructor|]. split; reflexivity.
Defined.

(** X13.  Raising the threshold never drops a topic from the weak list:
    a topic listed for a threshold is listed for every threshold that is
    not below it; and the list never has more entries than the topic
    map. *)
Theorem weak_topics_grow_with_threshold {F : Arith} {L : ArithLaws F}
    (perf : list (string * topic_stat)) (low high : num) (w : weak_topic) :
  num_lt high low = false ->
  (w ∈ get_weak_topics perf low -> w ∈ get_weak_topics perf high)
  /\ (length (get_weak_topics perf high) <= length perf)%nat.
Proof.
  intros Hle. split.
  - rewrite !weak_topics_elem. intros (kv & Hin & Hb & ->).
    exists kv. split; [exact Hin|]. split; [|reflexivity].
    unfold below in *.
    destruct (num_lt (percentage kv.2) high) eqn:Hhigh; [reflexivity|].
    rewrite (lt_negtrans _ _ _ Hhigh Hle) in Hb. discriminate.
  - unfold get_weak_topics.
    rewrite (Permutation_length (sort_by_perm weak_percentage _)), length_map.
    apply List.filter_length_le.
Qed.

Lemma weak_topics_grow_with_threshold_witness :
  weak_entry (F := exact) ("B", finish (F := exact) {| n_correct := 1; n_total := 3 |})
    ∈ get_weak_topics (F := exact) (calculate_topic_performance sample_answers) 70%Q.
Proof.
  apply (weak_topics_grow_with_threshold (F := exact) (L := exact_laws)
           (calculate_topic_performance sample_answers) 60%Q 70%Q).
  - reflexivity.
  - vm_compute. do 1 constructor.
Defined.

(** ** Question bank and notes synthesizer: cost and failure *)

Section Generators.
Variable completion : service.
Variable json_loads : string -> option json.

Abbreviation by_difficulty := (_generate_questions_by_difficulty completion json_loads).
Abbreviation tiers := (tiers completion json_loads).
Abbreviation generate_questions := (generate_questions completion json_loads).

Lemma call_budget msgs temp max_toks w :
  let w' := (call_llm_with_retry completion msgs temp max_toks 3 w).2 in
  (calls w <= calls w' <= calls w + 6)%nat.
Proof.
  cbn zeta. unfold call_llm_with_retry.
  destruct (models completion msgs temp max_toks 3 MODEL_CHAIN w) as [res w'] eqn:Hrun.
  destruct (models_budget _ _ _ _ _ _ _ _ _ Hrun) as [Hcalls _].
  cbn in Hcalls |- *. lia.
Qed.

Lemma tier_budget notes_data d count w :
  let w' := (by_difficulty notes_data d count w).2 in
  (calls w <= calls w' <= calls w + 6)%nat.
Proof.
  cbn zeta. unfold _generate_questions_by_difficulty, tier_try.
  pose proof (call_budget (question_prompt notes_data d count) (7 # 10) 3000 w) as H.
  cbn zeta in H.
  destruct (call_llm_with_retry _ _ _ _ _ w) as [[response|e] w'].
  - cbn [snd] in H. destruct (_ ≫= _); exact H.
  - exact H.
Qed.

Lemma tiers_budget notes_data mix : forall acc w,
  let w' := (tiers notes_data mix acc w).2 in
  (calls w <= calls w' <= calls w + 6 * length (requested mix))%nat.
Proof.
  induction mix as [|[d count] mix IH]; intros acc w; cbn zeta in *.
  - cbn. lia.
  - cbn [Quiz.tiers requested List.filter snd].
    destruct (count >? 0).
    + pose proof (tier_budget notes_data d count w) as Ht. cbn zeta in Ht.
      destruct (by_difficulty notes_data d count w) as [v w1]. cbn [snd] in Ht.
      destruct (iter v) as [items|e].
      * specialize (IH (acc ++ items) w1). cbn [length]. fold (requested mix). lia.
      * cbn [snd length]. lia.
    + specialize (IH acc w). fold (requested mix). exact IH.
Qed.

(** A mix that asks for nothing is worked off without the service. *)
Lemma tiers_nothing_requested notes_data mix : forall acc w,
  requested mix = [] -> tiers notes_data mix acc w = (Ok acc, w).
Proof.
  induction mix as [|[d count] mix IH]; intros acc w Hreq; [reflexivity|].
  cbn [Quiz.tiers]. unfold requested in Hreq. cbn [List.filter snd] in Hreq.
  destruct (count >? 0); [discriminate|]. apply IH, Hreq.
Qed.

Lemma iter_raises v e : iter v = Raise e -> e = TypeError /\ scalar v = true.
Proof. destruct v; cbn; intros H; try discriminate; injection H as <-; split; reflexivity. Qed.

(** The first call of the retry loop, when the service answers it. *)
Lemma call_returns_at_once msgs temp max_toks w r :
  completion {| model := "gemini/gemini-2.5-flash-lite"; messages := msgs;
                temperature := temp; max_tokens := max_toks |} (calls w) = Returns r ->
  call_llm_with_retry completion msgs temp max_toks 3 w = (Ok r, tick w).
Proof.
  intros Hcall. unfold call_llm_with_retry, MODEL_CHAIN. cbn [models].
  change (range 3) with [0; 1; 2]. cbn [attempts]. rewrite Hcall. reflexivity.
Qed.

(** When every response decodes to a scalar, the loop raises at its first
    requested tier. *)
Lemma tiers_scalar notes_data mix :
  (forall req n, exists r txt v,
      completion req n = Returns r /\ unfence (content r) = Ok txt /\
      json_loads txt = Some v /\ scalar v = true) ->
  forall acc w,
    requested mix <> [] ->
    exists w', tiers notes_data mix acc w = (Raise TypeError, w').
Proof.
  intros Hall. induction mix as [|[d count] mix IH]; intros acc w Hreq.
  - contradiction.
  - cbn [Quiz.tiers]. unfold requested in Hreq. cbn [List.filter snd] in Hreq.
    destruct (count >? 0).
    + destruct (Hall {| model := "gemini/gemini-2.5-flash-lite";
                        messages := question_prompt notes_data d count;
                        temperature := 7 # 10; max_tokens := 3000 |} (calls w))
        as (r & txt & v & Hcall & Hunf & Hload & Hs).
      unfold _generate_questions_by_difficulty, tier_try.
      rewrite (call_returns_at_once _ _ _ _ _ Hcall), Hunf. cbn [mbind result_bind].
      rewrite Hload. destruct v; try discriminate; cbn [iter]; eauto.
    + apply IH, Hreq.
Qed.

(** A tier hands on a scalar only when its response decodes to it. *)
Lemma tier_scalar notes_data d count w v w1 e :
  by_difficulty notes_data d count w = (v, w1) ->
  iter v = Raise e ->
  e = TypeError /\
  exists response txt,
    call_llm_with_retry completion (question_prompt notes_data d count) (7 # 10) 3000 3 w
      = (Ok response, w1)
    /\ unfence (content response) = Ok txt
    /\ json_loads txt = Some v
    /\ scalar v = true.
Proof.
  unfold _generate_questions_by_difficulty, tier_try.
  destruct (call_llm_with_retry _ _ _ _ _ w) as [[response|e0] w'] eqn:Hcall;
    [|intros [= <- <-]; discriminate].
  destruct (unfence (content response)) as [txt|e0] eqn:Hunf; cbn [mbind result_bind];
    [|intros [= <- <-]; discriminate].
  destruct (json_loads txt) as [v0|] eqn:Hload; [|intros [= <- <-]; discriminate].
  intros [= <- <-] Hiter.
  destruct v0; cbn in Hiter; try discriminate; injection Hiter as <-;
    (split; [reflexivity|]); exists response, txt; repeat split; assumption.
Qed.

Lemma scalar_tier notes_data d count w response w1 txt v :
  call_llm_with_retry completion (question_prompt notes_data d count) (7 # 10) 3000 3 w
    = (Ok response, w1) ->
  unfence (content response) = Ok txt ->
  json_loads txt = Some v ->
  scalar v = true ->
  by_difficulty notes_data d count w = (v, w1) /\ iter v = Raise TypeError.
Proof.
  intros Hcall Hunf Hload Hs. unfold _generate_questions_by_difficulty, tier_try.
  rewrite Hcall, Hunf. cbn [mbind result_bind]. rewrite Hload.
  destruct v; try discriminate; split; reflexivity.
Qed.

(** The loop over the tiers raises exactly at a requested tier whose
    response decodes to a scalar, the tiers before it having handed on
    their questions. *)
Lemma tiers_raise_at notes_data mix : forall acc w e w',
  tiers notes_data mix acc w = (Raise e, w') ->
  e = TypeError /\
  exists before d count after collected wi response txt v,
    mix = before ++ (d, count) :: after
    /\ handed_on completion json_loads notes_data before w collected wi
    /\ 0 < count
    /\ call_llm_with_retry completion (question_prompt notes_data d count) (7 # 10) 3000 3 wi
       = (Ok response, w')
    /\ unfence (content response) = Ok txt
    /\ json_loads txt = Some v
    /\ scalar v = true.
Proof.
  induction mix as [|[d count] mix IH]; intros acc w e w' Hrun; cbn [Quiz.tiers] in Hrun.
  - discriminate.
  - destruct (Z.gtb_spec count 0) as [Hpos|Hnpos].
    + destruct (by_difficulty notes_data d count w) as [v w1] eqn:Htier.
      destruct (iter v) as [items|e1] eqn:Hiter.
      * destruct (IH _ _ _ _ Hrun)
          as (-> & before & d' & c' & after & collected & wi & response & txt & v' &
              -> & Hbefore & Hc & Hcall & Hunf & Hload & Hs).
        split; [reflexivity|].
        exists ((d, count) :: before), d', c', after, (items ++ collected), wi, response, txt, v'.
        repeat split; try assumption.
        eapply handed_on_tier; [lia | eapply tier_contributes; eassumption | exact Hbefore].
      * injection Hrun as <- <-.
        destruct (tier_scalar _ _ _ _ _ _ _ Htier Hiter)
          as (-> & response & txt & Hcall & Hunf & Hload & Hs).
        split; [reflexivity|].
        exists [], d, count, mix, [], w, response, txt, v.
        repeat split; try assumption. constructor.
    + destruct (IH _ _ _ _ Hrun)
        as (-> & before & d' & c' & after & collected & wi & response & txt & v' &
            -> & Hbefore & Hc & Hcall & Hunf & Hload & Hs).
      split; [reflexivity|].
      exists ((d, count) :: before), d', c', after, collected, wi, response, txt, v'.
      repeat split; try assumption.
      apply handed_on_skip; [lia | exact Hbefore].
Qed.

Lemma tiers_raise_after notes_data before d count after w collected wi response wi' txt v :
  handed_on completion json_loads notes_data before w collected wi ->
  0 < count ->
  call_llm_with_retry completion (question_prompt notes_data d count) (7 # 10) 3000 3 wi
    = (Ok response, wi') ->
  unfence (content response) = Ok txt ->
  json_loads txt = Some v ->
  scalar v = true ->
  forall acc, tiers notes_data (before ++ (d, count) :: after) acc w = (Raise TypeError, wi').
Proof.
  intros Hbefore Hcount Hcall Hunf Hload Hs.
  induction Hbefore as [w|d0 c0 mix w collected w' Hc0 _ IH
                        |d0 c0 mix w items w1 collected w' Hc0 Htier _ IH];
    intros acc; cbn [app Quiz.tiers].
  - destruct (Z.gtb_spec count 0) as [_|Hnpos]; [|lia].
    destruct (scalar_tier _ _ _ _ _ _ _ _ Hcall Hunf Hload Hs) as [-> ->]. reflexivity.
  - destruct (Z.gtb_spec c0 0) as [Hpos|_]; [lia|]. apply IH, Hcall.
  - destruct (Z.gtb_spec c0 0) as [_|Hnpos]; [|lia].
    destruct (contributes_tier _ _ _ _ _ _ _ _ Htier) as (v0 & -> & ->).
    apply IH, Hcall.
Qed.
End Generators.

(** X14.  The cost of the two generators in service calls: [generate_notes]
    makes at most 6 calls, and none at all for a transcript shorter than
    100 characters, which is refused with its own message;
    [generate_questions] makes at most 6 calls per tier of the mix that
    asks for at least one question, hence at most 18 with the default
    mix. *)
Theorem generators_call_budget
    (completion : service) (json_loads : string -> option json) :
  (forall transcript w,
     let run := Llm.generate_notes completion json_loads transcript w in
     (calls w <= calls run.2 <= calls w + 6)%nat
     /\ (Z.of_nat (String.length transcript) < 100 ->
         run.2 = w
         /\ Llm.success run.1 = false
         /\ Llm.error run.1
            = Some (Text "Transcript is too short to generate meaningful notes.")))
  /\ (forall notes_data num_questions difficulty_mix w t,
        let run := generate_questions completion json_loads notes_data num_questions
                     difficulty_mix w t in
        (calls w <= calls run.1.2
         <= calls w + 6 * length (requested (effective_mix num_questions difficulty_mix)))%nat
        /\ (length (requested (default_mix num_questions)) <= 3)%nat).
Proof.
  split.
  - intros transcript w. cbn zeta. unfold Llm.generate_notes.
    destruct (Z.ltb_spec (Z.of_nat (String.length transcript)) 100) as [Hshort|Hlong].
    + cbn. split; [lia|]. intros _. repeat split.
    + split; [|lia].
      pose proof (call_budget completion (Llm.notes_prompt transcript) (3 # 10) 4000 w) as H.
      cbn zeta in H.
      destruct (call_llm_with_retry _ _ _ _ _ w) as [[response|e] w']; cbn [snd] in *;
        [|exact H].
      destruct (unfence (content response)); [|exact H].
      destruct (json_loads a); [|exact H].
      destruct (all_in Llm.required_keys j) as [[|]|]; exact H.
  - intros notes_data num_questions difficulty_mix w t. cbn zeta. split.
    + unfold generate_questions. fold (effective_mix num_questions difficulty_mix).
      pose proof (tiers_budget completion json_loads notes_data
                    (effective_mix num_questions difficulty_mix) [] w) as H.
      cbn zeta in H.
      destruct (tiers _ _ _ _ [] w) as [[pool|e] w']; cbn [snd] in H.
      * destruct (shuffle pool t). exact H.
      * exact H.
    + unfold requested, default_mix. cbn [List.filter snd].
      repeat match goal with |- context [?c >? 0] => destruct (c >? 0) end; cbn; lia.
Qed.

Lemma generators_call_budget_witness :
  (Llm.generate_notes (always "{}") Json.loads "Too short." w0).2 = w0.
Proof.
  destruct (generators_call_budget (always "{}") Json.loads) as [H _].
  destruct (H "Too short." w0) as [_ Hshort].
  apply Hshort. reflexivity.
Defined.

(** X15.  A mix that asks no tier for a question costs nothing: no call
    of the service, no wait, no random number; the result is a success
    with an empty pool.  This is the case of [num_questions = 0] with the
    default mix. *)
Theorem nothing_requested_nothing_called
    (completion : service) (json_loads : string -> option json)
    (notes_data : Notes) (num_questions : Z) (difficulty_mix : option (list (tier * Z)))
    (w : world) (t : tape) :
  requested (effective_mix num_questions difficulty_mix) = [] ->
  generate_questions completion json_loads notes_data num_questions difficulty_mix w t
  = ({| success := true; questions := Some []; total_generated := Some 0;
        error := None |}, w, t).
Proof.
  intros Hreq. unfold generate_questions.
  fold (effective_mix num_questions difficulty_mix).
  rewrite (tiers_nothing_requested _ _ _ _ _ _ Hreq). reflexivity.
Qed.

Lemma nothing_requested_nothing_called_witness :
  generate_questions (always "[]") Json.loads sample_notes 0 None w0 [1; 2]%nat
  = ({| success := true; questions := Some []; total_generated := Some 0;
        error := None |}, w0, [1; 2]%nat).
Proof.
  apply (nothing_requested_nothing_called (always "[]") Json.loads sample_notes 0 None).
  reflexivity.
Defined.

(** X16.  The one way [generate_questions] fails, on notes of the shape
    the prompt reads (the record [Notes]) and a mix over the three tiers,
    for which building the prompt does not raise.  Its result is a failure
    exactly when the call of a requested tier returns a response that
    decodes to a bare number, boolean or null, the tiers before it having
    handed on their questions: extending the pool by such a value raises
    a TypeError, the questions of the tiers before it are dropped, and no
    random number is drawn.  So it fails when every response decodes to
    such a value and some tier is requested. *)
Theorem generate_questions_fails_on_scalar
    (completion : service) (json_loads : string -> option json)
    (notes_data : Notes) (num_questions : Z) (difficulty_mix : option (list (tier * Z)))
    (w : world) (t : tape) :
  let run := generate_questions completion json_loads notes_data num_questions
               difficulty_mix w t in
  let mix := effective_mix num_questions difficulty_mix in
  (success run.1.1 = false <->
     exists before d count after collected wi response wi' txt v,
       mix = before ++ (d, count) :: after
       /\ handed_on completion json_loads notes_data before w collected wi
       /\ 0 < count
       /\ call_llm_with_retry completion (question_prompt notes_data d count)
            (7 # 10) 3000 3 wi = (Ok response, wi')
       /\ unfence (content response) = Ok txt
       /\ json_loads txt = Some v
       /\ scalar v = true)
  /\ (success run.1.1 = false ->
        error run.1.1 = Some (Fmt "Error generating questions: " TypeError)
        /\ questions run.1.1 = None
        /\ total_generated run.1.1 = None
        /\ run.2 = t)
  /\ ((forall req n, exists r txt v,
          completion req n = Returns r /\ unfence (content r) = Ok txt /\
          json_loads txt = Some v /\ scalar v = true) ->
      requested mix <> [] ->
      success run.1.1 = false).
Proof.
  cbn zeta. unfold generate_questions.
  fold (effective_mix num_questions difficulty_mix).
  split; [split|split].
  - destruct (tiers _ _ _ _ [] w) as [[pool|e] w'] eqn:Hrun.
    + destruct (shuffle pool t). discriminate.
    + intros _. destruct (tiers_raise_at _ _ _ _ _ _ _ _ Hrun)
        as (_ & before & d & count & after & collected & wi & response & txt & v & H).
      exists before, d, count, after, collected, wi, response, w', txt, v. exact H.
  - intros (before & d & count & after & collected & wi & response & wi' & txt & v &
            -> & Hbefore & Hcount & Hcall & Hunf & Hload & Hs).
    rewrite (tiers_raise_after _ _ _ _ _ _ _ _ _ _ _ _ _ _ Hbefore Hcount Hcall Hunf Hload Hs).
    reflexivity.
  - destruct (tiers _ _ _ _ [] w) as [[pool|e] w'] eqn:Hrun.
    + destruct (shuffle pool t). discriminate.
    + intros _. destruct (tiers_raise_at _ _ _ _ _ _ _ _ Hrun) as [-> _].
      repeat split.
  - intros Hall Hreq.
    destruct (tiers_scalar completion json_loads notes_data _ Hall [] w Hreq) as [w' ->].
    reflexivity.
Qed.

Lemma generate_questions_fails_on_scalar_witness :
  success (generate_questions (always "42") Json.loads sample_notes 50 None w0 []).1.1
  = false.
Proof.
  apply (generate_questions_fails_on_scalar (always "42") Json.loads sample_notes 50 None w0 []).
  - intros req n. eexists _, "42", (JInt 42). repeat split.
  - discriminate.
Defined.

Lemma contains_has_key (key : string) (v : json) :
  contains key v = Ok true <-> has_key v key.
Proof.
  destruct v as [| | |s|xs|kvs]; cbn [contains has_key];
    try (split; [discriminate | contradiction]).
  - split; [intros [= H]; exact H | intros ->; reflexivity].
  - split.
    + intros [= H]. apply existsb_exists in H as (x & Hin & Hx).
      destruct x; try discriminate. apply String.eqb_eq in Hx as ->.
      apply list_elem_of_In, Hin.
    + intros Hin. f_equal. apply existsb_exists. exists (JStr key).
      split; [apply list_elem_of_In, Hin | apply String.eqb_refl].
  - split.
    + intros [= H]. apply bool_decide_eq_true in H.
      destruct (decide (key ∈ kvs.*1)) as [Hin|Hout]; [exact Hin|].
      apply assoc_None in Hout. rewrite Hout in H. destruct H; discriminate.
    + intros Hin. f_equal. apply bool_decide_eq_true.
      destruct (assoc key kvs) eqn:Hk; [eauto|].
      apply assoc_None in Hk. contradiction.
Qed.

Lemma contains_bool (key : string) (v : json) (b : bool) :
  contains key v = Ok b -> (b = true <-> has_key v key).
Proof.
  intros H. rewrite <- contains_has_key, H. split; congruence.
Qed.

Lemma all_in_has_key (keys : list string) (v : json) :
  all_in keys v = Ok true <-> (scalar v = true -> keys = []) /\ Forall (has_key v) keys.
Proof.
  induction keys as [|key keys IH]; cbn [all_in].
  - split; [intros _; split; [reflexivity | constructor] | reflexivity].
  - destruct (contains key v) as [b|e] eqn:Hc; cbn [mbind result_bind].
    + pose proof (contains_bool _ _ _ Hc) as Hb.
      assert (Hs : scalar v = false) by (destruct v; cbn in Hc |- *; congruence).
      destruct b.
      * rewrite IH. split.
        -- intros [_ Hall]. split; [rewrite Hs; discriminate|].
           constructor; [apply Hb; reflexivity | exact Hall].
        -- intros [_ Hall]. apply Forall_cons in Hall as [_ Hall].
           split; [rewrite Hs; discriminate | exact Hall].
      * split; [discriminate|]. intros [_ Hall]. apply Forall_cons in Hall as [Hk _].
        apply Hb in Hk. discriminate.
    + split; [discriminate|]. intros [_ Hall]. apply Forall_cons in Hall as [Hk _].
      apply contains_has_key in Hk. congruence.
Qed.

(** X17.  The validation of [generate_notes] is Python's [in] on whatever
    was decoded.  For a response that decodes to [v], the result is a
    success exactly when each of the four names is a key of [v] if [v] is
    an object, an item of [v] if it is a list, a piece of [v] if it is a
    string; other keys and the order do not matter.  On success the notes
    are [v] as decoded, with the token counts of the response. *)
Theorem notes_validation_is_membership
    (completion : service) (json_loads : string -> option json)
    (transcript : string) (w w' : world) (response : response) (txt : string) (v : json) :
  100 <= Z.of_nat (String.length transcript) ->
  call_llm_with_retry completion (Llm.notes_prompt transcript) (3 # 10) 4000 3 w
    = (Ok response, w') ->
  unfence (content response) = Ok txt ->
  json_loads txt = Some v ->
  let r := (Llm.generate_notes completion json_loads transcript w).1 in
  (Llm.success r = true <-> Forall (has_key v) Llm.required_keys)
  /\ (Llm.success r = true ->
      Llm.notes r = Some v
      /\ Llm.usage r = Some {| Llm.input := prompt_tokens response;
                               Llm.output := completion_tokens response;
                               Llm.total := total_tokens response |}).
Proof.
  intros Hlong Hrun Hunf Hload. cbn zeta.
  rewrite (notes_step completion json_loads transcript w Hlong), Hrun, Hunf, Hload.
  destruct (all_in Llm.required_keys v) as [[|]|e] eqn:Hall; cbn [fst Llm.success].
  - apply all_in_has_key in Hall as [_ Hall].
    split; [split; [intros _; exact Hall | reflexivity]|].
    intros _. split; reflexivity.
  - split; [|discriminate]. split; [discriminate|]. intros Hkeys.
    assert (Hs : scalar v = false).
    { apply Forall_cons in Hkeys as [Hk _]. destruct v; try contradiction; reflexivity. }
    assert (Hok : all_in Llm.required_keys v = Ok true).
    { apply all_in_has_key. split; [rewrite Hs; discriminate | exact Hkeys]. }
    congruence.
  - rewrite (proj1 (handlers_failure e (Some txt))).
    split; [|discriminate]. split; [discriminate|]. intros Hkeys.
    assert (Hs : scalar v = false).
    { apply Forall_cons in Hkeys as [Hk _]. destruct v; try contradiction; reflexivity. }
    assert (Hok : all_in Llm.required_keys v = Ok true).
    { apply all_in_has_key. split; [rewrite Hs; discriminate | exact Hkeys]. }
    congruence.
Qed.

Lemma notes_validation_is_membership_witness :
  Llm.success
    (Llm.generate_notes
       (always (Json.text "['summary', 'key_concepts', 'topics', 'detailed_notes']"))
       Json.loads sample_transcript w0).1 = true.
Proof.
  eapply (notes_validation_is_membership
            (always (Json.text "['summary', 'key_concepts', 'topics', 'detailed_notes']"))
            Json.loads sample_transcript w0).
  - vm_compute. discriminate.
  - reflexivity.
  - reflexivity.
  - vm_compute. reflexivity.
  - repeat constructor.
Defined.

(** ** Session cache: one file per video *)

(** X18.  Sessions do not disturb each other: for video ids without a
    slash, saving the session of one video leaves the cached session of
    every other video as it was, and does not make one exist. *)
Theorem sessions_are_isolated
    (json_dump : value -> string) (json_load : string -> result json) (now : string)
    (self : Storage.SessionStorage) (saved other : string)
    (transcript notes questions : value) (fs : Storage.filesystem) :
  file_name saved -> file_name other ->
  saved <> other ->
  let fs' := (Storage.save_session json_dump now self saved transcript notes questions fs).2 in
  Storage.load_session json_load self other fs' = Storage.load_session json_load self other fs
  /\ Storage.session_exists self other fs' = Storage.session_exists self other fs.
Proof.
  intros Hsaved Hother Hne. cbn zeta.
  destruct (save_session_files json_dump now self saved transcript notes questions fs)
    as [Hdirs Hfiles].
  unfold Storage.load_session, Storage.session_exists, Storage.path_exists.
  rewrite Hdirs, Hfiles; [split; reflexivity|].
  intros Heq. apply Hne. symmetry. eapply session_path_inj; eassumption.
Qed.

Lemma sessions_are_isolated_witness :
  Storage.session_exists data_dir "abcdefghijk"
    (Storage.save_session Json.dump "2024-05-01T10:00:00" data_dir "dQw4w9WgXcQ"
       (VStr "t") (value_of cached_notes) (value_of cached_questions) fresh).2
  = Storage.session_exists data_dir "abcdefghijk" fresh.
Proof.
  apply (sessions_are_isolated Json.dump Json.load "2024-05-01T10:00:00" data_dir
           "dQw4w9WgXcQ" "abcdefghijk" (VStr "t") (value_of cached_notes)
           (value_of cached_questions) fresh).
  - reflexivity.
  - reflexivity.
  - discriminate.
Defined.


(** ** Video ids *)

Section VideoIds.
Import Transcript.

Lemma run_plain (s rest : string) :
  all_chars id_char s = true -> run (s +:+ rest) = s +:+ run rest.
Proof.
  induction s as [|c s IH]; [reflexivity|].
  cbn [all_chars]. intros H. apply andb_prop in H as [Hc Hs].
  rewrite append_cons. cbn [run]. rewrite Hc, (IH Hs). reflexivity.
Qed.

Lemma group_plain (s rest : string) :
  plain_id s -> run rest = "" -> group (s +:+ rest) = Some s.
Proof.
  intros [Hne Hall] Hrest. unfold group.
  rewrite (run_plain _ _ Hall), Hrest, append_nil_r.
  destruct s; [contradiction | reflexivity].
Qed.

Lemma run_spec (s : string) :
  all_chars id_char (run s) = true /\ exists rest, s = run s +:+ rest.
Proof.
  induction s as [|c s [IHall [rest IHrest]]]; cbn [run].
  - split; [reflexivity | exists ""; reflexivity].
  - destruct (id_char c) eqn:Hc.
    + cbn [all_chars]. rewrite Hc, IHall. split; [reflexivity|].
      exists rest. rewrite append_cons. f_equal. exact IHrest.
    + split; [reflexivity|]. exists (String c s). reflexivity.
Qed.

Lemma str_in_at_start (g rest : string) : str_in g (g +:+ rest) = true.
Proof.
  assert (Hpre : String.prefix g (g +:+ rest) = true)
    by (rewrite prefix_after, after_append; reflexivity).
  destruct (g +:+ rest); [rewrite str_in_nil | rewrite str_in_cons, orb_true_iff; left];
    exact Hpre.
Qed.

Lemma group_Some (s g : string) :
  group s = Some g -> plain_id g /\ exists rest, s = g +:+ rest.
Proof.
  unfold group. destruct (run_spec s) as [Hall Hrest].
  destruct (run s) as [|c r] eqn:Hr; [discriminate|].
  intros [= <-]. split; [split; [discriminate | exact Hall] | exact Hrest].
Qed.

(** A prefix followed by the group: what was matched. *)
Lemma after_group (p s g : string) :
  after p s ≫= group = Some g ->
  plain_id g /\ exists rest, s = p +:+ g +:+ rest.
Proof.
  destruct (after p s) as [r|] eqn:Hr; [|discriminate]. cbn [mbind option_bind].
  intros Hg. apply after_Some in Hr. apply group_Some in Hg as [Hplain [rest ->]].
  split; [exact Hplain | exists rest; exact Hr].
Qed.

Lemma alternatives_Some (alts : list string) (s g : string) :
  alternatives alts s = Some g ->
  plain_id g /\ exists p rest, p ∈ alts /\ s = p +:+ g +:+ rest.
Proof.
  induction alts as [|p alts IH]; cbn [alternatives]; [discriminate|].
  destruct (after p s ≫= group) as [g'|] eqn:Hp.
  - intros [= ->]. apply after_group in Hp as [Hplain [rest ->]].
    split; [exact Hplain|]. exists p, rest. split; [left | reflexivity].
  - intros H. destruct (IH H) as [Hplain (q & rest & Hq & ->)].
    split; [exact Hplain|]. exists q, rest. split; [right; exact Hq | reflexivity].
Qed.

Lemma last_v_Some (t g : string) :
  last_v t = Some g -> plain_id g /\ str_in g t = true.
Proof.
  assert (Hhere : forall s, v_group s = Some g -> plain_id g /\ str_in g s = true).
  { intros s H. apply after_group in H as [Hplain [rest ->]].
    split; [exact Hplain|]. apply (str_in_append_l g "v="), str_in_at_start. }
  induction t as [|c t IH]; cbn [last_v]; [apply Hhere|].
  destruct (Ascii.eqb c (ascii_of_nat 10)); [apply Hhere|].
  destruct (last_v t) as [g'|] eqn:Hl; [|apply Hhere].
  intros [= ->]. destruct (IH eq_refl) as [Hplain Hin].
  split; [exact Hplain|]. rewrite str_in_cons, Hin. apply orb_true_r.
Qed.

Lemma search_Some (at_start : string -> option string) (s g : string) :
  search at_start s = Some g ->
  exists pre suf, s = pre +:+ suf /\ at_start suf = Some g.
Proof.
  induction s as [|c s IH]; cbn [search].
  - destruct (at_start "") eqn:H0; [|discriminate].
    intros [= ->]. exists "", "". split; [reflexivity | exact H0].
  - destruct (at_start (String c s)) eqn:H0.
    + intros [= ->]. exists "", (String c s). split; [reflexivity | exact H0].
    + intros H. destruct (IH H) as (pre & suf & -> & Hat).
      exists (String c pre), suf. split; [reflexivity | exact Hat].
Qed.

Lemma search_skip (at_start : string -> option string) (c : ascii) (s : string) :
  at_start (String c s) = None -> search at_start (String c s) = search at_start s.
Proof. intros H. cbn [search]. rewrite H. reflexivity. Qed.

Lemma search_hit (at_start : string -> option string) (s g : string) :
  at_start s = Some g -> search at_start s = Some g.
Proof. intros H. destruct s; cbn [search]; rewrite H; reflexivity. Qed.

(** Both patterns start with a host that holds "youtu". *)
Lemma first_match_Some (youtube_url g : string) :
  first_match patterns youtube_url = Some g ->
  plain_id g /\ str_in g youtube_url = true /\ str_in "youtu" youtube_url = true.
Proof.
  unfold patterns. cbn [first_match].
  destruct (search (alternatives prefixes) youtube_url) as [g1|] eqn:H1.
  - intros [= ->]. apply search_Some in H1 as (pre & suf & -> & Hat).
    apply alternatives_Some in Hat as [Hplain (p & rest & Hp & ->)].
    split; [exact Hplain|]. split.
    + apply str_in_append_l, str_in_append_l, str_in_at_start.
    + apply str_in_append_l, str_in_append_r.
      unfold prefixes in Hp. rewrite !elem_of_cons, elem_of_nil in Hp.
      destruct Hp as [->|[->|[->|[]]]]; reflexivity.
  - destruct (search watch_query youtube_url) as [g2|] eqn:H2; [|discriminate].
    intros [= ->]. apply search_Some in H2 as (pre & suf & -> & Hat).
    unfold watch_query in Hat.
    destruct (after "youtube.com/watch?" suf) as [t|] eqn:Ht; [|discriminate].
    cbn [mbind option_bind] in Hat. apply after_Some in Ht. subst suf.
    apply last_v_Some in Hat as [Hplain Hin].
    split; [exact Hplain|]. split.
    + apply str_in_append_l, str_in_append_l, Hin.
    + apply str_in_append_l, str_in_append_r. reflexivity.
Qed.

Lemma plain_id_in_itself (s : string) : str_in s s = true.
Proof. rewrite <- (append_nil_r s) at 2. apply str_in_at_start. Qed.
End VideoIds.

(** X20.  The links of [get_video_metadata] lead back to the video:
    [extract_video_id] finds the id in the watch link and in the embed
    link built from it, and in the short [youtu.be] link, also when the
    link goes on with a query or a fragment; this for every id that is
    not empty and holds no [&], [?], [#] or newline. *)
Theorem video_id_round_trip (video_id rest : string) :
  plain_id video_id ->
  Transcript.run rest = "" ->
  let meta := Transcript.get_video_metadata video_id in
  Transcript.extract_video_id (Transcript.url meta +:+ rest) = Some video_id
  /\ Transcript.extract_video_id (Transcript.embed_url meta +:+ rest) = Some video_id
  /\ Transcript.extract_video_id ("https://youtu.be/" +:+ video_id +:+ rest) = Some video_id.
Proof.
  intros Hplain Hrest. cbn zeta.
  pose proof (group_plain _ _ Hplain Hrest) as Hgroup.
  unfold Transcript.get_video_metadata, Transcript.extract_video_id, Transcript.patterns.
  cbn [Transcript.url Transcript.embed_url Transcript.first_match].
  rewrite !append_assoc.
  set (tail := video_id +:+ rest) in *.
  assert (Hwatch : Transcript.alternatives Transcript.prefixes
                     ("youtube.com/watch?v=" +:+ tail) = Some video_id).
  { unfold Transcript.prefixes. cbn [Transcript.alternatives].
    rewrite after_append. cbn [mbind option_bind]. rewrite Hgroup. reflexivity. }
  assert (Hembed : Transcript.alternatives Transcript.prefixes
                     ("youtube.com/embed/" +:+ tail) = Some video_id).
  { unfold Transcript.prefixes. cbn [Transcript.alternatives].
    change (Transcript.after "youtube.com/watch?v=" ("youtube.com/embed/" +:+ tail))
      with (@None string).
    change (Transcript.after "youtu.be/" ("youtube.com/embed/" +:+ tail))
      with (@None string).
    cbn [mbind option_bind].
    rewrite after_append. cbn [mbind option_bind]. rewrite Hgroup. reflexivity. }
  assert (Hshort : Transcript.alternatives Transcript.prefixes
                     ("youtu.be/" +:+ tail) = Some video_id).
  { unfold Transcript.prefixes. cbn [Transcript.alternatives].
    change (Transcript.after "youtube.com/watch?v=" ("youtu.be/" +:+ tail))
      with (@None string).
    cbn [mbind option_bind].
    rewrite after_append. cbn [mbind option_bind]. rewrite Hgroup. reflexivity. }
  split; [|split].
  - change ("https://www.youtube.com/watch?v=" +:+ tail)
      with ("https://www." +:+ "youtube.com/watch?v=" +:+ tail).
    set (link := "youtube.com/watch?v=" +:+ tail) in *.
    rewrite !append_cons, append_nil_l.
    do 12 (rewrite search_skip by reflexivity).
    rewrite (search_hit _ _ _ Hwatch). reflexivity.
  - change ("https://www.youtube.com/embed/" +:+ tail)
      with ("https://www." +:+ "youtube.com/embed/" +:+ tail).
    set (link := "youtube.com/embed/" +:+ tail) in *.
    rewrite !append_cons, append_nil_l.
    do 12 (rewrite search_skip by reflexivity).
    rewrite (search_hit _ _ _ Hembed). reflexivity.
  - change ("https://youtu.be/" +:+ tail) with ("https://" +:+ "youtu.be/" +:+ tail).
    set (link := "youtu.be/" +:+ tail) in *.
    rewrite !append_cons, append_nil_l.
    do 8 (rewrite search_skip by reflexivity).
    rewrite (search_hit _ _ _ Hshort). reflexivity.
Qed.

Lemma video_id_round_trip_witness :
  Transcript.extract_video_id ("https://www.youtube.com/watch?v=EkZlFPhMB4E" +:+ "&t=42s")
  = Some "EkZlFPhMB4E".
Proof.
  apply (video_id_round_trip "EkZlFPhMB4E" "&t=42s").
  - split; [discriminate | reflexivity].
  - reflexivity.
Defined.

(** X21.  What [extract_video_id] can return.  An id it returns is not
    empty and is a piece of the text given.  It comes from a link, and
    then the text holds "youtu" and the id has no [&], [?], [#] or
    newline; or it is the whole text, taken as a bare id because it has
    11 characters and no slash.  So a text without "youtu" is accepted
    exactly when it has 11 characters and no slash. *)
Theorem extract_video_id_result (youtube_url : string) :
  (forall video_id,
     Transcript.extract_video_id youtube_url = Some video_id ->
     video_id <> "" /\ str_in video_id youtube_url = true
     /\ ((plain_id video_id /\ str_in "youtu" youtube_url = true)
         \/ (video_id = youtube_url /\ String.length youtube_url = 11%nat
             /\ str_in "/" youtube_url = false)))
  /\ (str_in "youtu" youtube_url = false ->
      Transcript.extract_video_id youtube_url =
        if (Z.of_nat (String.length youtube_url) =? 11) && negb (str_in "/" youtube_url)
        then Some youtube_url else None).
Proof.
  unfold Transcript.extract_video_id. split.
  - intros video_id.
    destruct (Transcript.first_match Transcript.patterns youtube_url) as [g|] eqn:Hm.
    + intros [= ->]. apply first_match_Some in Hm as (Hplain & Hin & Hhost).
      split; [apply Hplain|]. split; [exact Hin|]. left. split; assumption.
    + destruct (Z.eqb_spec (Z.of_nat (String.length youtube_url)) 11) as [Hlen|];
        [|discriminate].
      destruct (str_in "/" youtube_url) eqn:Hslash; [discriminate|].
      intros [= <-]. split.
      * intros ->. discriminate.
      * split; [apply plain_id_in_itself|]. right. repeat split. lia.
  - intros Hhost.
    destruct (Transcript.first_match Transcript.patterns youtube_url) as [g|] eqn:Hm;
      [|reflexivity].
    apply first_match_Some in Hm as (_ & _ & Hyes). congruence.
Qed.

Lemma extract_video_id_result_witness :
  Transcript.extract_video_id "EkZlFPhMB4E" = Some "EkZlFPhMB4E".
Proof.
  destruct (extract_video_id_result "EkZlFPhMB4E") as [_ H].
  apply H. reflexivity.
Defined.

(** ** Transcripts *)

Section Words.
Import Transcript.

Lemma not_space_blank (c : ascii) : not_space c = true -> c <> " "%char.
Proof. intros H ->. discriminate. Qed.

Lemma words_are_words (s : string) : Forall word (words s).
Proof.
  induction s as [|c s IH]; cbn [words]; [constructor|].
  destruct (is_space c) eqn:Hc; [exact IH|].
  assert (Hone : word (String c "")).
  { split; [discriminate|]. cbn [all_chars]. unfold not_space. rewrite Hc. reflexivity. }
  destruct s as [|c' s']; [constructor; [exact Hone | constructor]|].
  destruct (is_space c') eqn:Hc'; [constructor; [exact Hone | exact IH]|].
  destruct (words (String c' s')) as [|w ws]; [constructor; [exact Hone | constructor]|].
  apply Forall_cons in IH as [[_ Hw] Hws].
  constructor; [|exact Hws]. split; [discriminate|].
  cbn [all_chars]. unfold not_space at 1. rewrite Hc. exact Hw.
Qed.

Lemma word_starts (w rest : string) : word w -> starts_word (w +:+ rest).
Proof.
  intros [Hne Hall]. destruct w as [|c w]; [contradiction|].
  rewrite append_cons. cbn [all_chars] in Hall. apply andb_prop in Hall as [Hc _]. exact Hc.
Qed.

Lemma join_cons2 (sep p q : string) (rest : list string) :
  join sep (p :: q :: rest) = p +:+ sep +:+ join sep (q :: rest).
Proof. reflexivity. Qed.

Lemma join_starts (w : string) (ws : list string) :
  word w -> starts_word (join " " (w :: ws)).
Proof.
  intros Hw. destruct ws as [|w2 ws].
  - cbn [join]. rewrite <- (append_nil_r w). apply word_starts, Hw.
  - rewrite join_cons2. apply word_starts, Hw.
Qed.

Lemma rstrip_word (w : string) : word w -> rstrip w = w.
Proof.
  intros [Hne Hall]. induction w as [|c w IH]; [contradiction|].
  cbn [all_chars] in Hall. apply andb_prop in Hall as [Hc Hw].
  unfold not_space in Hc. apply negb_true_iff in Hc.
  cbn [rstrip]. destruct w as [|c' w'].
  - cbn [rstrip]. rewrite Hc. reflexivity.
  - rewrite IH by (discriminate || exact Hw). reflexivity.
Qed.

Lemma rstrip_append (x y : string) : rstrip y <> "" -> rstrip (x +:+ y) = x +:+ rstrip y.
Proof.
  intros Hy. induction x as [|c x IH]; [reflexivity|].
  rewrite !append_cons. cbn [rstrip]. rewrite IH.
  destruct (x +:+ rstrip y) eqn:E; [|reflexivity].
  destruct x; [rewrite append_nil_l in E; contradiction | discriminate].
Qed.

Lemma rstrip_join (ws : list string) :
  Forall word ws -> rstrip (join " " ws) = join " " ws.
Proof.
  induction ws as [|w ws IH]; intros Hws; [reflexivity|].
  apply Forall_cons in Hws as [Hw Hws].
  destruct ws as [|w2 ws]; [apply rstrip_word, Hw|].
  rewrite join_cons2. specialize (IH Hws).
  assert (Hne : rstrip (join " " (w2 :: ws)) <> "").
  { rewrite IH. pose proof (join_starts w2 ws (Forall_inv Hws)) as Hs.
    destruct (join " " (w2 :: ws)); [contradiction | discriminate]. }
  rewrite rstrip_append; rewrite rstrip_append by exact Hne; rewrite IH; [reflexivity|].
  destruct (join " " (w2 :: ws)); [rewrite IH in Hne; contradiction | discriminate].
Qed.

Lemma lstrip_starts (s : string) : starts_word s -> lstrip s = s.
Proof.
  destruct s as [|c s]; [contradiction|]. cbn [starts_word lstrip].
  unfold not_space. intros Hc. apply negb_true_iff in Hc. rewrite Hc. reflexivity.
Qed.

Lemma strip_join (ws : list string) : Forall word ws -> strip (join " " ws) = join " " ws.
Proof.
  intros Hws. unfold strip. destruct ws as [|w ws]; [reflexivity|].
  rewrite (lstrip_starts _ (join_starts w ws (Forall_inv Hws))).
  apply rstrip_join, Hws.
Qed.

Lemma all_chars_append (p : ascii -> bool) (a b : string) :
  all_chars p (a +:+ b) = all_chars p a && all_chars p b.
Proof.
  induction a as [|c a IH]; [reflexivity|].
  rewrite append_cons. cbn [all_chars]. rewrite IH. apply andb_assoc.
Qed.

Lemma all_chars_weaken (p q : ascii -> bool) (s : string) :
  (forall c, p c = true -> q c = true) -> all_chars p s = true -> all_chars q s = true.
Proof.
  intros Hpq. induction s as [|c s IH]; [reflexivity|].
  cbn [all_chars]. intros H. apply andb_prop in H as [Hc Hs].
  rewrite (Hpq _ Hc), (IH Hs). reflexivity.
Qed.

Lemma blanks_join (ws : list string) :
  Forall word ws ->
  all_chars (fun c => not_space c || Ascii.eqb c " ") (join " " ws) = true.
Proof.
  assert (Hword : forall w, word w ->
            all_chars (fun c => not_space c || Ascii.eqb c " ") w = true).
  { intros w [_ Hall]. eapply all_chars_weaken; [|exact Hall].
    intros c Hc. rewrite Hc. reflexivity. }
  induction ws as [|w ws IH]; intros Hws; [reflexivity|].
  apply Forall_cons in Hws as [Hw Hws].
  destruct ws as [|w2 ws]; [apply Hword, Hw|].
  rewrite join_cons2, !all_chars_append, (Hword _ Hw), (IH Hws). reflexivity.
Qed.

Lemma no_gap_word (w rest : string) :
  word w -> starts_word rest -> str_in "  " rest = false ->
  str_in "  " (w +:+ " " +:+ rest) = false.
Proof.
  intros [_ Hall] Hstart Hrest. induction w as [|c w IH].
  - rewrite append_nil_l. destruct rest as [|r rest]; [contradiction|].
    change (" " +:+ String r rest) with (String " " (String r rest)).
    rewrite str_in_cons, Hrest, orb_false_r.
    cbn [starts_word] in Hstart. apply not_space_blank in Hstart.
    cbn [String.prefix]. destruct (ascii_dec " " " ") as [_|Hne]; [|contradiction].
    destruct (ascii_dec " " r) as [Heq|_]; [congruence | reflexivity].
  - cbn [all_chars] in Hall. apply andb_prop in Hall as [Hc Hw].
    rewrite append_cons, str_in_cons, (IH Hw), orb_false_r.
    apply not_space_blank in Hc. cbn [String.prefix].
    destruct (ascii_dec " " c) as [Heq|_]; [congruence | reflexivity].
Qed.

Lemma no_gap_single (w : string) : word w -> str_in "  " w = false.
Proof.
  intros [_ Hall]. induction w as [|c w IH]; [reflexivity|].
  cbn [all_chars] in Hall. apply andb_prop in Hall as [Hc Hw].
  rewrite str_in_cons, (IH Hw), orb_false_r.
  apply not_space_blank in Hc. cbn [String.prefix].
  destruct (ascii_dec " " c) as [Heq|_]; [congruence | reflexivity].
Qed.

Lemma no_gap_join (ws : list string) :
  Forall word ws -> str_in "  " (join " " ws) = false.
Proof.
  induction ws as [|w ws IH]; intros Hws; [reflexivity|].
  apply Forall_cons in Hws as [Hw Hws].
  destruct ws as [|w2 ws]; [apply no_gap_single, Hw|].
  rewrite join_cons2. apply no_gap_word; [exact Hw | | apply IH, Hws].
  apply join_starts, (Forall_inv Hws).
Qed.

Lemma normalized_join (ws : list string) : Forall word ws -> normalized (join " " ws).
Proof.
  intros Hws. split; [apply strip_join, Hws|].
  split; [apply no_gap_join, Hws | apply blanks_join, Hws].
Qed.

Lemma words_single (w : string) : word w -> words w = [w].
Proof.
  intros [Hne Hall]. induction w as [|c w IH]; [contradiction|].
  cbn [all_chars] in Hall. apply andb_prop in Hall as [Hc Hw].
  unfold not_space in Hc. apply negb_true_iff in Hc.
  cbn [words]. rewrite Hc. destruct w as [|c' w']; [reflexivity|].
  cbn [all_chars] in Hw. apply andb_prop in Hw as [Hc' Hw'].
  unfold not_space in Hc'. apply negb_true_iff in Hc'. rewrite Hc'.
  rewrite IH; [reflexivity | discriminate |].
  cbn [all_chars]. unfold not_space at 1. rewrite Hc'. exact Hw'.
Qed.

Lemma words_blank (s : string) : words (" " +:+ s) = words s.
Proof. reflexivity. Qed.

Lemma words_word (w rest : string) :
  word w -> words (w +:+ " " +:+ rest) = w :: words rest.
Proof.
  intros [Hne Hall]. induction w as [|c w IH]; [contradiction|].
  cbn [all_chars] in Hall. apply andb_prop in Hall as [Hc Hw].
  unfold not_space in Hc. apply negb_true_iff in Hc.
  rewrite append_cons. cbn [words]. rewrite Hc.
  destruct w as [|c' w'].
  - rewrite append_nil_l.
    change (" " +:+ rest) with (String " " rest).
    change (is_space " ") with true. cbv iota. reflexivity.
  - rewrite append_cons.
    cbn [all_chars] in Hw. apply andb_prop in Hw as [Hc' Hw'].
    pose proof Hc' as Hc''. unfold not_space in Hc''. apply negb_true_iff in Hc''.
    rewrite Hc''. rewrite <- append_cons, IH; [reflexivity | discriminate |].
    cbn [all_chars]. rewrite Hc'. exact Hw'.
Qed.

(** Joining words by blanks and splitting again gives the words. *)
Lemma words_join (ws : list string) : Forall word ws -> words (join " " ws) = ws.
Proof.
  induction ws as [|w ws IH]; intros Hws; [reflexivity|].
  apply Forall_cons in Hws as [Hw Hws].
  destruct ws as [|w2 ws]; [apply words_single, Hw|].
  rewrite join_cons2, (words_word _ _ Hw), (IH Hws). reflexivity.
Qed.
End Words.

(** X22.  The transcript [get_transcript] returns is clean.  On success it
    is the text of the snippets with the same words in the same order,
    and in it white space is single blanks between words: none at the
    ends, no two in a row, no newline or tab.  A text in which no video id
    is found is refused with the message for an invalid link, whatever
    the transcript service would do; and every failure carries a message
    and no transcript. *)
Theorem transcript_is_normalized
    (seconds : Type) (plus : seconds -> seconds -> seconds) (zero : seconds)
    (fetch : string -> list string -> Transcript.fetched seconds)
    (youtube_url language : string) :
  let r := Transcript.get_transcript seconds plus zero fetch youtube_url language in
  (Transcript.success seconds r = true ->
     exists video_id snippets spoken clean,
       Transcript.extract_video_id youtube_url = Some video_id
       /\ fetch video_id [language; "en"] = Transcript.Fetched seconds snippets spoken
       /\ Transcript.video_id seconds r = Some video_id
       /\ Transcript.language seconds r = Some spoken
       /\ Transcript.transcript seconds r = Some clean
       /\ normalized clean
       /\ Transcript.words clean
          = Transcript.words (join " " (map (Transcript.text seconds) snippets)))
  /\ (Transcript.extract_video_id youtube_url = None ->
      r = Transcript.no_transcript seconds
            "Invalid YouTube URL. Please provide a valid video link.")
  /\ (Transcript.success seconds r = false ->
      Transcript.transcript seconds r = None /\ is_Some (Transcript.error seconds r)).
Proof.
  cbn zeta. unfold Transcript.get_transcript.
  destruct (Transcript.extract_video_id youtube_url) as [[|c video_id]|] eqn:Hid.
  - split; [discriminate|]. split; [discriminate|]. intros _. cbn. eauto.
  - split; [|split; [discriminate|]].
    + destruct (fetch (String c video_id) [language; "en"]) as [snippets spoken| | | |e]
        eqn:Hfetch; try discriminate.
      intros _. eexists _, snippets, spoken, _.
      split; [reflexivity|]. split; [exact Hfetch|]. cbn.
      repeat split.
      * apply strip_join, words_are_words.
      * apply no_gap_join, words_are_words.
      * apply blanks_join, words_are_words.
      * apply words_join, words_are_words.
    + destruct (fetch (String c video_id) [language; "en"]); try discriminate;
        intros _; cbn; eauto.
  - split; [discriminate|]. split; [reflexivity|]. intros _. cbn. eauto.
Qed.

Lemma transcript_is_normalized_witness :
  Transcript.get_transcript Z Z.add 0 (fun _ _ => Transcript.VideoUnavailable Z)
    "not a link" "en"
  = Transcript.no_transcript Z "Invalid YouTube URL. Please provide a valid video link.".
Proof.
  apply (transcript_is_normalized Z Z.add 0 (fun _ _ => Transcript.VideoUnavailable Z)
           "not a link" "en").
  reflexivity.
Defined.

(** A transcript of two snippets. *)
Example transcript_run :
  Transcript.transcript Z
    (Transcript.get_transcript Z Z.add 0
       (fun _ _ => Transcript.Fetched Z
          [ {| Transcript.text := "Hello  and" +:+ nl +:+ "welcome ";
               Transcript.start := 0; Transcript.duration := 3 |};
            {| Transcript.text := " to the course";
               Transcript.start := 3; Transcript.duration := 2 |} ] "en")
       "https://youtu.be/EkZlFPhMB4E" "en")
  = Some "Hello and welcome to the course".
Proof. vm_compute. reflexivity. Qed.

(** ** Escaping for the PDF *)

Section Escaping.
Import Pdf.

Lemma each_char_append (f : ascii -> string) (a b : string) :
  each_char f (a +:+ b) = each_char f a +:+ each_char f b.
Proof.
  induction a as [|c a IH]; [reflexivity|].
  rewrite append_cons. cbn [each_char]. rewrite IH, append_assoc. reflexivity.
Qed.

Lemma replace_append (old : ascii) (new a b : string) :
  replace old new (a +:+ b) = replace old new a +:+ replace old new b.
Proof.
  induction a as [|c a IH]; [reflexivity|].
  rewrite append_cons. cbn [replace]. rewrite IH.
  destruct (Ascii.eqb c old); [rewrite append_assoc|]; reflexivity.
Qed.

(** Replacing in a text written character by character. *)
Lemma replace_each_char (old : ascii) (new : string) (f : ascii -> string) (s : string) :
  replace old new (each_char f s) = each_char (fun c => replace old new (f c)) s.
Proof.
  induction s as [|c s IH]; [reflexivity|].
  cbn [each_char]. rewrite replace_append, IH. reflexivity.
Qed.

Lemma replace_as_each_char (old : ascii) (new s : string) :
  replace old new s =
    each_char (fun c => if Ascii.eqb c old then new else String c "") s.
Proof.
  induction s as [|c s IH]; [reflexivity|].
  cbn [replace each_char]. rewrite IH. destruct (Ascii.eqb c old); reflexivity.
Qed.

Lemma each_char_ext (f g : ascii -> string) (s : string) :
  (forall c, f c = g c) -> each_char f s = each_char g s.
Proof.
  intros Hfg. induction s as [|c s IH]; [reflexivity|].
  cbn [each_char]. rewrite Hfg, IH. reflexivity.
Qed.

(** The five replacements, made one after the other on one character,
    write its entity: the [&] of an entity written earlier is not escaped
    again. *)
Lemma replacements_of_char (c : ascii) :
  replace "'" "&apos;"
    (replace (ascii_of_nat 34) "&quot;"
       (replace ">" "&gt;"
          (replace "<" "&lt;"
             (if Ascii.eqb c "&" then "&amp;" else String c ""))))
  = entity c.
Proof.
  unfold entity.
  destruct (Ascii.eqb_spec c "&") as [->|H1]; [reflexivity|].
  destruct (Ascii.eqb_spec c "<") as [->|H2]; [reflexivity|].
  destruct (Ascii.eqb_spec c ">") as [->|H3]; [reflexivity|].
  destruct (Ascii.eqb_spec c (ascii_of_nat 34)) as [->|H4]; [reflexivity|].
  destruct (Ascii.eqb_spec c "'") as [->|H5]; [reflexivity|].
  apply Ascii.eqb_neq in H2, H3, H4, H5.
  cbn [replace]. rewrite H2. cbn [replace]. rewrite H3.
  cbn [replace]. rewrite H4. cbn [replace]. rewrite H5. reflexivity.
Qed.

Lemma escape_xml_each_char (text : string) : escape_xml text = each_char entity text.
Proof.
  unfold escape_xml. destruct text as [|c text]; [reflexivity|].
  cbn [String.eqb]. cbv zeta.
  rewrite (replace_as_each_char "&"), !replace_each_char.
  apply each_char_ext, replacements_of_char.
Qed.

Lemma entity_no_markup (c : ascii) : all_chars no_markup (entity c) = true.
Proof.
  unfold entity.
  destruct (Ascii.eqb_spec c "&") as [->|H1]; [reflexivity|].
  destruct (Ascii.eqb c "<") eqn:H2; [reflexivity|].
  destruct (Ascii.eqb c ">") eqn:H3; [reflexivity|].
  destruct (Ascii.eqb c (ascii_of_nat 34)) eqn:H4; [reflexivity|].
  destruct (Ascii.eqb c "'") eqn:H5; [reflexivity|].
  cbn [all_chars]. unfold no_markup, markup. rewrite H2, H3, H4, H5. reflexivity.
Qed.

Lemma each_entity_no_markup (s : string) : all_chars no_markup (each_char entity s) = true.
Proof.
  induction s as [|c s IH]; [reflexivity|].
  cbn [each_char]. rewrite all_chars_append, entity_no_markup, IH. reflexivity.
Qed.

(** The entities are a code: none is the start of another text written. *)
Lemma each_entity_inj (a : string) : forall b,
  each_char entity a = each_char entity b -> a = b.
Proof.
  assert (Hne : forall c rest, entity c +:+ rest <> "").
  { intros c rest. unfold entity.
    repeat match goal with |- context [Ascii.eqb ?x ?y] => destruct (Ascii.eqb x y) end;
      discriminate. }
  induction a as [|c a IH]; intros [|d b] H; cbn [each_char] in H.
  - reflexivity.
  - symmetry in H. apply Hne in H. contradiction.
  - apply Hne in H. contradiction.
  - assert (Hcd : c = d /\ each_char entity a = each_char entity b).
    { revert H. generalize (each_char entity a) (each_char entity b). intros x y.
      unfold entity.
      destruct (Ascii.eqb_spec c "&") as [->|?];
        [|destruct (Ascii.eqb_spec c "<") as [->|?];
          [|destruct (Ascii.eqb_spec c ">") as [->|?];
            [|destruct (Ascii.eqb_spec c (ascii_of_nat 34)) as [->|?];
              [|destruct (Ascii.eqb_spec c "'") as [->|?]]]]];
      (destruct (Ascii.eqb_spec d "&") as [->|?];
        [|destruct (Ascii.eqb_spec d "<") as [->|?];
          [|destruct (Ascii.eqb_spec d ">") as [->|?];
            [|destruct (Ascii.eqb_spec d (ascii_of_nat 34)) as [->|?];
              [|destruct (Ascii.eqb_spec d "'") as [->|?]]]]]);
      rewrite ?append_cons, ?append_nil_l; intros H; split; congruence. }
    destruct Hcd as [-> Hrest]. f_equal. apply IH, Hrest.
Qed.
End Escaping.

(** X23.  [escape_xml] escapes in one pass: the five replacements it makes
    one after the other write, for each character of the text, its
    entity, and the [&] of an entity is not escaped a second time.  The
    result holds no [<], [>], double or single quote, and escaping a text
    in pieces gives the pieces of the escaped text. *)
Theorem escape_xml_is_one_pass (text more : string) :
  Pdf.escape_xml text = each_char entity text
  /\ all_chars no_markup (Pdf.escape_xml text) = true
  /\ Pdf.escape_xml (text +:+ more) = Pdf.escape_xml text +:+ Pdf.escape_xml more.
Proof.
  rewrite !escape_xml_each_char. split; [reflexivity|].
  split; [apply each_entity_no_markup | apply each_char_append].
Qed.

(** X24.  [escape_xml] loses nothing: two texts that are escaped to the
    same text are the same text. *)
Theorem escape_xml_is_injective (a b : string) :
  Pdf.escape_xml a = Pdf.escape_xml b -> a = b.
Proof. rewrite !escape_xml_each_char. apply each_entity_inj. Qed.

Lemma escape_xml_is_injective_witness :
  Pdf.escape_xml ("a <" +:+ " b") = Pdf.escape_xml "a < b" /\ "a <" +:+ " b" = "a < b".
Proof.
  split; [reflexivity|].
  apply (escape_xml_is_injective ("a <" +:+ " b") "a < b"). reflexivity.
Defined.

(** A heading with markup characters. *)
Example escape_xml_run :
  Pdf.escape_xml "Q&A: <b>'x' > y</b>" = "Q&amp;A: &lt;b&gt;&apos;x&apos; &gt; y&lt;/b&gt;".
Proof. reflexivity. Qed.

(** ** The quiz session of the application *)

Section Session.
Import App.

Lemma check_answer_gradable (q : Question) (user_answer : Z) :
  gradable q -> exists v, check_answer q user_answer = Ok v.
Proof.
  unfold gradable, check_answer. intros Hq.
  destruct (index_valid _ _ Hq) as [copt ->]. cbn [mbind result_bind].
  destruct ((0 <=? user_answer) && (user_answer <? Z.of_nat (length (options q)))) eqn:Hin.
  - apply andb_prop in Hin as [H0 H1]. apply Z.leb_le in H0. apply Z.ltb_lt in H1.
    destruct (index_in_range (options q) user_answer) as (x & _ & ->); [lia|].
    cbn [mbind result_bind]. eauto.
  - cbn [mbind result_bind]. eauto.
Qed.

(** The session [start_quiz] sets up. *)
Lemma start_quiz_state (num_questions : Z) (st : session_state) (t : tape)
    (data : quiz_data_dict) :
  quiz_data st = Some data ->
  0 <= num_questions ->
  exists selected t',
    start_quiz num_questions st t =
      (Ok {| page := quiz;
             quiz_data := Some {| all_questions := all_questions data;
                                  current_questions := selected |};
             current_question := 0; score := 0; answers := [];
             show_feedback := false |}, t')
    /\ Z.of_nat (length selected)
       = Z.min num_questions (Z.of_nat (length (all_questions data)))
    /\ selected ⊆+ all_questions data.
Proof.
  intros Hdata Hnum. unfold start_quiz, select_quiz_questions. rewrite Hdata.
  destruct (sample_spec (all_questions data)
              (Z.min num_questions (Z.of_nat (length (all_questions data)))) t)
    as (selected & t' & -> & Hlen & Hsub); [lia|].
  exists selected, t'. split; [reflexivity|]. split; [lia | exact Hsub].
Qed.

(** One run of the quiz page keeps the invariant and does not raise. *)
Lemma show_quiz_page_invariant (pool questions : list Question) (st : session_state)
    (button : bool) (radio : Z) :
  Forall gradable questions ->
  quiz_invariant pool questions st -> page st = quiz ->
  exists st', show_quiz_page st button radio = Ok st' /\ quiz_invariant pool questions st'.
Proof.
  intros Hgrad Hsame Hquiz.
  pose proof Hsame as (Hdata & Hidx & Hlen & Hasked & Hscore & Hrec & Hpage).
  unfold show_quiz_page. rewrite Hdata. cbn [current_questions].
  destruct (index_in_range questions (current_question st) Hidx) as (q & Hq & ->).
  cbn [mbind result_bind].
  destruct (show_feedback st) eqn:Hfb.
  - (* the feedback of the last answer is shown *)
    destruct (index_valid (answers st) (-1)) as [last ->]; [unfold valid_index; lia|].
    cbn [mbind result_bind].
    destruct (Z.ltb_spec (current_question st) (Z.of_nat (length questions) - 1))
      as [Hmore|Hlast]; (destruct button; [|exists st; split; [reflexivity | exact Hsame]]).
    + eexists. split; [reflexivity|]. split; [reflexivity|]. cbn.
      repeat split; assumption || lia.
    + eexists. split; [reflexivity|]. split; [reflexivity|]. cbn.
      repeat split; try assumption; try lia. right. split; [reflexivity | lia].
  - (* the options are shown *)
    destruct button; [|exists st; split; [reflexivity | exact Hsame]].
    assert (Hgq : gradable q).
    { rewrite Forall_forall in Hgrad. apply Hgrad. eapply list_elem_of_lookup_2, Hq. }
    destruct (check_answer_gradable q radio Hgq) as [v Hv]. rewrite Hv.
    cbn [mbind result_bind]. eexists. split; [reflexivity|].
    split; [reflexivity|]. cbn.
    assert (Hn : length (answers st) = Z.to_nat (current_question st)) by lia.
    repeat split; try assumption; try lia.
    + rewrite length_app. cbn. lia.
    + rewrite map_app, length_app. cbn [map length App.answer_question].
      rewrite Nat.add_1_r, (take_S_r _ _ q) by (rewrite Hn; exact Hq).
      rewrite Hasked. reflexivity.
    + rewrite List.filter_app, length_app. cbn [List.filter App.answer_is_correct].
      rewrite Hscore. destruct (correct v); cbn [length]; lia.
    + apply Forall_app. split; [exact Hrec|]. constructor; [|constructor].
      split; [exact Hv | reflexivity].
    + left. exact Hquiz.
Qed.

Lemma quiz_runs_invariant (pool questions : list Question) (inputs : list (bool * Z)) :
  Forall gradable questions ->
  forall st,
    quiz_invariant pool questions st ->
    exists st', quiz_runs st inputs = Ok st' /\ quiz_invariant pool questions st'.
Proof.
  intros Hgrad. induction inputs as [|[button radio] inputs IH]; intros st Hinv;
    cbn [quiz_runs].
  - eauto.
  - destruct (page st) eqn:Hpage; eauto.
    destruct (show_quiz_page_invariant pool questions st button radio Hgrad Hinv Hpage)
      as (st1 & -> & Hinv1).
    cbn [mbind result_bind]. apply IH, Hinv1.
Qed.

(** A session from [start_quiz] on, on a pool of gradable questions. *)
Lemma quiz_session (num_questions : Z) (st : session_state) (t : tape)
    (data : quiz_data_dict) (inputs : list (bool * Z)) :
  quiz_data st = Some data ->
  0 < num_questions ->
  all_questions data <> [] ->
  Forall gradable (all_questions data) ->
  exists started t' now selected,
    start_quiz num_questions st t = (Ok started, t')
    /\ quiz_runs started inputs = Ok now
    /\ selected ⊆+ all_questions data
    /\ Z.of_nat (length selected)
       = Z.min num_questions (Z.of_nat (length (all_questions data)))
    /\ quiz_invariant (all_questions data) selected now.
Proof.
  intros Hdata Hnum Hpool Hgrad.
  destruct (start_quiz_state num_questions st t data Hdata ltac:(lia))
    as (selected & t' & Hrun & Hlen & Hsub).
  assert (Hsel : Forall gradable selected).
  { rewrite Forall_forall in Hgrad |- *. intros q Hq. apply Hgrad.
    eapply elem_of_submseteq; eassumption. }
  assert (0 < Z.of_nat (length (all_questions data)))
    by (destruct (all_questions data); [contradiction | cbn; lia]).
  assert (Hinv : quiz_invariant (all_questions data) selected
            {| page := quiz;
               quiz_data := Some {| all_questions := all_questions data;
                                    current_questions := selected |};
               current_question := 0; score := 0; answers := [];
               show_feedback := false |}).
  { split; [reflexivity|]. cbn.
    repeat split; try reflexivity; try lia; try constructor. reflexivity. }
  destruct (quiz_runs_invariant _ selected inputs Hsel _ Hinv) as (now & Hplay & Hnow).
  eexists _, t', now, selected.
  split; [exact Hrun|]. split; [exact Hplay|]. auto.
Qed.
End Session.

(** X25.  A quiz session keeps its books.  After [start_quiz] with a
    positive number of questions, on a pool that is not empty and whose
    questions the grader can grade, no run of the quiz page raises,
    whatever the user presses and selects.  The selection has
    [min(num_questions, len(pool))] questions of the pool, and at every
    moment: the score is the number of answers recorded as correct; the
    answers recorded are the answers to the first questions of the
    selection, one each and in order; each carries the verdict of
    [check_answer] on its question; and the results page is reached only
    with every selected question answered. *)
Theorem quiz_session_keeps_its_books
    (num_questions : Z) (st : App.session_state) (t : tape) (data : App.quiz_data_dict)
    (inputs : list (bool * Z)) :
  App.quiz_data st = Some data ->
  0 < num_questions ->
  App.all_questions data <> [] ->
  Forall gradable (App.all_questions data) ->
  exists started t' now selected,
    App.start_quiz num_questions st t = (Ok started, t')
    /\ quiz_runs started inputs = Ok now
    /\ selected ⊆+ App.all_questions data
    /\ Z.of_nat (length selected)
       = Z.min num_questions (Z.of_nat (length (App.all_questions data)))
    /\ quiz_invariant (App.all_questions data) selected now.
Proof. apply quiz_session. Qed.

Lemma quiz_session_keeps_its_books_witness :
  exists started t' now selected,
    App.start_quiz 5
      {| App.page := App.mode_selection;
         App.quiz_data := Some {| App.all_questions := sample_pool;
                                  App.current_questions := [] |};
         App.current_question := 0; App.score := 0; App.answers := [];
         App.show_feedback := false |} [0; 0]%nat = (Ok started, t')
    /\ quiz_runs started [(true, 0); (true, 0); (true, 1); (true, 0)] = Ok now
    /\ selected ⊆+ sample_pool
    /\ Z.of_nat (length selected) = 2
    /\ quiz_invariant sample_pool selected now.
Proof.
  apply (quiz_session_keeps_its_books 5 _ [0; 0]%nat
           {| App.all_questions := sample_pool; App.current_questions := [] |}).
  - reflexivity.
  - reflexivity.
  - discriminate.
  - repeat constructor; unfold gradable, valid_index; cbn; lia.
Defined.

(** The session of the witness, run: two questions, the first answered
    right and the second wrong, and the results page reached. *)
Example quiz_session_run :
  (st ← (App.start_quiz 5
           {| App.page := App.mode_selection;
              App.quiz_data := Some {| App.all_questions := sample_pool;
                                       App.current_questions := [] |};
              App.current_question := 0; App.score := 0; App.answers := [];
              App.show_feedback := false |} [0; 0]%nat).1;
   now ← quiz_runs st [(true, 0); (true, 0); (true, 1); (true, 0)];
   Ok (App.page now, App.score now, length (App.answers now)))
  = Ok (App.results, 1, 2%nat).
Proof. vm_compute. reflexivity. Qed.

(** X26.  What the results page shows agrees with the quiz played.  In a
    session that [start_quiz] and the quiz page have led to the results
    page, the number of questions shown is the number of questions
    selected, the points shown are the number of correct answers shown,
    and the totals and the correct counts of the topics add up to these
    two numbers. *)
Theorem results_agree_with_the_quiz {F : Arith}
    (num_questions : Z) (st started now : App.session_state) (t t' : tape)
    (data : App.quiz_data_dict) (inputs : list (bool * Z))
    (pressed : option App.results_button) :
  App.quiz_data st = Some data ->
  0 < num_questions ->
  App.all_questions data <> [] ->
  Forall gradable (App.all_questions data) ->
  App.start_quiz num_questions st t = (Ok started, t') ->
  quiz_runs started inputs = Ok now ->
  App.page now = App.results ->
  let view := (App.show_results_page now pressed).1 in
  App.total_questions view
    = Z.min num_questions (Z.of_nat (length (App.all_questions data)))
  /\ App.total_points view = App.correct_answers view
  /\ sum_over stat_total (App.topic_performance view) = App.total_questions view
  /\ sum_over stat_correct (App.topic_performance view) = App.correct_answers view.
Proof.
  intros Hdata Hnum Hpool Hgrad Hstart Hplay Hpage. cbn zeta.
  destruct (quiz_session num_questions st t data inputs Hdata Hnum Hpool Hgrad)
    as (started' & t1 & now' & selected & Hstart' & Hplay' & _ & Hlen & Hinv).
  rewrite Hstart in Hstart'. injection Hstart' as <- <-.
  rewrite Hplay in Hplay'. injection Hplay' as <-.
  destruct Hinv as (_ & _ & _ & _ & Hscore & _ & Hwhere).
  destruct Hwhere as [Hquiz|[_ Hall]]; [congruence|].
  unfold App.show_results_page, App.results_of.
  cbn [fst App.total_questions App.total_points App.correct_answers App.topic_performance].
  split; [lia|]. split; [exact Hscore|].
  unfold calculate_topic_performance. rewrite !sum_over_map.
  destruct (sum_over_fold_tally (map App.as_graded (App.answers now)) []) as [Ht Hc].
  change (sum_over n_total []) with 0 in Ht. change (sum_over n_correct []) with 0 in Hc.
  rewrite Z.add_0_l, length_map in Ht. rewrite Z.add_0_l in Hc.
  split; [exact Ht|]. etransitivity; [exact Hc|]. f_equal. f_equal.
  generalize (App.answers now). intros l.
  induction l as [|a l IH]; [reflexivity|]. cbn [map List.filter].
  change (is_correct (App.as_graded a)) with (App.answer_is_correct a).
  destruct (App.answer_is_correct a); cbn [length]; rewrite IH; reflexivity.
Qed.

Lemma results_agree_with_the_quiz_witness :
  exists now,
    quiz_runs
      {| App.page := App.quiz;
         App.quiz_data := Some {| App.all_questions := sample_pool;
                                  App.current_questions := sample_pool |};
         App.current_question := 0; App.score := 0; App.answers := [];
         App.show_feedback := false |}
      [(true, 0); (true, 0); (true, 1); (true, 0)] = Ok now
    /\ App.total_points (App.show_results_page (F := exact) now None).1
       = App.correct_answers (App.show_results_page (F := exact) now None).1.
Proof.
  eexists. split; [vm_compute; reflexivity|].
  eapply (results_agree_with_the_quiz (F := exact) 5
            {| App.page := App.mode_selection;
               App.quiz_data := Some {| App.all_questions := sample_pool;
                                        App.current_questions := [] |};
               App.current_question := 0; App.score := 0; App.answers := [];
               App.show_feedback := false |} _ _ [0; 0]%nat _
            {| App.all_questions := sample_pool; App.current_questions := [] |}
            [(true, 0); (true, 0); (true, 1); (true, 0)] None).
  - reflexivity.
  - reflexivity.
  - discriminate.
  - repeat constructor; unfold gradable, valid_index; cbn; lia.
  - vm_compute. reflexivity.
  - vm_compute. reflexivity.
  - reflexivity.
Defined.

(** X27.  Play Again deals a new quiz from the same pool.  Pressed on the
    results page of a session as above, it leads to the mode selection
    with the score and the answers reset, and the quiz started from
    there is again a session that keeps its books, on a new selection of
    the same pool. *)
Theorem play_again_deals_a_new_quiz {F : Arith}
    (num_questions : Z) (st started now : App.session_state) (t t' : tape)
    (data : App.quiz_data_dict) (inputs : list (bool * Z)) :
  App.quiz_data st = Some data ->
  0 < num_questions ->
  App.all_questions data <> [] ->
  Forall gradable (App.all_questions data) ->
  App.start_quiz num_questions st t = (Ok started, t') ->
  quiz_runs started inputs = Ok now ->
  App.page now = App.results ->
  let again := (App.show_results_page now (Some App.PlayAgain)).2 in
  App.page again = App.mode_selection
  /\ App.score again = 0
  /\ App.answers again = []
  /\ forall num_questions2 t2 inputs2,
       0 < num_questions2 ->
       exists started2 t2' now2 selected2,
         App.start_quiz num_questions2 again t2 = (Ok started2, t2')
         /\ quiz_runs started2 inputs2 = Ok now2
         /\ selected2 ⊆+ App.all_questions data
         /\ Z.of_nat (length selected2)
            = Z.min num_questions2 (Z.of_nat (length (App.all_questions data)))
         /\ quiz_invariant (App.all_questions data) selected2 now2.
Proof.
  intros Hdata Hnum Hpool Hgrad Hstart Hplay _. cbn zeta.
  destruct (quiz_session num_questions st t data inputs Hdata Hnum Hpool Hgrad)
    as (started' & t1 & now' & selected & Hstart' & Hplay' & _ & _ & Hinv).
  rewrite Hstart in Hstart'. injection Hstart' as <- <-.
  rewrite Hplay in Hplay'. injection Hplay' as <-.
  destruct Hinv as (Hnow & _).
  unfold App.show_results_page. cbn [snd App.page App.score App.answers].
  repeat split.
  intros num_questions2 t2 inputs2 Hnum2.
  apply (quiz_session num_questions2 _ t2
           {| App.all_questions := App.all_questions data;
              App.current_questions := selected |} inputs2);
    [exact Hnow | exact Hnum2 | exact Hpool | exact Hgrad].
Qed.

Lemma play_again_deals_a_new_quiz_witness :
  exists now,
    quiz_runs
      {| App.page := App.quiz;
         App.quiz_data := Some {| App.all_questions := sample_pool;
                                  App.current_questions := sample_pool |};
         App.current_question := 0; App.score := 0; App.answers := [];
         App.show_feedback := false |}
      [(true, 0); (true, 0); (true, 1); (true, 0)] = Ok now
    /\ App.page (App.show_results_page (F := exact) now (Some App.PlayAgain)).2
       = App.mode_selection.
Proof.
  eexists. split; [vm_compute; reflexivity|].
  eapply (play_again_deals_a_new_quiz (F := exact) 5
            {| App.page := App.mode_selection;
               App.quiz_data := Some {| App.all_questions := sample_pool;
                                        App.current_questions := [] |};
               App.current_question := 0; App.score := 0; App.answers := [];
               App.show_feedback := false |} _ _ [0; 0]%nat _
            {| App.all_questions := sample_pool; App.current_questions := [] |}
            [(true, 0); (true, 0); (true, 1); (true, 0)]).
  - reflexivity.
  - reflexivity.
  - discriminate.
  - repeat constructor; unfold gradable, valid_index; cbn; lia.
  - vm_compute. reflexivity.
  - vm_compute. reflexivity.
  - reflexivity.
Defined.

(** X28.  An empty question pool ends in a crash of the quiz page: from a
    pool without questions [start_quiz] selects none, without drawing a
    random number, and opens the quiz page, whose every run then raises
    an IndexError at the first question. *)
Theorem empty_pool_crashes_the_quiz
    (num_questions : Z) (st : App.session_state) (t : tape) (data : App.quiz_data_dict)
    (button : bool) (radio : Z) :
  App.quiz_data st = Some data ->
  App.all_questions data = [] ->
  0 <= num_questions ->
  exists started,
    App.start_quiz num_questions st t = (Ok started, t)
    /\ App.page started = App.quiz
    /\ App.show_quiz_page started button radio = Raise IndexError.
Proof.
  intros Hdata Hempty Hnum. unfold App.start_quiz, select_quiz_questions.
  rewrite Hdata, Hempty. cbn [length]. unfold sample. cbn [length].
  replace (Z.min num_questions (Z.of_nat 0)) with 0 by lia.
  cbn. eexists. split; [reflexivity|]. split; reflexivity.
Qed.

Lemma empty_pool_crashes_the_quiz_witness :
  exists started,
    App.start_quiz 15
      {| App.page := App.mode_selection;
         App.quiz_data := Some {| App.all_questions := []; App.current_questions := [] |};
         App.current_question := 0; App.score := 0; App.answers := [];
         App.show_feedback := false |} [7]%nat = (Ok started, [7]%nat)
    /\ App.page started = App.quiz
    /\ App.show_quiz_page started true 0 = Raise IndexError.
Proof.
  apply (empty_pool_crashes_the_quiz 15 _ [7]%nat
           {| App.all_questions := []; App.current_questions := [] |} true 0);
    [reflexivity | reflexivity | discriminate].
Defined.
